(** * GEL2 runtime core: ownership pointers, object root, pool allocator

    A shallow embedding of [trunk/internal.cpp]: the five pointer wrappers
    ([_Own], [_Ptr], [_Ref], [_OwnRef], [_PtrRef]), the reference counts of
    [_Object] and [String], and [Pool] with its two-pass [Destroy].

    C++ objects live in a typed store indexed by address; every operation is
    a function from a [world] to a [result], so that a failed [_assert]
    (message printed, [_exit(1)]) and undefined behaviour are both visible
    as outcomes. *)

From stdpp Require Import gmap strings list.
From Stdlib Require Import ZArith Lia.

Open Scope Z_scope.

(** ** Build configuration *)

(** The preprocessor symbols of a build, and the pointer width of the
    target, on which [sizeof(_Own<Object>)] and the offset of
    [PoolBlock::data_] depend. *)
Record build := {
  MEMORY_SAFE : bool;
  EXTRA_SAFE : bool;
  sizeof_ptr : Z;
}.

Definition INT_MAX : Z := 2147483647.
Definition INT_MIN : Z := -2147483648.

(** [const int PendingDestroy = 0x70000000] *)
Definition PendingDestroy : Z := 0x70000000.

(** ** The store *)

(** The virtual table an object's vptr selects.  [KGel] stands for any
    class declared with [GEL2_OBJECT]; [KObject] for [Object] itself and
    for subclasses that inherit [Object::_Destroy1]. *)
Inductive klass := KObject | KGel | KString | KPoolObject.

(** Class-specific data members. *)
Inductive body :=
| Gel (ptrs : list Z)      (* a compiled class: targets of its [_Ptr] members, in declaration order *)
| Str                      (* [String] and its subclasses *)
| PoolObj (p_ : Z)         (* [PoolObject::p_] *)
| Plain.                   (* no pointer members *)

Record object := {
  vptr : klass;
  count_ : Z;              (* [_Object::count_], or [String::count_] in an unsafe build *)
  sizeof_ : Z;             (* [sizeof] of the most derived class *)
  obody : body;
}.

(** What a piece of storage holds. [COwn] is an [_Own<Object>]: one bare
    pointer, no vptr and no count. *)
Inductive cell :=
| CObj (o : object)
| COwn (p_ : Z).

(** Instrumentation: the calls a run made, oldest first. *)
Inductive event :=
| EvNew (a : Z)            (* an object was constructed at [a] *)
| EvDtor (a : Z)           (* the destructor of the object at [a] was entered *)
| EvDestroy1 (a : Z)       (* virtual [_Destroy1] was entered on [a] *)
| EvDestroy2 (a : Z)       (* virtual [_Destroy2] was entered on [a] *)
| EvAlloc (a n : Z)        (* [n] bytes were allocated at [a] *)
| EvFree (a : Z).          (* the allocation based at [a] was released *)

Record world := {
  _exiting : bool;         (* the global [_exiting] *)
  brk : Z;                 (* allocator backend: the next fresh address *)
  allocs : gmap Z Z;       (* live allocations, base to size *)
  mem : gmap Z cell;
  log : list event;
}.

Definition set_mem (f : gmap Z cell -> gmap Z cell) (w : world) : world :=
  {| _exiting := _exiting w; brk := brk w; allocs := allocs w;
     mem := f (mem w); log := log w |}.

Definition add_log (e : event) (w : world) : world :=
  {| _exiting := _exiting w; brk := brk w; allocs := allocs w;
     mem := mem w; log := log w ++ [e] |}.

(** ** Outcomes *)

Inductive result (A : Type) : Type :=
| Ok (a : A) (w : world)
| Fatal (msg : string) (w : world)   (* [_assert] failed: the process exited in state [w] *)
| Undefined                          (* undefined behaviour *)
| OutOfFuel.
Arguments Ok {A} a w.
Arguments Fatal {A} msg w.
Arguments Undefined {A}.
Arguments OutOfFuel {A}.

Definition M (A : Type) : Type := world -> result A.

Definition ret {A} (a : A) : M A := fun w => Ok a w.

Definition bind {A B} (m : M A) (k : A -> M B) : M B :=
  fun w => match m w with
           | Ok a w' => k a w'
           | Fatal msg w' => Fatal msg w'
           | Undefined => Undefined
           | OutOfFuel => OutOfFuel
           end.

Declare Scope gel_scope.
Delimit Scope gel_scope with gel.
Notation "x <- m ;; k" := (bind m (fun x => k))
  (at level 100, m at next level, k at level 200, right associativity) : gel_scope.
Notation "m ;; k" := (bind m (fun _ => k))
  (at level 100, k at level 200, right associativity) : gel_scope.
Open Scope gel_scope.

Definition undefined {A} : M A := fun _ => Undefined.

(** [_exiting = true;], the last statement of [gel2_runmain2]. *)
Definition now_exiting (w : world) : world :=
  {| _exiting := true; brk := brk w; allocs := allocs w; mem := mem w; log := log w |}.
Definition emit (e : event) : M unit := fun w => Ok tt (add_log e w).
Definition exiting : M bool := fun w => Ok (_exiting w) w.

(** [void _assert(bool b, const wchar_t* message)] *)
Definition _assert (b : bool) (message : string) : M unit :=
  fun w => if b then Ok tt w else Fatal message w.

(** Reading or writing an object through a pointer that does not point to
    one is undefined. *)
Definition get_obj (a : Z) : M object :=
  fun w => match mem w !! a with
           | Some (CObj o) => Ok o w
           | _ => Undefined
           end.

Definition put_obj (a : Z) (o : object) : M unit :=
  fun w => Ok tt (set_mem (insert a (CObj o)) w).

Definition set_count (c : Z) (o : object) : object :=
  {| vptr := vptr o; count_ := c; sizeof_ := sizeof_ o; obody := obody o |}.
Definition set_vptr (k : klass) (o : object) : object :=
  {| vptr := k; count_ := count_ o; sizeof_ := sizeof_ o; obody := obody o |}.
Definition set_body (b : body) (o : object) : object :=
  {| vptr := vptr o; count_ := count_ o; sizeof_ := sizeof_ o; obody := b |}.

(** [int] arithmetic: signed overflow is undefined. *)
Definition int_incr (c : Z) : M Z :=
  if c <? INT_MAX then ret (c + 1) else undefined.
Definition int_decr (c : Z) : M Z :=
  if INT_MIN <? c then ret (c - 1) else undefined.

(** ** The allocator backend *)

(** [new char[n]]: a fresh, non-null region of [n] bytes. *)
Definition new_chars (n : Z) : M Z :=
  fun w => Ok (brk w)
    {| _exiting := _exiting w; brk := brk w + Z.max n 1;
       allocs := <[brk w := n]> (allocs w); mem := mem w;
       log := log w ++ [EvAlloc (brk w) n] |}.

Definition in_region (base n a : Z) : bool := (base <=? a) && (a <? base + n).

(** [operator delete]: releasing what is not a live allocation is
    undefined; everything stored in the region goes with it. *)
Definition operator_delete (a : Z) : M unit :=
  fun w => match allocs w !! a with
           | Some n =>
               Ok tt {| _exiting := _exiting w; brk := brk w;
                        allocs := delete a (allocs w);
                        mem := filter (fun kv => in_region a (Z.max n 1) kv.1 = false) (mem w);
                        log := log w ++ [EvFree a] |}
           | None => Undefined
           end.

Section Runtime.

Variable bld : build.

(** ** [class _Object] *)

(** [_Object::_PtrInc]: [++count_] in a safe build, nothing otherwise. *)
Definition _PtrInc (a : Z) : M unit :=
  if MEMORY_SAFE bld then
    o <- get_obj a ;;
    c <- int_incr (count_ o) ;;
    put_obj a (set_count c o)
  else ret tt.

(** [_Object::_PtrDec] *)
Definition _PtrDec (a : Z) : M unit :=
  if MEMORY_SAFE bld then
    o <- get_obj a ;;
    (if EXTRA_SAFE bld
     then _assert (0 <? count_ o) "internal ref count failure"
     else ret tt) ;;
    c <- int_decr (count_ o) ;;
    put_obj a (set_count c o)
  else ret tt.

(** [_Object::_DeferDestroy]: [count_ |= PendingDestroy] *)
Definition _DeferDestroy (a : Z) : M unit :=
  o <- get_obj a ;;
  put_obj a (set_count (Z.lor (count_ o) PendingDestroy) o).

(** [_Object::_CheckDeferredDestroy] *)
Definition _CheckDeferredDestroy (a : Z) : M unit :=
  o <- get_obj a ;;
  e <- exiting ;;
  _assert (e || (count_ o =? PendingDestroy))
    "outstanding reference to destroyed pool-allocated object".

(** [_Object::~_Object] *)
Definition dtor__Object (a : Z) : M unit :=
  if MEMORY_SAFE bld then
    o <- get_obj a ;;
    e <- exiting ;;
    _assert (e || (count_ o =? 0) || negb (Z.land (count_ o) PendingDestroy =? 0))
      "outstanding reference to destroyed object"
  else ret tt.

(** ** [_Ptr<T>]: a non-owning pointer

    A wrapper is represented by the value of its [p_]; a method returns
    the new [p_], next to its C++ result when it has one. *)

Definition Ptr_Init (p : Z) : M Z :=
  (if p =? 0 then ret tt else _PtrInc p) ;; ret p.

Definition Ptr_dtor (p_ : Z) : M unit :=
  e <- exiting ;;
  if negb e && negb (p_ =? 0) then _PtrDec p_ else ret tt.

Definition Ptr_assign (p_ p : Z) : M (Z * Z) :=
  if p =? p_ then ret (p, p_)
  else
    (if p_ =? 0 then ret tt else _PtrDec p_) ;;
    (if p =? 0 then ret tt else _PtrInc p) ;;
    ret (p, p).

(** ** Destruction of an object *)

(** The [_Ptr] members of a compiled class are destroyed in reverse
    declaration order; a destroyed member no longer belongs to the object. *)
Fixpoint dtor_members (a : Z) (rev_ptrs : list Z) : M unit :=
  match rev_ptrs with
  | [] => ret tt
  | t :: rest =>
      Ptr_dtor t ;;
      o <- get_obj a ;;
      put_obj a (set_body (Gel (rev rest)) o) ;;
      dtor_members a rest
  end.

(** The destructors of the classes derived from [_Object], for the
    object at [a]: the members go, then [~Object] runs with [Object]'s
    virtual table installed. *)
Definition dtor_derived (a : Z) : M unit :=
  o <- get_obj a ;;
  emit (EvDtor a) ;;
  match obody o with
  | Gel ptrs => dtor_members a (rev ptrs)
  | _ => ret tt
  end ;;
  o' <- get_obj a ;;
  put_obj a (set_vptr KObject o').

(** The whole destructor chain, ending in [~_Object].  The storage is not
    released. *)
Definition destructor (a : Z) : M unit :=
  dtor_derived a ;; dtor__Object a.

(** [delete p] *)
Definition delete_ (p : Z) : M unit :=
  if p =? 0 then ret tt else destructor p ;; operator_delete p.

(** ** [class String] *)

(** [String::_Dec] *)
Definition String_Dec (a : Z) : M unit :=
  o <- get_obj a ;;
  (if EXTRA_SAFE bld
   then _assert (0 <? count_ o) "internal string ref count failure"
   else ret tt) ;;
  c <- int_decr (count_ o) ;;
  put_obj a (set_count c o).

(** [String::_RefInc] *)
Definition String_RefInc (a : Z) : M unit :=
  o <- get_obj a ;;
  c <- int_incr (count_ o) ;;
  put_obj a (set_count c o).

(** [String::_RefDec]: [_Dec(); if (!count_) delete this;] *)
Definition String_RefDec (a : Z) : M unit :=
  String_Dec a ;;
  o <- get_obj a ;;
  if count_ o =? 0 then delete_ a else ret tt.



(** ** The virtual hooks of [Object], overridden by [String] *)

Definition _OwnRefInc (a : Z) : M unit :=
  o <- get_obj a ;;
  match vptr o with KString => String_RefInc a | _ => ret tt end.

Definition _OwnRefDec (a : Z) : M unit :=
  o <- get_obj a ;;
  match vptr o with KString => String_RefDec a | _ => delete_ a end.

Definition _PtrRefInc (a : Z) : M unit :=
  o <- get_obj a ;;
  match vptr o with KString => String_RefInc a | _ => _PtrInc a end.

Definition _PtrRefDec (a : Z) : M unit :=
  o <- get_obj a ;;
  match vptr o with KString => String_RefDec a | _ => _PtrDec a end.

Definition _OwnSub (a : Z) : M unit :=
  o <- get_obj a ;;
  match vptr o with KString => String_Dec a | _ => ret tt end.

(** ** [_Own<T>]: an owning pointer *)

Definition Own_dtor (p_ : Z) : M unit := delete_ p_.

(** [Take]: the pointer handed out, and the new [p_]. *)
Definition Own_Take (p_ : Z) : M (Z * Z) := ret (p_, 0).

Definition Own_assign (p_ p : Z) : M (Z * Z) :=
  if p =? p_ then ret (p, p_)
  else delete_ p_ ;; ret (p, p).

(** ** [_Ref<T>]: a pointer to a reference-counted object *)

Definition Ref_Init (p : Z) : M Z :=
  (if p =? 0 then ret tt else String_RefInc p) ;; ret p.

Definition Ref_dtor (p_ : Z) : M unit :=
  if p_ =? 0 then ret tt else String_RefDec p_.

Definition Ref_assign (p_ p : Z) : M (Z * Z) :=
  if p =? p_ then ret (p, p_)
  else
    (if p_ =? 0 then ret tt else String_RefDec p_) ;;
    (if p =? 0 then ret tt else String_RefInc p) ;;
    ret (p, p).

(** ** [_OwnRef<T>]: owning, or counted when the object is a string *)

Definition OwnRef_ctor (p : Z) : M Z :=
  (if p =? 0 then ret tt else _OwnRefInc p) ;; ret p.

Definition OwnRef_dtor (p_ : Z) : M unit :=
  if p_ =? 0 then ret tt else _OwnRefDec p_.

Definition OwnRef_assign (p_ p : Z) : M (Z * Z) :=
  if p =? p_ then ret (p, p_)
  else
    (if p_ =? 0 then ret tt else _OwnRefDec p_) ;;
    (if p =? 0 then ret tt else _OwnRefInc p) ;;
    ret (p, p).

Definition OwnRef_Take (p_ : Z) : M (Z * Z) :=
  (if p_ =? 0 then ret tt else _OwnSub p_) ;; ret (p_, 0).

(** ** [_PtrRef<T>] *)



Definition PtrRef_assign (p_ p : Z) : M (Z * Z) :=
  if p =? p_ then ret (p, p_)
  else
    (if p_ =? 0 then ret tt else _PtrRefDec p_) ;;
    (if p =? 0 then ret tt else _PtrRefInc p) ;;
    ret (p, p).

(** ** [class Pool] *)

Definition BlockSize : Z := 8192.
Definition Threshold : Z := 256.

(** A [PoolBlock] is the head of a [new char[BlockSize]] region at [base]:
    [prev_] and [first_], then [data_]; the [prev_] chain is the list
    order of [top_]. *)
Record PoolBlock := { base : Z; first_ : Z }.

Record Pool := { top_ : list PoolBlock }.

Definition data_ (b : PoolBlock) : Z := base b + 2 * sizeof_ptr bld.

(** Conversion of a pointer difference to [size_t]. *)
Definition size_t (z : Z) : Z := z mod 2 ^ (8 * sizeof_ptr bld).

(** [sizeof(_Own<Object>)] *)
Definition sizeof_Own : Z := sizeof_ptr bld.

(** [Pool::NewBlock] *)
Definition NewBlock (pool : Pool) : M Pool :=
  d <- new_chars BlockSize ;;
  ret {| top_ := {| base := d; first_ := d + BlockSize |} :: top_ pool |}.

(** [Pool::Pool] *)
Definition Pool_ctor : M Pool := NewBlock {| top_ := [] |}.

(** [Pool::Alloc]; the fuel bounds the depth of its self-calls. *)
Fixpoint Alloc (fuel : nat) (n : Z) (pool : Pool) : M (Z * Pool) :=
  match fuel with
  | O => fun _ => OutOfFuel
  | S fuel' =>
      match top_ pool with
      | [] =>
          _assert false "can't allocate from pool which is being destroyed" ;;
          undefined
      | b :: prev =>
          let free := size_t (first_ b - data_ b) in
          if n <=? free then
            let b' := {| base := base b; first_ := first_ b - n |} in
            ret (first_ b', {| top_ := b' :: prev |})
          else if free <? Threshold then
            pool' <- NewBlock pool ;;
            Alloc fuel' n pool'
          else
            d <- new_chars n ;;
            r <- Alloc fuel' sizeof_Own pool ;;
            (fun w => Ok tt (set_mem (insert r.1 (COwn d)) w)) ;;
            ret (d, r.2)
      end
  end.

(** [PoolObject::_Destroy1] *)
Definition PoolObject_Destroy1 (o : object) : M Z :=
  match obody o with
  | PoolObj p_ =>
      (if MEMORY_SAFE bld then
         e <- exiting ;;
         if e then delete_ p_
         else _DeferDestroy p_ ;; destructor p_
       else delete_ p_) ;;
      ret (sizeof_ o)
  | _ => undefined
  end.

(** [PoolObject::_Destroy2] *)
Definition PoolObject_Destroy2 (o : object) : M Z :=
  match obody o with
  | PoolObj p_ =>
      _CheckDeferredDestroy p_ ;;
      operator_delete p_ ;;
      ret (sizeof_ o)
  | _ => undefined
  end.

(** Virtual [_Destroy1]: [GEL2_OBJECT] runs the class's destructor and
    returns its size; [Object]'s own version is "bad pool object".  A call
    on storage that holds no [Object] is undefined. *)
Definition _Destroy1 (a : Z) : M Z :=
  o <- get_obj a ;;
  emit (EvDestroy1 a) ;;
  match vptr o with
  | KGel => destructor a ;; ret (sizeof_ o)
  | KPoolObject => PoolObject_Destroy1 o
  | KObject | KString => _assert false "bad pool object" ;; ret 0
  end.

(** Virtual [_Destroy2] (safe builds only). *)
Definition _Destroy2 (a : Z) : M Z :=
  o <- get_obj a ;;
  emit (EvDestroy2 a) ;;
  match vptr o with
  | KGel => ret (sizeof_ o)
  | KPoolObject => PoolObject_Destroy2 o
  | KObject | KString => _assert false "bad pool object" ;; ret 0
  end.

(** The inner loop of [Pool::Destroy]: [while (p < block_end)]. *)
Fixpoint scan (fuel : nat) (pass1 : bool) (block_end p : Z) : M unit :=
  if p <? block_end then
    match fuel with
    | O => fun _ => OutOfFuel
    | S fuel' =>
        if MEMORY_SAFE bld then
          e <- exiting ;;
          if e then
            n <- _Destroy1 p ;;
            scan fuel' pass1 block_end (p + n)
          else if pass1 then
            _DeferDestroy p ;;
            o <- get_obj p ;;
            let vtable := vptr o in
            n <- _Destroy1 p ;;
            o' <- get_obj p ;;
            put_obj p (set_vptr vtable o') ;;
            scan fuel' pass1 block_end (p + n)
          else
            _CheckDeferredDestroy p ;;
            n <- _Destroy2 p ;;
            scan fuel' pass1 block_end (p + n)
        else
          n <- _Destroy1 p ;;
          scan fuel' pass1 block_end (p + n)
    end
  else ret tt.

(** [Pool::Destroy]: the loop over the blocks.  Every object is at least
    one byte, so the distance to the end of the block bounds the number of
    iterations of the inner loop. *)
Fixpoint Destroy (top : list PoolBlock) (pass1 : bool) : M unit :=
  match top with
  | [] => ret tt
  | b :: prev =>
      let block_end := base b + BlockSize in
      scan (Z.to_nat (block_end - first_ b)) pass1 block_end (first_ b) ;;
      (if MEMORY_SAFE bld then
         e <- exiting ;;
         if e || negb pass1 then operator_delete (base b) else ret tt
       else operator_delete (base b)) ;;
      Destroy prev pass1
  end.

(** [Pool::~Pool] *)
Definition Pool_dtor (pool : Pool) : M Pool :=
  let top := top_ pool in
  Destroy top true ;;
  (if MEMORY_SAFE bld then
     e <- exiting ;;
     if negb e then Destroy top false else ret tt
   else ret tt) ;;
  ret {| top_ := [] |}.

(** ** Client code *)

(** Construction of an instance of a compiled class at [a]: [_Object()]
    zeroes the count, every [_Ptr] member is initialised from its target. *)
Fixpoint init_members (ptrs : list Z) : M unit :=
  match ptrs with
  | [] => ret tt
  | t :: rest => Ptr_Init t ;; init_members rest
  end.

Definition construct (a n : Z) (ptrs : list Z) : M unit :=
  put_obj a {| vptr := KGel; count_ := 0; sizeof_ := n; obody := Gel ptrs |} ;;
  init_members ptrs ;;
  emit (EvNew a).

(** [new (pool->Alloc(sizeof(C))) C(...)] *)
Definition pool_new (n : Z) (ptrs : list Z) (pool : Pool) : M (Z * Pool) :=
  r <- Alloc 3 n pool ;;
  construct r.1 n ptrs ;;
  ret r.

End Runtime.

(** * Specification vocabulary *)

(** The count stored at an address, if an object lives there. *)
Definition count_at (a : Z) (w : world) : option Z :=
  match mem w !! a with
  | Some (CObj o) => Some (count_ o)
  | _ => None
  end.

(** Writing a new count into the object at [a]. *)
Definition with_count (a : Z) (o : object) (c : Z) (w : world) : world :=
  set_mem (insert a (CObj (set_count c o))) w.

(** A decrement either ends the process or leaves a count that is not
    negative. *)
Definition nonneg_after (a : Z) (r : result unit) : Prop :=
  match r with
  | Ok _ w' => exists c, count_at a w' = Some c /\ 0 <= c
  | Fatal _ _ => True
  | _ => False
  end.

(** In build [bld], neither [String::_Dec] nor [_Object::_PtrDec] takes a
    count that is not negative to a negative one. *)
Definition counts_stay_nonnegative (bld : build) : Prop :=
  forall a w o,
    mem w !! a = Some (CObj o) -> 0 <= count_ o ->
    nonneg_after a (String_Dec bld a w) /\ nonneg_after a (_PtrDec bld a w).

(** Concrete builds and a start state for the examples. *)
Definition fresh_world : world :=
  {| _exiting := false; brk := 4096; allocs := ∅; mem := ∅; log := [] |}.

Definition safe64 : build :=
  {| MEMORY_SAFE := true; EXTRA_SAFE := false; sizeof_ptr := 8 |}.
Definition extra64 : build :=
  {| MEMORY_SAFE := true; EXTRA_SAFE := true; sizeof_ptr := 8 |}.
Definition unsafe64 : build :=
  {| MEMORY_SAFE := false; EXTRA_SAFE := false; sizeof_ptr := 8 |}.

(** ** Handles of a shared string *)

(** What can happen to a [_Ref] that points to a string [v]. *)
Inductive ref_op :=
| RefCopy                  (* a further handle to [v] is constructed, from a pointer or by copy *)
| RefDrop                  (* a handle to [v] is destroyed *)
| RefAssign (p : Z).       (* a handle to [v] is assigned the pointer [p] *)

Definition ref_step (bld : build) (v : Z) (op : ref_op) : M unit :=
  match op with
  | RefCopy => Ref_Init v ;; ret tt
  | RefDrop => Ref_dtor bld v
  | RefAssign p => Ref_assign bld v p ;; ret tt
  end.

Fixpoint ref_run (bld : build) (v : Z) (ops : list ref_op) : M unit :=
  match ops with
  | [] => ret tt
  | op :: rest => ref_step bld v op ;; ref_run bld v rest
  end.

(** The operations that add a handle to [v], and those that take one away. *)
Definition is_inc (op : ref_op) : bool :=
  match op with RefCopy => true | _ => false end.

Definition is_dec (v : Z) (op : ref_op) : bool :=
  match op with
  | RefCopy => false
  | RefDrop => true
  | RefAssign p => negb (p =? v)
  end.

Fixpoint tally (f : ref_op -> bool) (ops : list ref_op) : Z :=
  match ops with
  | [] => 0
  | op :: rest => (if f op then 1 else 0) + tally f rest
  end.

(** Started at count [c], every handle taken away had been counted, no
    increment overflows, and nothing is done to the string after a
    decrement has brought its count to zero. *)
Fixpoint usable (v c : Z) (ops : list ref_op) : bool :=
  match ops with
  | [] => true
  | op :: rest =>
      if is_dec v op then
        (0 <? c) &&
        (if c =? 1 then match rest with [] => true | _ => false end
         else usable v (c - 1) rest)
      else if is_inc op then (c <? INT_MAX) && usable v (c + 1) rest
      else usable v c rest
  end.

(** Some decrement of the sequence brings the count to zero. *)
Fixpoint reaches_zero (v c : Z) (ops : list ref_op) : bool :=
  match ops with
  | [] => false
  | op :: rest =>
      if is_dec v op then (c =? 1) || reaches_zero v (c - 1) rest
      else if is_inc op then reaches_zero v (c + 1) rest
      else reaches_zero v c rest
  end.

(** A pointer assigned to a handle is null, or [v] itself, or points to
    another live string, stored outside [v]'s [n] bytes, that can take
    [k] more handles. *)
Definition target_ok (w : world) (v n k p : Z) : Prop :=
  p = 0 \/ p = v \/
  (in_region v (Z.max n 1) p = false /\
   exists o, mem w !! p = Some (CObj o) /\ count_ o + k <= INT_MAX).

Definition targets_ok (w : world) (v n : Z) (ops : list ref_op) : Prop :=
  forall p, In (RefAssign p) ops -> target_ok w v n (Z.of_nat (length ops)) p.

(** The state in which [delete] leaves the store when it destroys an
    object at [a], allocated with [n] bytes, that has no members. *)
Definition after_delete (a n : Z) (w : world) : world :=
  {| _exiting := _exiting w; brk := brk w;
     allocs := delete a (allocs w);
     mem := filter (fun kv => in_region a (Z.max n 1) kv.1 = false) (mem w);
     log := log w ++ [EvDtor a; EvFree a] |}.

(** An object without [_Ptr] members. *)
Definition no_members (o : object) : Prop :=
  match obody o with
  | Gel (_ :: _) => False
  | _ => True
  end.

(** What [~_Object] asserts of a count in a safe build. *)
Definition dtor_check (exit : bool) (c : Z) : bool :=
  exit || (c =? 0) || negb (Z.land c PendingDestroy =? 0).



(** A store with one shared string and no reference to it yet. *)
Definition shared_example : world :=
  {| _exiting := false; brk := 8192;
     allocs := {[ 4096 := 24 ]};
     mem := {[ 4096 := CObj {| vptr := KString; count_ := 0; sizeof_ := 24; obody := Str |} ]};
     log := [] |}.


(** The effect of one operation: either it destroys the string, or it
    changes the string's count by one or not at all and leaves every
    other object where it was, with a count at most one higher. *)
Definition grown (v : Z) (w w1 : world) : Prop :=
  forall q oq, q <> v -> mem w !! q = Some (CObj oq) ->
    exists oq', mem w1 !! q = Some (CObj oq') /\ count_ oq' <= count_ oq + 1.

(** ** Moving a value out of a pointer *)

(** What C8 says of an [_OwnRef] that holds [v]: [Take] returns [v] and
    leaves null behind without destroying anything, destroying the emptied
    pointer does nothing, and the destruction of the new owner destroys
    [v], once. *)
Definition take_then_destroy (bld : build) (v : Z) (w : world) : Prop :=
  exists w1 w2 w3,
    OwnRef_Take bld v w = Ok (v, 0) w1 /\ log w1 = log w /\
    OwnRef_dtor bld 0 w1 = Ok tt w1 /\
    OwnRef_ctor v w1 = Ok v w2 /\
    OwnRef_dtor bld v w2 = Ok tt w3 /\
    mem w3 !! v = None /\ log w3 = log w ++ [EvDtor v; EvFree v].

(** The same steps when [v] is a string that other handles share: the
    new owner's destruction takes one off the count and the string stays. *)
Definition take_then_release (bld : build) (v : Z) (o : object) (w : world) : Prop :=
  exists w1 w2 w3,
    OwnRef_Take bld v w = Ok (v, 0) w1 /\ log w1 = log w /\
    count_at v w1 = Some (count_ o - 1) /\
    OwnRef_dtor bld 0 w1 = Ok tt w1 /\
    OwnRef_ctor v w1 = Ok v w2 /\
    count_at v w2 = Some (count_ o) /\
    OwnRef_dtor bld v w2 = Ok tt w3 /\
    mem w3 !! v = Some (CObj (set_count (count_ o - 1) o)) /\ log w3 = log w.

(** A string at address 4096 that two handles share. *)
Definition shared_twice : world :=
  {| _exiting := false; brk := 8192;
     allocs := {[ 4096 := 24 ]};
     mem := {[ 4096 := CObj {| vptr := KString; count_ := 2; sizeof_ := 24; obody := Str |} ]};
     log := [] |}.

(** An object at address 4096 that nothing refers to. *)
Definition lone_object : world :=
  {| _exiting := false; brk := 8192;
     allocs := {[ 4096 := 24 ]};
     mem := {[ 4096 := CObj {| vptr := KGel; count_ := 0; sizeof_ := 24; obody := Gel [] |} ]};
     log := [] |}.

(** Two states that differ in the contents of the store only. *)
Definition mem_only (w w1 : world) : Prop :=
  _exiting w1 = _exiting w /\ brk w1 = brk w /\ allocs w1 = allocs w /\ log w1 = log w.

(** ** The pool *)

(** Pointer widths for which a block has room for its header and a
    placeholder fits under the threshold. *)
Definition pool_target (bld : build) : Prop := 2 <= sizeof_ptr bld <= 256.

(** The bytes a fresh block offers. *)
Definition capacity (bld : build) : Z := BlockSize - 2 * sizeof_ptr bld.

(** The free bytes of a block, and what holds of [first_] in any block the
    pool has made. *)
Definition free_bytes (bld : build) (b : PoolBlock) : Z := first_ b - data_ bld b.

Definition block_ok (bld : build) (b : PoolBlock) : Prop :=
  data_ bld b <= first_ b <= base b + BlockSize.

(** The request got storage of its own: the run allocated [n] bytes at
    the very address it returned. *)
Definition escaped (n : Z) (w : world) (r : result (Z * Pool)) : Prop :=
  match r with
  | Ok (d, _) w' => exists l1 l2, log w' = log w ++ l1 ++ EvAlloc d n :: l2
  | _ => False
  end.

(** The third part of C2: a request escapes exactly when it exceeds the
    capacity of a whole block. *)
Definition escapes_iff_oversized (bld : build) : Prop :=
  forall n b prev w,
    block_ok bld b -> 0 <= n ->
    (escaped n w (Alloc bld 3 n {| top_ := b :: prev |} w) <-> capacity bld < n).

(** The state after [new char[n]]. *)
Definition allocated (n : Z) (w : world) : world :=
  {| _exiting := _exiting w; brk := brk w + Z.max n 1;
     allocs := <[brk w := n]> (allocs w); mem := mem w;
     log := log w ++ [EvAlloc (brk w) n] |}.

(** A block just made by [NewBlock] in state [w]. *)
Definition fresh_block (w : world) : PoolBlock :=
  {| base := brk w; first_ := brk w + BlockSize |}.

(** A block after [n] bytes were taken off its top. *)
Definition bumped (n : Z) (b : PoolBlock) : PoolBlock :=
  {| base := base b; first_ := first_ b - n |}.

(** The state after an escaping request for [n] bytes, whose placeholder
    went to the top of block [b]. *)
Definition escaped_world (bld : build) (n : Z) (b : PoolBlock) (w : world) : world :=
  set_mem (insert (first_ b - sizeof_ptr bld) (COwn (brk w))) (allocated n w).

(** A fresh pool, one object of [n] bytes without members allocated in
    it, and the pool torn down. *)
Definition one_object_pool (bld : build) (n : Z) : M Pool :=
  pool <- Pool_ctor ;;
  r <- pool_new bld n [] pool ;;
  Pool_dtor bld r.2.

(** A block whose only entry is a [PoolObject] for the object stored at
    20000 in 9000 bytes of its own. *)
Definition pool_object_world (exit : bool) : world :=
  {| _exiting := exit; brk := 30000;
     allocs := {[ 4096 := 8192; 20000 := 9000 ]};
     mem := {[ 12264 := CObj {| vptr := KPoolObject; count_ := 0; sizeof_ := 24;
                                obody := PoolObj 20000 |};
               20000 := CObj {| vptr := KGel; count_ := 0; sizeof_ := 9000;
                                obody := Gel [] |} ]};
     log := [] |}.

Definition pool_object_pool : Pool :=
  {| top_ := [ {| base := 4096; first_ := 12264 |} ] |}.

(** The events of a run, whatever its outcome. *)
Definition events {A} (r : result A) : option (list event) :=
  match r with
  | Ok _ w => Some (log w)
  | Fatal _ w => Some (log w)
  | _ => None
  end.

(** ** The contents of a pool *)

(** The class and the size of the object at an address. *)
Definition shape_at (m : gmap Z cell) (a : Z) : option (klass * Z) :=
  match m !! a with
  | Some (CObj o) => Some (vptr o, sizeof_ o)
  | _ => None
  end.

(** The [_Ptr] members of the object at an address. *)
Definition members (o : object) : list Z :=
  match obody o with
  | Gel ptrs => ptrs
  | _ => []
  end.

Definition members_at (m : gmap Z cell) (a : Z) : list Z :=
  match m !! a with
  | Some (CObj o) => members o
  | _ => []
  end.

(** [chain m p e L]: from [p] to [e] the store holds, back to back,
    objects of compiled classes, at the addresses [L]. *)
Fixpoint chain (m : gmap Z cell) (p e : Z) (L : list Z) : Prop :=
  match L with
  | [] => p = e
  | a :: rest =>
      a = p /\ exists n, shape_at m a = Some (KGel, n) /\ 0 < n /\
      chain m (p + n) e rest
  end.

(** The objects on which a run entered [_Destroy1], in order. *)
Definition destroyed1 (l : list event) : list Z :=
  flat_map (fun e => match e with EvDestroy1 a => [a] | _ => [] end) l.

(** *** Counts and the members that account for them *)

(** A count before and after [_DeferDestroy]: fewer than [2^28]
    references, with or without all of [PendingDestroy]'s bits. *)
Definition plain (c : Z) : Prop := 0 <= c < 2 ^ 28.
Definition deferred (c : Z) : Prop := PendingDestroy <= c < PendingDestroy + 2 ^ 28.
Definition count_wf (c : Z) : Prop := plain c \/ deferred c.

(** The references a count stands for. *)
Definition refs (c : Z) : Z := if c <? PendingDestroy then c else c - PendingDestroy.

Definition occ (t : Z) (l : list Z) : Z := Z.of_nat (count_occ Z.eq_dec l t).

(** The members, over the objects at [univ], that point to [t]. *)
Fixpoint incoming (m : gmap Z cell) (univ : list Z) (t : Z) : Z :=
  match univ with
  | [] => 0
  | a :: rest => occ t (members_at m a) + incoming m rest t
  end.

(** The objects at [univ] refer to each other only, and each count covers
    the members that point to its object. *)
Definition count_of (m : gmap Z cell) (a : Z) : option Z :=
  match m !! a with
  | Some (CObj o) => Some (count_ o)
  | _ => None
  end.

Definition refs_ok (m : gmap Z cell) (univ : list Z) : Prop :=
  List.NoDup univ /\
  forall a, In a univ ->
    a <> 0 /\
    (exists c, count_of m a = Some c /\ count_wf c /\ incoming m univ a <= refs c) /\
    forall t, In t (members_at m a) -> t = 0 \/ In t univ.

(** From [m] to [m2] no count at [univ] went up, and none changed between
    plain and deferred. *)
Definition settles (univ : list Z) (m m2 : gmap Z cell) : Prop :=
  forall x, In x univ ->
    forall c, count_of m x = Some c ->
      exists c2, count_of m2 x = Some c2 /\ c2 <= c /\
        (deferred c -> deferred c2) /\ (plain c -> plain c2).

(** The two ways a teardown can run: with the checks on (a safe build
    that is not exiting), or in a single unchecked pass. *)
Definition checked (bld : build) (w : world) : Prop :=
  MEMORY_SAFE bld = true /\ _exiting w = false.

Definition quiet (bld : build) (w : world) : Prop :=
  MEMORY_SAFE bld = false \/ _exiting w = true.

(** What the first pass logs for the objects [L] of a block. *)
Definition visits1 (L : list Z) : list event :=
  flat_map (fun a => [EvDestroy1 a; EvDtor a]) L.

(** A state with further events in its log. *)
Definition logged (l : list event) (w : world) : world :=
  {| _exiting := _exiting w; brk := brk w; allocs := allocs w;
     mem := mem w; log := log w ++ l |}.

(** The blocks of a pool, newest first, with the objects each holds: every
    block is a live allocation of [BlockSize] bytes, filled from [first_]
    to its end, and lies below the one made after it, all below [limit]. *)
Fixpoint blocks_wf (bld : build) (w : world) (limit : Z)
    (top : list PoolBlock) (Ls : list (list Z)) : Prop :=
  match top, Ls with
  | [], [] => True
  | b :: prev, L :: Ls' =>
      block_ok bld b /\ 0 < base b /\ base b + BlockSize <= limit /\
      allocs w !! base b = Some BlockSize /\
      chain (mem w) (first_ b) (base b + BlockSize) L /\
      blocks_wf bld w (base b) prev Ls'
  | _, _ => False
  end.

(** What a pass that releases each block after its objects logs. *)
Fixpoint sweep (visit : list Z -> list event)
    (top : list PoolBlock) (Ls : list (list Z)) : list event :=
  match top, Ls with
  | b :: prev, L :: Ls' => visit L ++ EvFree (base b) :: sweep visit prev Ls'
  | _, _ => []
  end.

(** *** The second pass, as the specification describes it *)

(** The count of the object at [a] has settled at the sentinel. *)
Definition settled (m : gmap Z cell) (a : Z) : bool :=
  match count_of m a with
  | Some c => c =? PendingDestroy
  | None => false
  end.

(** The second pass over the objects of one block: each object whose
    count has settled is passed to [_Destroy2]; the first one whose count
    has not stops the pass.  The result is the events logged and whether
    the pass went through. *)
Fixpoint check_block (ok : Z -> bool) (L : list Z) : list event * bool :=
  match L with
  | [] => ([], true)
  | a :: rest =>
      if ok a then
        let r := check_block ok rest in (EvDestroy2 a :: r.1, r.2)
      else ([], false)
  end.

(** The second pass over the blocks: a block is released once all of its
    objects have been checked, and the first failed check ends the pass. *)
Fixpoint check_sweep (ok : Z -> bool)
    (top : list PoolBlock) (Ls : list (list Z)) : list event * bool :=
  match top, Ls with
  | b :: prev, L :: Ls' =>
      let r := check_block ok L in
      if r.2 then
        let r' := check_sweep ok prev Ls' in
        (r.1 ++ EvFree (base b) :: r'.1, r'.2)
      else (r.1, false)
  | _, _ => ([], true)
  end.

(** The state after [operator delete] released the [n] bytes at [a]. *)
Definition released (a n : Z) (w : world) : world :=
  {| _exiting := _exiting w; brk := brk w;
     allocs := delete a (allocs w);
     mem := filter (fun kv => in_region a (Z.max n 1) kv.1 = false) (mem w);
     log := log w ++ [EvFree a] |}.

(** ** Pools as programs build them *)

(** The objects [univ0] that exist before the pool is made: allocated
    below [brk], referring to each other only, with counts that cover
    their members when the build keeps counts. *)
Definition heap_ok (bld : build) (univ0 : list Z) (w : world) : Prop :=
  0 < brk w /\
  (forall a, In a univ0 -> 0 < a < brk w) /\
  (MEMORY_SAFE bld = true -> refs_ok (mem w) univ0).

(** [built bld univ0 pool w addrs]: the pool was made by [Pool::Pool] and
    then filled, in this order, with the objects at [addrs]; none of them
    escaped its block, each was constructed with members that point to
    objects made before it, or are null, and non-owning pointers to the
    objects may have been taken since.  [_exiting] may have been set. *)
Inductive built (bld : build) (univ0 : list Z) : Pool -> world -> list Z -> Prop :=
| built_ctor w0 pool w :
    heap_ok bld univ0 w0 ->
    Pool_ctor w0 = Ok pool w ->
    built bld univ0 pool w []
| built_new pool w addrs n ptrs a pool' w' :
    built bld univ0 pool w addrs ->
    0 < n ->
    (forall t, In t ptrs -> t = 0 \/ In t addrs \/ In t univ0) ->
    pool_new bld n ptrs pool w = Ok (a, pool') w' ->
    ~ escaped n w (Alloc bld 3 n pool w) ->
    (forall t c, In t ptrs -> count_of (mem w') t = Some c -> c < 2 ^ 28) ->
    built bld univ0 pool' w' (addrs ++ [a])
| built_ptr pool w addrs t w' :
    built bld univ0 pool w addrs ->
    In t addrs \/ In t univ0 ->
    Ptr_Init bld t w = Ok t w' ->
    (forall c, count_of (mem w') t = Some c -> c < 2 ^ 28) ->
    built bld univ0 pool w' addrs
| built_exit pool w addrs :
    built bld univ0 pool w addrs ->
    built bld univ0 pool (now_exiting w) addrs.

(** What holds of a pool that was built: its blocks hold the objects,
    newest first, and in a build that keeps counts the counts cover the
    members. *)
Definition pool_wf (bld : build) (univ0 : list Z) (pool : Pool) (w : world)
    (addrs : list Z) (Ls : list (list Z)) : Prop :=
  top_ pool <> [] /\
  blocks_wf bld w (brk w) (top_ pool) Ls /\
  concat Ls = rev addrs /\
  0 < brk w /\
  (forall a, In a univ0 ->
     0 < a < brk w /\
     forall b, In b (top_ pool) -> ~ (base b <= a < base b + BlockSize)) /\
  (MEMORY_SAFE bld = true -> refs_ok (mem w) (rev addrs ++ univ0)).


(** The effect of initialising members with the targets [ptrs], in a
    build that keeps counts: every target that is not null has its count
    raised once for each member that points to it. *)
Definition raised (ptrs : list Z) (w w' : world) : Prop :=
  mem_only w w' /\
  (forall x, shape_at (mem w') x = shape_at (mem w) x) /\
  (forall x, members_at (mem w') x = members_at (mem w) x) /\
  (forall x, x <> 0 ->
     count_of (mem w') x = (fun c => c + occ x ptrs) <$> count_of (mem w) x).

(** ** Claims about teardown *)

(** C3 as the specification words it: the first pass enters [_Destroy1]
    on the objects in the order in which they were allocated. *)
Definition phase1_in_allocation_order (bld : build) : Prop :=
  forall univ0 pool w addrs w1,
    built bld univ0 pool w addrs ->
    Destroy bld (top_ pool) true w = Ok tt w1 ->
    exists l, log w1 = log w ++ l /\ destroyed1 l = addrs.


(** The message of [_Object::_CheckDeferredDestroy]. *)
Definition outstanding : string :=
  "outstanding reference to destroyed pool-allocated object".


(** A pool with two objects of 24 bytes, the second with a member that
    points to the first. *)
Definition pair_pool : Pool :=
  {| top_ := [ {| base := 4096; first_ := 12240 |} ] |}.

Definition pair_world (c : Z) : world :=
  {| _exiting := false; brk := 12288;
     allocs := {[ 4096 := 8192 ]};
     mem := {[ 12264 := CObj {| vptr := KGel; count_ := c; sizeof_ := 24; obody := Gel [] |};
               12240 := CObj {| vptr := KGel; count_ := 0; sizeof_ := 24;
                                obody := Gel [12264] |} ]};
     log := [EvAlloc 4096 8192; EvNew 12264; EvNew 12240] |}.

(** The same pool after its first allocation. *)
Definition single_pool : Pool :=
  {| top_ := [ {| base := 4096; first_ := 12264 |} ] |}.

Definition single_world : world :=
  {| _exiting := false; brk := 12288;
     allocs := {[ 4096 := 8192 ]};
     mem := {[ 12264 := CObj {| vptr := KGel; count_ := 0; sizeof_ := 24; obody := Gel [] |} ]};
     log := [EvAlloc 4096 8192; EvNew 12264] |}.
(** * Further vocabulary *)

(** ** Pools whose objects refer to each other *)






(** Two objects of a pool that point to each other, and nothing else
    that points to them. *)
Definition cycle_world : world :=
  {| _exiting := false; brk := 12288;
     allocs := {[ 4096 := 8192 ]};
     mem := {[ 12264 := CObj {| vptr := KGel; count_ := 1; sizeof_ := 24;
                                obody := Gel [12240] |};
               12240 := CObj {| vptr := KGel; count_ := 1; sizeof_ := 24;
                                obody := Gel [12264] |} ]};
     log := [] |}.


(** ** Storage *)

(** The allocations that a run released, in order. *)
Definition freed (l : list event) : list Z :=
  flat_map (fun e => match e with EvFree a => [a] | _ => [] end) l.

(** The bytes of the object at [a], if there is one. *)
Definition extent (m : gmap Z cell) (a : Z) : option (Z * Z) :=
  match shape_at m a with
  | Some (_, n) => Some (a, a + n)
  | None => None
  end.

(** Two ranges of bytes have nothing in common. *)
Definition apart (r1 r2 : Z * Z) : Prop := r1.2 <= r2.1 \/ r2.2 <= r1.1.


(** * Values: strings, numbers, builders and arrays

    The classes of [trunk/internal.cpp] and [trunk/library.cpp] whose
    methods compute on characters and elements.  An array is the list of
    its cells from the pointer on; a pointer advanced by [k] is the list
    without its first [k] cells, and a read past the last cell is
    undefined.  A method returns an [outcome]: a value, a failed
    [_assert], or undefined behaviour.  The storage of the values and the
    counts of the strings are the subject of the first part and are left
    out here. *)

Inductive outcome (A : Type) : Type :=
| Val (a : A)
| Abort (msg : string)     (* [_assert] failed: message printed, [_exit(1)] *)
| Undef.                   (* undefined behaviour *)
Arguments Val {A} a.
Arguments Abort {A} msg.
Arguments Undef {A}.

Definition obind {A B} (m : outcome A) (k : A -> outcome B) : outcome B :=
  match m with
  | Val a => k a
  | Abort msg => Abort msg
  | Undef => Undef
  end.

Declare Scope val_scope.
Delimit Scope val_scope with val.
Notation "x <- m ;; k" := (obind m (fun x => k))
  (at level 100, m at next level, k at level 200, right associativity) : val_scope.
Notation "m ;; k" := (obind m (fun _ => k))
  (at level 100, k at level 200, right associativity) : val_scope.

Section Values.

Local Open Scope val_scope.

(** [_assert(b, message)] *)
Definition asserted (b : bool) (message : string) : outcome unit :=
  if b then Val tt else Abort message.

(** The result of arithmetic on [int]: overflow is undefined. *)
Definition as_int (z : Z) : outcome Z :=
  if (INT_MIN <=? z) && (z <=? INT_MAX) then Val z else Undef.

(** Conversion of a [size_t] or a [ptrdiff_t] to [int]. *)
Definition to_int (z : Z) : Z := (z + 2 ^ 31) mod 2 ^ 32 - 2 ^ 31.

(** [Int::Max] *)
Definition Int_Max (i j : Z) : Z := if j <? i then i else j.

(** ** The C library, as the C standard describes it *)

Fixpoint wcslen (s : list Z) : outcome Z :=
  match s with
  | [] => Undef
  | c :: r => if c =? 0 then Val 0 else n <- wcslen r ;; Val (n + 1)
  end.

Fixpoint wcscmp (a b : list Z) : outcome comparison :=
  match a, b with
  | x :: a', y :: b' =>
      if x =? y then (if x =? 0 then Val Eq else wcscmp a' b') else Val (x ?= y)
  | _, _ => Undef
  end.

Fixpoint wcsncmp (a b : list Z) (n : nat) {struct n} : outcome comparison :=
  match n with
  | O => Val Eq
  | S n' =>
      match a, b with
      | x :: a', y :: b' =>
          if x =? y then (if x =? 0 then Val Eq else wcsncmp a' b' n') else Val (x ?= y)
      | _, _ => Undef
      end
  end.

(** [wcschr] and [wcsrchr] return a pointer into the string, here its
    offset, or null; the terminating null character counts as part of the
    string. *)
Fixpoint wcschr (s : list Z) (c : Z) : outcome (option Z) :=
  match s with
  | [] => Undef
  | x :: r =>
      if x =? c then Val (Some 0)
      else if x =? 0 then Val None
      else p <- wcschr r c ;; Val (Z.succ <$> p)
  end.

Fixpoint wcsrchr (s : list Z) (c : Z) : outcome (option Z) :=
  match s with
  | [] => Undef
  | x :: r =>
      if x =? 0 then Val (if c =? 0 then Some 0 else None)
      else
        p <- wcsrchr r c ;;
        Val (match p with
             | Some i => Some (i + 1)
             | None => if x =? c then Some 0 else None
             end)
  end.

(** [wcsncpy(dst, src, n)]: the [n] cells written to [dst]. *)
Fixpoint wcsncpy (src : list Z) (n : nat) {struct n} : outcome (list Z) :=
  match n with
  | O => Val []
  | S n' =>
      match src with
      | [] => Undef
      | c :: r =>
          if c =? 0 then Val (replicate (S n') 0)
          else l <- wcsncpy r n' ;; Val (c :: l)
      end
  end.

(** [memcpy(dst, src, n * sizeof(T))] for [n] cells that [src] has. *)
Definition memcpy (src : list Z) (n : Z) : outcome (list Z) :=
  if (0 <=? n) && (n <=? Z.of_nat (length src)) then Val (take (Z.to_nat n) src) else Undef.

(** ** [class String] *)

(** [s_] points to the characters, [length_] is their number. *)
Record StringObj := { s_ : list Z; length_ : Z }.

(** [String::String(const wchar_t *s)] *)
Definition String_of (s : list Z) : outcome StringObj :=
  n <- wcslen s ;; Val {| s_ := s; length_ := to_int n |}.

(** [Duplicate] *)
Definition Duplicate (s : list Z) : outcome (list Z) :=
  n <- wcslen s ;; Val (take (Z.to_nat (n + 1)) s).

(** [DynamicString::DynamicString(const wchar_t *s, bool copy)] *)
Definition DynamicString_of (s : list Z) (copy : bool) : outcome StringObj :=
  p <- (if copy then Duplicate s else Val s) ;; String_of p.

(** [GlobalString String::empty_string_ = L""] *)
Definition empty_string_ : StringObj := {| s_ := [0]; length_ := 0 |}.

(** [bool String::_Equals(const wchar_t *s)] *)
Definition String_Equals_chars (this : StringObj) (s : list Z) : outcome bool :=
  c <- wcscmp (s_ this) s ;; Val (match c with Eq => true | _ => false end).

(** [static bool String::_Equals(String *s1, String *s2)]; [None] is the
    null pointer. *)
Definition String_Equals (s1 s2 : option StringObj) : outcome bool :=
  match s1, s2 with
  | None, None => Val true
  | Some a, Some b => String_Equals_chars a (s_ b)
  | _, _ => Val false
  end.

(** [String::CompareOrdinal]: the sign of the [int] that [wcscmp] returns. *)
Definition String_CompareOrdinal (s t : StringObj) : outcome comparison :=
  wcscmp (s_ s) (s_ t).

(** [String::GetHashCode] *)
Fixpoint hash_loop (h : Z) (s : list Z) : outcome Z :=
  match s with
  | [] => Undef
  | c :: r =>
      if c =? 0 then Val h
      else m <- as_int (h * 17) ;; h' <- as_int (m + c) ;; hash_loop h' r
  end.

Definition String_GetHashCode (this : StringObj) : outcome Z := hash_loop 0 (s_ this).

(** [String::get_Item] *)
Definition String_get_Item (this : StringObj) (index : Z) : outcome Z :=
  asserted ((0 <=? index) && (index <? length_ this)) "string index out of bounds" ;;
  match s_ this !! Z.to_nat index with
  | Some c => Val c
  | None => Undef
  end.

(** [String::EndsWith] *)
Definition String_EndsWith (this s : StringObj) : outcome bool :=
  if length_ s <=? length_ this then
    c <- wcscmp (drop (Z.to_nat (length_ this - length_ s)) (s_ this)) (s_ s) ;;
    Val (match c with Eq => true | _ => false end)
  else Val false.

(** [String::EndsWithChar] *)
Definition String_EndsWithChar (this : StringObj) (c : Z) : outcome bool :=
  if 0 <? length_ this then
    match s_ this !! Z.to_nat (length_ this - 1) with
    | Some x => Val (x =? c)
    | None => Undef
    end
  else Val false.

(** [String::StartsWith]; the build gives the width of the [size_t] to
    which [wcsncmp] converts the length. *)
Definition String_StartsWith (bld : build) (this s : StringObj) : outcome bool :=
  if length_ s <=? length_ this then
    c <- wcsncmp (s_ this) (s_ s) (Z.to_nat (size_t bld (length_ s))) ;;
    Val (match c with Eq => true | _ => false end)
  else Val false.

(** [String::IndexOf] and [String::LastIndexOf] *)
Definition String_IndexOf (this : StringObj) (c : Z) : outcome Z :=
  p <- wcschr (s_ this) c ;;
  Val (match p with Some i => to_int i | None => -1 end).

Definition String_LastIndexOf (this : StringObj) (c : Z) : outcome Z :=
  p <- wcsrchr (s_ this) c ;;
  Val (match p with Some i => to_int i | None => -1 end).

(** [String::Substring].  A negative [length] makes [new wchar_t[length + 1]]
    or the size passed to [memcpy] meaningless. *)
Definition String_Substring (this : StringObj) (start_index length : Z) : outcome StringObj :=
  asserted (0 <=? start_index) "substring index out of bounds" ;;
  e <- as_int (start_index + length) ;;
  asserted (e <=? length_ this) "substring index out of bounds" ;;
  n <- as_int (length + 1) ;;
  if length <? 0 then Undef
  else
    cells <- memcpy (drop (Z.to_nat start_index) (s_ this)) length ;;
    String_of (cells ++ [0]).

(** [String::_Concat], on what [ToString] returned for each operand;
    [None] is a null operand. *)
Definition String_Concat (s1 s2 : option StringObj) : outcome StringObj :=
  match s1, s2 with
  | None, None => Val empty_string_
  | None, Some b => Val b
  | Some a, None => Val a
  | Some a, Some b =>
      n1 <- wcslen (s_ a) ;;
      n2 <- wcslen (s_ b) ;;
      let len1 := to_int n1 in
      let len2 := to_int n2 in
      e <- as_int (len1 + len2) ;;
      n <- as_int (e + 1) ;;
      if n <? 0 then Undef
      else
        c1 <- memcpy (s_ a) len1 ;;
        c2 <- memcpy (s_ b) len2 ;;
        String_of (c1 ++ c2 ++ [0])
  end.

(** ** [class Int] *)

(** [Int::ParseHex] *)
Fixpoint ParseHex_loop (i : Z) (p : list Z) : outcome Z :=
  match p with
  | [] => Undef
  | c :: rest =>
      if c =? 0 then Val i
      else
        d <- (if (48 <=? c) && (c <=? 57) then Val (c - 48)
              else if (97 <=? c) && (c <=? 102) then Val (10 + c - 97)
              else if (65 <=? c) && (c <=? 70) then Val (10 + c - 65)
              else Abort "bad hex digit") ;;
        m <- as_int (16 * i) ;;
        i' <- as_int (m + d) ;;
        ParseHex_loop i' rest
  end.

Definition Int_ParseHex (s : StringObj) : outcome Z := ParseHex_loop 0 (s_ s).

End Values.

(** ** What a string holds *)

(** The string [str] holds the text [cs]: [s_] points to the characters
    of [cs] and a null character, and [length_] is their number. *)
Definition text_of (str : StringObj) (cs : list Z) : Prop :=
  Forall (fun c => c <> 0) cs /\
  (exists rest, s_ str = cs ++ 0 :: rest) /\
  length_ str = Z.of_nat (length cs) /\
  Z.of_nat (length cs) <= INT_MAX.

(** The string [L"hello"]. *)
Definition hello : StringObj := {| s_ := [104; 101; 108; 108; 111; 0]; length_ := 5 |}.

(** The value of a string of digits in base [b], and the value that
    [String::GetHashCode] accumulates, both from a start value. *)
Definition horner (b : Z) (i : Z) (ds : list Z) : Z := fold_left (fun acc d => b * acc + d) ds i.

(** The value of a hexadecimal digit. *)
Definition hex_digit (c : Z) : option Z :=
  if (48 <=? c) && (c <=? 57) then Some (c - 48)
  else if (97 <=? c) && (c <=? 102) then Some (c - 87)
  else if (65 <=? c) && (c <=? 70) then Some (c - 55)
  else None.


(** ** [class StringBuilder] *)

(** [cells] are the characters [s_[0]] to [s_[len_ - 1]], those written
    so far, so that [len_] is their number; [room] is the number of cells
    that the last [Realloc] provided. *)
Record StringBuilder := { cells : list Z; alloc_len_ : Z; room : Z }.

Definition len_ (sb : StringBuilder) : Z := Z.of_nat (length (cells sb)).

(** [StringBuilder::Init] *)
Definition StringBuilder_Init : StringBuilder := {| cells := []; alloc_len_ := 0; room := 0 |}.

Section Builder.

Local Open Scope val_scope.

(** The build gives the width of [size_t]; [wsize] is [sizeof(wchar_t)]. *)
Variable bld : build.
Variable wsize : Z.

(** [StringBuilder::Extend]: [Realloc] keeps the cells that fit. *)
Definition StringBuilder_Extend (sb : StringBuilder) (extra : Z) : outcome StringBuilder :=
  need <- as_int (len_ sb + extra) ;;
  if alloc_len_ sb <? need then
    dbl <- as_int (2 * need) ;;
    let a := Int_Max dbl 64 in
    let r := size_t bld (a * wsize) / wsize in
    Val {| cells := take (Z.to_nat r) (cells sb); alloc_len_ := a; room := r |}
  else Val sb.

(** [StringBuilder::Append(wchar_t c)] *)
Definition StringBuilder_Append (sb : StringBuilder) (c : Z) : outcome StringBuilder :=
  sb1 <- StringBuilder_Extend sb 1 ;;
  if len_ sb1 <? room sb1 then
    as_int (len_ sb1 + 1) ;;
    Val {| cells := cells sb1 ++ [c]; alloc_len_ := alloc_len_ sb1; room := room sb1 |}
  else Undef.

(** [StringBuilder::Append(const wchar_t *start, int count)] *)
Definition StringBuilder_Append_n (sb : StringBuilder) (start : list Z) (count : Z)
    : outcome StringBuilder :=
  sb1 <- StringBuilder_Extend sb count ;;
  got <- memcpy start count ;;
  if len_ sb1 + count <=? room sb1 then
    as_int (len_ sb1 + count) ;;
    Val {| cells := cells sb1 ++ got; alloc_len_ := alloc_len_ sb1; room := room sb1 |}
  else Undef.

(** [StringBuilder::Append(const wchar_t *s)] *)
Definition StringBuilder_Append_chars (sb : StringBuilder) (s : list Z) : outcome StringBuilder :=
  n <- wcslen s ;; StringBuilder_Append_n sb s (to_int n).

(** [StringBuilder::Append(String *s)] *)
Definition StringBuilder_Append_String (sb : StringBuilder) (s : StringObj)
    : outcome StringBuilder :=
  StringBuilder_Append_chars sb (s_ s).

(** [StringBuilder::ToString]: the string takes the buffer over and the
    builder starts afresh. *)
Definition StringBuilder_ToString (sb : StringBuilder) : outcome (StringObj * StringBuilder) :=
  sb1 <- StringBuilder_Append sb 0 ;;
  s <- String_of (cells sb1) ;;
  Val (s, StringBuilder_Init).

(** [StringBuilder::AppendFormat(String *str, Object *o1, Object *o2, Object *o3)].
    An argument is what its [ToString] returns, [None] for a null
    pointer; [t] is the pointer of the same name and [lit] the
    characters from [s] up to it, so that [t - s] is their number. *)
Fixpoint AppendFormat_loop (o1 o2 o3 : option StringObj) (t lit : list Z)
    (sb : StringBuilder) : outcome StringBuilder :=
  match t with
  | [] => Undef
  | c :: t1 =>
      if c =? 0 then StringBuilder_Append_n sb lit (to_int (Z.of_nat (length lit)))
      else if c =? 123 then
        sb1 <- StringBuilder_Append_n sb lit (to_int (Z.of_nat (length lit))) ;;
        match t1 with
        | [] => Undef
        | d :: t2 =>
            o <- (if d =? 48 then Val o1
                  else if d =? 49 then Val o2
                  else if d =? 50 then Val o3
                  else Abort "bad format specifier") ;;
            match o with
            | None => Undef
            | Some s =>
                sb2 <- StringBuilder_Append_String sb1 s ;;
                match t2 with
                | [] => Undef
                | e :: t3 =>
                    asserted (e =? 125) "bad format specifier" ;;
                    AppendFormat_loop o1 o2 o3 t3 [] sb2
                end
            end
        end
      else AppendFormat_loop o1 o2 o3 t1 (lit ++ [c]) sb
  end.

Definition StringBuilder_AppendFormat (sb : StringBuilder) (str : StringObj)
    (o1 o2 o3 : option StringObj) : outcome StringBuilder :=
  AppendFormat_loop o1 o2 o3 (s_ str) [] sb.

(** [String::Format(String *str, Object *o1, Object *o2, Object *o3)];
    the versions with fewer arguments pass null pointers for the rest. *)
Definition String_Format (str : StringObj) (o1 o2 o3 : option StringObj) : outcome StringObj :=
  sb <- StringBuilder_AppendFormat StringBuilder_Init str o1 o2 o3 ;;
  r <- StringBuilder_ToString sb ;;
  Val r.1.

End Builder.

(** The builder has room for what it holds, and as much room as it
    asked for. *)
Definition builder_ok (sb : StringBuilder) : Prop :=
  len_ sb <= alloc_len_ sb /\ room sb = alloc_len_ sb /\
  (alloc_len_ sb = 0 \/ 64 <= alloc_len_ sb).

(** The text before the first null character. *)
Fixpoint until_null (cs : list Z) : list Z :=
  match cs with
  | [] => []
  | c :: r => if c =? 0 then [] else c :: until_null r
  end.

(** A format string, piece by piece: literal text, or a reference to
    argument 0, 1 or 2. *)
Inductive piece := Lit (s : list Z) | Arg (i : nat).

Definition render (p : piece) : list Z :=
  match p with
  | Lit s => s
  | Arg i => [123; 48 + Z.of_nat i; 125]
  end.

(** What a piece stands for, given the arguments. *)
Definition fill (os : list (option StringObj)) (p : piece) : list Z :=
  match p with
  | Lit s => s
  | Arg i => match nth i os None with Some s => until_null (s_ s) | None => [] end
  end.

(** Literal text has no null character and no opening brace; a
    reference names an argument that is there. *)
Definition piece_ok (os : list (option StringObj)) (p : piece) : Prop :=
  match p with
  | Lit s => Forall (fun c => c <> 0 /\ c <> 123) s
  | Arg i => exists s, nth_error os i = Some (Some s)
  end.

Definition rendered (ps : list piece) : list Z := concat (map render ps).

Definition filled (os : list (option StringObj)) (ps : list piece) : list Z :=
  concat (map (fill os) ps).

(** ** [class Path] *)

Section Paths.

Local Open Scope val_scope.

Variable bld : build.
Variable wsize : Z.

(** [kSeparator] is a backslash on Windows and a slash on Unix. *)
Variable kSeparator : Z.

(** [Path::Combine] *)
Definition Path_Combine (path1 path2 : StringObj) : outcome StringObj :=
  sb1 <- StringBuilder_Append_String bld wsize StringBuilder_Init path1 ;;
  e <- String_EndsWithChar path1 kSeparator ;;
  sb2 <- (if e then Val sb1 else StringBuilder_Append bld wsize sb1 kSeparator) ;;
  sb3 <- StringBuilder_Append_String bld wsize sb2 path2 ;;
  r <- StringBuilder_ToString bld wsize sb3 ;;
  Val r.1.

(** [Path::GetDirectoryName] *)
Definition Path_GetDirectoryName (path : StringObj) : outcome StringObj :=
  i <- String_LastIndexOf path kSeparator ;;
  if i =? -1 then Val path
  else
    root <- (if i =? 0 then Val true
             else if i =? 2 then c <- String_get_Item path 1 ;; Val (c =? 58)
             else Val false) ;;
    if root : bool then e <- as_int (i + 1) ;; String_Substring path 0 e
    else String_Substring path 0 i.

(** [Path::GetExtension] *)
Definition Path_GetExtension (path : StringObj) : outcome StringObj :=
  e <- wcsrchr (s_ path) 46 ;;
  DynamicString_of (match e with
                    | Some i => drop (Z.to_nat i) (s_ path)
                    | None => [0]
                    end) true.

(** [Path::GetFileNameWithoutExtension] *)
Definition Path_GetFileNameWithoutExtension (path : StringObj) : outcome StringObj :=
  dot_pos <- String_LastIndexOf path 46 ;;
  if 0 <=? dot_pos then String_Substring path 0 dot_pos else Val path.

End Paths.

(** The directories named with their separator: the root, and a drive's
    root as in [c:\]. *)
Definition is_root (d : list Z) : bool :=
  match d with
  | [] => true
  | [_; c] => c =? 58
  | _ => false
  end.

(** ** Arrays *)

(** An array of scalars: [element_type_] stands for the [type_info], and
    [a_] for the cells at the pointer of that name; [copyable] tells a
    [_CopyableArray<T>] from a plain [_Array<T>]. *)
Record ArrayObj := {
  element_type_ : Z;
  alength_ : Z;
  a_ : list Z;
  copyable : bool
}.

Definition with_cells (a : ArrayObj) (l : list Z) : ArrayObj :=
  {| element_type_ := element_type_ a; alength_ := alength_ a; a_ := l; copyable := copyable a |}.

(** The pointer [a_ + i] exists for the cells and for the end of the array. *)
Definition ptr_in (a : ArrayObj) (i : Z) : bool :=
  (0 <=? i) && (i <=? Z.of_nat (length (a_ a))).

Section Arrays.

Local Open Scope val_scope.

(** The loop [while (p < end) *q++ = *p++] for [end - p = k], in the
    arrays by address; [p] and [q] are offsets in the source's and the
    destination's cells. *)
Fixpoint copy_cells (k : nat) (src dst : Z) (p q : nat) (h : gmap Z ArrayObj) : outcome (gmap Z ArrayObj) :=
  match k with
  | O => Val h
  | S k' =>
      match h !! src, h !! dst with
      | Some s, Some d =>
          match a_ s !! p with
          | Some v =>
              if (q <? length (a_ d))%nat
              then copy_cells k' src dst (S p) (S q) (<[dst := with_cells d (<[q := v]> (a_ d))]> h)
              else Undef
          | None => Undef
          end
      | _, _ => Undef
      end
  end.

(** [_CopyableArray<T>::_Copy] *)
Definition CopyableArray_Copy (h : gmap Z ArrayObj) (this source_index dest dest_index n : Z)
    : outcome (gmap Z ArrayObj) :=
  match h !! this, h !! dest with
  | Some s, Some d =>
      if copyable d then
        if ptr_in s source_index && ptr_in s (source_index + n) && ptr_in d dest_index
        then copy_cells (Z.to_nat n) this dest (Z.to_nat source_index) (Z.to_nat dest_index) h
        else Undef
      else Undef
  | _, _ => Undef
  end.

(** [Array::Copy], with the virtual call to [_Copy] resolved. *)
Definition Array_Copy (h : gmap Z ArrayObj) (source source_index dest dest_index length : Z)
    : outcome (gmap Z ArrayObj) :=
  match h !! source, h !! dest with
  | Some s, Some d =>
      asserted (element_type_ s =? element_type_ d)
        "can't copy between arrays of different types" ;;
      asserted (0 <=? source_index) "array copy index out of bounds" ;;
      e <- as_int (source_index + length) ;;
      asserted (e <=? alength_ s) "array copy index out of bounds" ;;
      asserted (0 <=? dest_index) "array copy index out of bounds" ;;
      e <- as_int (dest_index + length) ;;
      asserted (e <=? alength_ d) "array copy index out of bounds" ;;
      if copyable s then CopyableArray_Copy h source source_index dest dest_index length
      else Abort "can't copy elements between owning arrays"
  | _, _ => Undef
  end.


(** [Array::Check] *)
Definition Array_Check (a : ArrayObj) (index : Z) : outcome unit :=
  asserted ((0 <=? index) && (index <? alength_ a)) "array index out of bounds".


(** [String::New(_Array<wchar_t> *a)]; the build gives the width of the
    [size_t] to which [wcsncpy] converts the length. *)
Definition String_New (bld : build) (a : ArrayObj) : outcome StringObj :=
  Array_Check a 0 ;;
  let len := alength_ a in
  as_int (len + 1) ;;
  s <- wcsncpy (a_ a) (Z.to_nat (size_t bld len)) ;;
  String_of (s ++ [0]).

End Arrays.

(** The array has the cells that its length tells. *)
Definition array_ok (a : ArrayObj) : Prop :=
  alength_ a = Z.of_nat (length (a_ a)) /\ alength_ a <= INT_MAX.



(** * Reasoning about runs *)

Lemma bind_Ok {A B} (m : M A) (k : A -> M B) w a w1 :
  m w = Ok a w1 -> bind m k w = k a w1.
Proof. intros H. unfold bind. now rewrite H. Qed.

Lemma bind_Fatal {A B} (m : M A) (k : A -> M B) w msg w1 :
  m w = Fatal msg w1 -> bind m k w = Fatal msg w1.
Proof. intros H. unfold bind. now rewrite H. Qed.

Lemma get_obj_Ok a o w : mem w !! a = Some (CObj o) -> get_obj a w = Ok o w.
Proof. intros H. unfold get_obj. now rewrite H. Qed.

Lemma count_at_with_count a o c w : count_at a (with_count a o c w) = Some c.
Proof. unfold count_at, with_count. simpl. now rewrite lookup_insert_eq. Qed.

Section Counts.

Variable bld : build.

Lemma String_Dec_spec a o w :
  mem w !! a = Some (CObj o) -> INT_MIN < count_ o ->
  String_Dec bld a w =
    if EXTRA_SAFE bld && negb (0 <? count_ o)
    then Fatal "internal string ref count failure" w
    else Ok tt (with_count a o (count_ o - 1) w).
Proof.
  intros Hm Hc. unfold String_Dec.
  rewrite (bind_Ok _ _ _ _ _ (get_obj_Ok _ _ _ Hm)).
  assert (Hd : int_decr (count_ o) w = Ok (count_ o - 1) w).
  { unfold int_decr. destruct (Z.ltb_spec INT_MIN (count_ o)); [reflexivity | lia]. }
  destruct (EXTRA_SAFE bld); simpl.
  - unfold bind at 1, _assert. destruct (0 <? count_ o); simpl.
    + now rewrite (bind_Ok _ _ _ _ _ Hd).
    + reflexivity.
  - unfold bind at 1, ret. now rewrite (bind_Ok _ _ _ _ _ Hd).
Qed.

Lemma String_RefInc_spec a o w :
  mem w !! a = Some (CObj o) -> count_ o < INT_MAX ->
  String_RefInc a w = Ok tt (with_count a o (count_ o + 1) w).
Proof.
  intros Hm Hc. unfold String_RefInc.
  rewrite (bind_Ok _ _ _ _ _ (get_obj_Ok _ _ _ Hm)).
  unfold bind, int_incr. destruct (Z.ltb_spec (count_ o) INT_MAX); [reflexivity | lia].
Qed.

Lemma _PtrDec_spec a o w :
  MEMORY_SAFE bld = true ->
  mem w !! a = Some (CObj o) -> INT_MIN < count_ o ->
  _PtrDec bld a w =
    if EXTRA_SAFE bld && negb (0 <? count_ o)
    then Fatal "internal ref count failure" w
    else Ok tt (with_count a o (count_ o - 1) w).
Proof.
  intros Hs Hm Hc. unfold _PtrDec. rewrite Hs.
  rewrite (bind_Ok _ _ _ _ _ (get_obj_Ok _ _ _ Hm)).
  assert (Hd : int_decr (count_ o) w = Ok (count_ o - 1) w).
  { unfold int_decr. destruct (Z.ltb_spec INT_MIN (count_ o)); [reflexivity | lia]. }
  destruct (EXTRA_SAFE bld); simpl.
  - unfold bind at 1, _assert. destruct (0 <? count_ o); simpl.
    + now rewrite (bind_Ok _ _ _ _ _ Hd).
    + reflexivity.
  - unfold bind at 1, ret. now rewrite (bind_Ok _ _ _ _ _ Hd).
Qed.

Lemma _PtrInc_spec a o w :
  MEMORY_SAFE bld = true ->
  mem w !! a = Some (CObj o) -> count_ o < INT_MAX ->
  _PtrInc bld a w = Ok tt (with_count a o (count_ o + 1) w).
Proof.
  intros Hs Hm Hc. unfold _PtrInc. rewrite Hs.
  rewrite (bind_Ok _ _ _ _ _ (get_obj_Ok _ _ _ Hm)).
  unfold bind, int_incr. destruct (Z.ltb_spec (count_ o) INT_MAX); [reflexivity | lia].
Qed.

Lemma _PtrDec_unsafe a w : MEMORY_SAFE bld = false -> _PtrDec bld a w = Ok tt w.
Proof. intros Hs. unfold _PtrDec. now rewrite Hs. Qed.

End Counts.

(** ** Decrements and the sign of a count *)

(** C9, as stated, fails: in a build with [MEMORY_SAFE] but without
    [EXTRA_SAFE], [String::_Dec] and [_Object::_PtrDec] take a count of
    zero to minus one and no check stops them. *)
Lemma C9_unchecked_decrement : ~ counts_stay_nonnegative safe64.
Proof.
  intros H.
  set (o := {| vptr := KString; count_ := 0; sizeof_ := 24; obody := Str |}).
  set (w := set_mem (insert 4096 (CObj o)) fresh_world).
  destruct (H 4096 w o) as [Hs _].
  - reflexivity.
  - simpl. lia.
  - rewrite (String_Dec_spec safe64 4096 o w) in Hs; [| reflexivity | reflexivity].
    simpl in Hs. destruct Hs as [c [Hc Hle]].
    rewrite count_at_with_count in Hc. injection Hc as <-. simpl in Hle. lia.
Qed.

(** C9, amended: with [EXTRA_SAFE] defined, a decrement of a count that is
    not positive is a fatal check and changes nothing, and a decrement of
    a positive count takes off exactly one; so a count that is not
    negative stays so. *)
Theorem C9_checked_decrement (bld : build) :
  EXTRA_SAFE bld = true ->
  counts_stay_nonnegative bld /\
  forall a w o, mem w !! a = Some (CObj o) -> INT_MIN < count_ o ->
    (count_ o <= 0 ->
       String_Dec bld a w = Fatal "internal string ref count failure" w /\
       (MEMORY_SAFE bld = true ->
        _PtrDec bld a w = Fatal "internal ref count failure" w)) /\
    (0 < count_ o ->
       String_Dec bld a w = Ok tt (with_count a o (count_ o - 1) w) /\
       (MEMORY_SAFE bld = true ->
        _PtrDec bld a w = Ok tt (with_count a o (count_ o - 1) w))).
Proof.
  intros He.
  assert (Hexact : forall a w o, mem w !! a = Some (CObj o) -> INT_MIN < count_ o ->
    (count_ o <= 0 ->
       String_Dec bld a w = Fatal "internal string ref count failure" w /\
       (MEMORY_SAFE bld = true ->
        _PtrDec bld a w = Fatal "internal ref count failure" w)) /\
    (0 < count_ o ->
       String_Dec bld a w = Ok tt (with_count a o (count_ o - 1) w) /\
       (MEMORY_SAFE bld = true ->
        _PtrDec bld a w = Ok tt (with_count a o (count_ o - 1) w)))).
  { intros a w o Hm Hmin. split; intros Hc.
    - split; [|intros Hs].
      + rewrite (String_Dec_spec bld a o w Hm Hmin), He.
        destruct (Z.ltb_spec 0 (count_ o)); [lia | reflexivity].
      + rewrite (_PtrDec_spec bld a o w Hs Hm Hmin), He.
        destruct (Z.ltb_spec 0 (count_ o)); [lia | reflexivity].
    - split; [|intros Hs].
      + rewrite (String_Dec_spec bld a o w Hm Hmin), He.
        destruct (Z.ltb_spec 0 (count_ o)); [reflexivity | lia].
      + rewrite (_PtrDec_spec bld a o w Hs Hm Hmin), He.
        destruct (Z.ltb_spec 0 (count_ o)); [reflexivity | lia]. }
  split; [|exact Hexact].
  intros a w o Hm Hc.
  assert (Hmin : INT_MIN < count_ o) by (unfold INT_MIN; lia).
  destruct (Hexact a w o Hm Hmin) as [Hle Hpos].
  destruct (Z.le_gt_cases (count_ o) 0) as [Hz | Hp].
  - destruct (Hle Hz) as [Hs Hp]. rewrite Hs. split; [exact I|].
    destruct (MEMORY_SAFE bld) eqn:Hsafe.
    + now rewrite (Hp eq_refl).
    + rewrite (_PtrDec_unsafe bld a w Hsafe). simpl.
      exists (count_ o). unfold count_at. rewrite Hm. split; [reflexivity | lia].
  - destruct (Hpos Hp) as [Hs Hp']. rewrite Hs. split.
    + simpl. exists (count_ o - 1). rewrite count_at_with_count. split; [reflexivity | lia].
    + destruct (MEMORY_SAFE bld) eqn:Hsafe.
      * rewrite (Hp' eq_refl). simpl. exists (count_ o - 1).
        rewrite count_at_with_count. split; [reflexivity | lia].
      * rewrite (_PtrDec_unsafe bld a w Hsafe). simpl.
        exists (count_ o). unfold count_at. rewrite Hm. split; [reflexivity | lia].
Qed.

Lemma C9_checked_decrement_witness :
  counts_stay_nonnegative extra64 /\
  String_Dec extra64 4096 shared_example
  = Fatal "internal string ref count failure" shared_example /\
  _PtrDec extra64 4096 shared_example = Fatal "internal ref count failure" shared_example.
Proof.
  destruct (C9_checked_decrement extra64 eq_refl) as [Hc Hd].
  split; [exact Hc|].
  destruct (Hd 4096 shared_example
              {| vptr := KString; count_ := 0; sizeof_ := 24; obody := Str |})
    as [Hz _].
  - reflexivity.
  - unfold INT_MIN. simpl. lia.
  - destruct Hz as [Hs Hp]; [simpl; lia|]. split; [exact Hs | exact (Hp eq_refl)].
Defined.

(** ** [delete] on an object without members *)

Lemma world_eq w1 w2 :
  _exiting w1 = _exiting w2 -> brk w1 = brk w2 -> allocs w1 = allocs w2 ->
  mem w1 = mem w2 -> log w1 = log w2 -> w1 = w2.
Proof. destruct w1, w2. simpl. intros. now subst. Qed.

Lemma in_region_self a n : 0 < n -> in_region a n a = true.
Proof. intros. unfold in_region. apply andb_true_iff. split; [apply Z.leb_le | apply Z.ltb_lt]; lia. Qed.

Lemma filter_region_insert a n (c : cell) (m : gmap Z cell) :
  filter (fun kv : Z * cell => in_region a (Z.max n 1) kv.1 = false) (<[a := c]> m)
  = filter (fun kv : Z * cell => in_region a (Z.max n 1) kv.1 = false) m.
Proof.
  apply map_eq. intros i.
  destruct (decide (i = a)) as [-> | Hne].
  - transitivity (@None cell); [|symmetry]; apply map_lookup_filter_None; right;
      intros x _; simpl; rewrite in_region_self by lia; discriminate.
  - rewrite !map_lookup_filter. now rewrite lookup_insert_ne by congruence.
Qed.

Lemma filter_region_lookup a n p (m : gmap Z cell) :
  in_region a (Z.max n 1) p = false ->
  filter (fun kv : Z * cell => in_region a (Z.max n 1) kv.1 = false) m !! p = m !! p.
Proof.
  intros Hp. destruct (m !! p) as [c|] eqn:Hm.
  - apply map_lookup_filter_Some. split; [exact Hm | exact Hp].
  - apply map_lookup_filter_None. now left.
Qed.

Lemma filter_region_gone a n (m : gmap Z cell) :
  filter (fun kv : Z * cell => in_region a (Z.max n 1) kv.1 = false) m !! a = None.
Proof.
  apply map_lookup_filter_None. right. intros x _. simpl.
  rewrite in_region_self by lia. discriminate.
Qed.

Section Delete.

Variable bld : build.

Lemma dtor_derived_no_members a o w :
  mem w !! a = Some (CObj o) -> no_members o ->
  dtor_derived bld a w =
    Ok tt (set_mem (insert a (CObj (set_vptr KObject o))) (add_log (EvDtor a) w)).
Proof.
  intros Hm Hn. unfold dtor_derived.
  rewrite (bind_Ok _ _ _ _ _ (get_obj_Ok _ _ _ Hm)).
  unfold bind at 1. unfold emit.
  assert (Hmem : (match obody o with
                  | Gel ptrs => dtor_members bld a (rev ptrs)
                  | _ => ret tt
                  end) (add_log (EvDtor a) w) = Ok tt (add_log (EvDtor a) w)).
  { unfold no_members in Hn. destruct (obody o) as [[|t ptrs]| | |]; try reflexivity. contradiction. }
  rewrite (bind_Ok _ _ _ _ _ Hmem).
  assert (Hg : get_obj a (add_log (EvDtor a) w) = Ok o (add_log (EvDtor a) w)).
  { apply get_obj_Ok. exact Hm. }
  now rewrite (bind_Ok _ _ _ _ _ Hg).
Qed.

Lemma dtor__Object_spec a o w :
  mem w !! a = Some (CObj o) ->
  dtor__Object bld a w =
    if MEMORY_SAFE bld && negb (dtor_check (_exiting w) (count_ o))
    then Fatal "outstanding reference to destroyed object" w
    else Ok tt w.
Proof.
  intros Hm. unfold dtor__Object. destruct (MEMORY_SAFE bld); simpl; [|reflexivity].
  rewrite (bind_Ok _ _ _ _ _ (get_obj_Ok _ _ _ Hm)).
  unfold bind, exiting, _assert, dtor_check.
  destruct (_exiting w || (count_ o =? 0) || negb (Z.land (count_ o) PendingDestroy =? 0));
    reflexivity.
Qed.

Lemma destructor_no_members a o w :
  mem w !! a = Some (CObj o) -> no_members o ->
  destructor bld a w =
    let w1 := set_mem (insert a (CObj (set_vptr KObject o))) (add_log (EvDtor a) w) in
    if MEMORY_SAFE bld && negb (dtor_check (_exiting w) (count_ o))
    then Fatal "outstanding reference to destroyed object" w1
    else Ok tt w1.
Proof.
  intros Hm Hn. unfold destructor.
  rewrite (bind_Ok _ _ _ _ _ (dtor_derived_no_members a o w Hm Hn)).
  rewrite (dtor__Object_spec a (set_vptr KObject o)).
  - reflexivity.
  - simpl. apply lookup_insert_eq.
Qed.

Lemma delete_no_members a o n w :
  a <> 0 -> mem w !! a = Some (CObj o) -> no_members o ->
  allocs w !! a = Some n ->
  (MEMORY_SAFE bld = true -> dtor_check (_exiting w) (count_ o) = true) ->
  delete_ bld a w = Ok tt (after_delete a n w).
Proof.
  intros Ha Hm Hn Hal Hc. unfold delete_.
  destruct (Z.eqb_spec a 0) as [|_]; [contradiction|].
  unfold bind. rewrite (destructor_no_members a o w Hm Hn).
  assert (Hb : MEMORY_SAFE bld && negb (dtor_check (_exiting w) (count_ o)) = false).
  { destruct (MEMORY_SAFE bld); [|reflexivity]. now rewrite Hc. }
  rewrite Hb. unfold operator_delete. simpl. rewrite Hal. f_equal.
  apply world_eq; simpl; try reflexivity.
  - apply filter_region_insert.
  - now rewrite <- app_assoc.
Qed.

End Delete.
(** ** The count of a shared string *)

Lemma after_delete_with_count a n o c w :
  after_delete a n (with_count a o c w) = after_delete a n w.
Proof.
  apply world_eq; try reflexivity. simpl. apply filter_region_insert.
Qed.

Section Shared.

Variable bld : build.

Lemma String_RefDec_keep v o w :
  mem w !! v = Some (CObj o) -> 1 < count_ o ->
  String_RefDec bld v w = Ok tt (with_count v o (count_ o - 1) w).
Proof.
  intros Hm Hc. unfold String_RefDec.
  assert (Hd : String_Dec bld v w = Ok tt (with_count v o (count_ o - 1) w)).
  { rewrite (String_Dec_spec bld v o w Hm) by (unfold INT_MIN; lia).
    destruct (Z.ltb_spec 0 (count_ o)); [|lia]. now rewrite andb_false_r. }
  rewrite (bind_Ok _ _ _ _ _ Hd).
  unfold bind, get_obj, with_count. simpl. rewrite lookup_insert_eq. simpl.
  destruct (Z.eqb_spec (count_ o - 1) 0); [lia | reflexivity].
Qed.

Lemma String_RefDec_last v o n w :
  v <> 0 -> mem w !! v = Some (CObj o) -> count_ o = 1 -> no_members o ->
  allocs w !! v = Some n ->
  String_RefDec bld v w = Ok tt (after_delete v n w).
Proof.
  intros Hv Hm Hc Hn Hal. unfold String_RefDec.
  assert (Hd : String_Dec bld v w = Ok tt (with_count v o 0 w)).
  { rewrite (String_Dec_spec bld v o w Hm) by (unfold INT_MIN; lia).
    rewrite Hc. simpl. now rewrite andb_false_r. }
  rewrite (bind_Ok _ _ _ _ _ Hd).
  assert (Hg : get_obj v (with_count v o 0 w) = Ok (set_count 0 o) (with_count v o 0 w)).
  { apply get_obj_Ok. unfold with_count. simpl. apply lookup_insert_eq. }
  rewrite (bind_Ok _ _ _ _ _ Hg). simpl.
  rewrite (delete_no_members bld v (set_count 0 o) n (with_count v o 0 w)); try assumption.
  - now rewrite after_delete_with_count.
  - unfold with_count. simpl. apply lookup_insert_eq.
  - intros _. unfold dtor_check. simpl. now rewrite orb_true_r.
Qed.

Lemma grown_with_count v o c w : grown v w (with_count v o c w).
Proof.
  intros q oq Hq Hm. exists oq. split; [|lia].
  unfold with_count. simpl. now rewrite lookup_insert_ne by congruence.
Qed.

Lemma ref_step_keep v n o w op k :
  v <> 0 -> mem w !! v = Some (CObj o) ->
  (is_dec v op = true -> 1 < count_ o) ->
  (is_inc op = true -> count_ o < INT_MAX) ->
  (forall p, op = RefAssign p -> target_ok w v n k p) -> 1 <= k ->
  exists w1, ref_step bld v op w = Ok tt w1 /\
    mem w1 !! v = Some (CObj (set_count
      (count_ o + (if is_inc op then 1 else 0) - (if is_dec v op then 1 else 0)) o)) /\
    allocs w1 = allocs w /\ log w1 = log w /\ grown v w w1.
Proof.
  intros Hv Hm Hdec Hinc Htgt Hk. destruct op as [| |p]; simpl in *.
  - (* RefCopy *)
    exists (with_count v o (count_ o + 1) w).
    unfold Ref_Init. destruct (Z.eqb_spec v 0); [contradiction|].
    unfold bind. rewrite (String_RefInc_spec v o w Hm (Hinc eq_refl)). simpl.
    repeat split; try reflexivity.
    + unfold with_count. simpl. rewrite lookup_insert_eq. do 3 f_equal. lia.
    + apply grown_with_count.
  - (* RefDrop *)
    exists (with_count v o (count_ o - 1) w).
    unfold Ref_dtor. destruct (Z.eqb_spec v 0); [contradiction|].
    rewrite (String_RefDec_keep v o w Hm (Hdec eq_refl)).
    repeat split; try reflexivity.
    + unfold with_count. simpl. rewrite lookup_insert_eq. do 3 f_equal. lia.
    + apply grown_with_count.
  - (* RefAssign *)
    unfold Ref_assign. destruct (Z.eqb_spec p v) as [-> | Hpv]; simpl in *.
    + exists w. repeat split; try reflexivity.
      * rewrite Hm. do 2 f_equal. destruct o; unfold set_count; simpl. f_equal. lia.
      * intros q oq _ Hq. exists oq. split; [exact Hq | lia].
    + destruct (Z.eqb_spec v 0); [contradiction|].
      pose proof (String_RefDec_keep v o w Hm (Hdec eq_refl)) as Hd.
      unfold bind. rewrite Hd.
      destruct (Z.eqb_spec p 0) as [-> | Hp0]; simpl.
      * exists (with_count v o (count_ o - 1) w). repeat split; try reflexivity.
        -- unfold with_count. simpl. rewrite lookup_insert_eq. do 3 f_equal. lia.
        -- apply grown_with_count.
      * destruct (Htgt p eq_refl) as [? | [? | [_ [op [Hop Hcp]]]]]; [contradiction.. |].
        assert (Hop' : mem (with_count v o (count_ o - 1) w) !! p = Some (CObj op)).
        { unfold with_count. simpl. now rewrite lookup_insert_ne by congruence. }
        rewrite (String_RefInc_spec p op _ Hop' ltac:(lia)). simpl.
        eexists. split; [reflexivity|].
        repeat split; try reflexivity.
        -- unfold with_count. simpl. rewrite lookup_insert_ne by congruence.
           rewrite lookup_insert_eq. do 3 f_equal. lia.
        -- intros q oq Hq Hmq. unfold with_count. simpl.
           destruct (decide (q = p)) as [-> | Hqp].
           ++ rewrite lookup_insert_eq. eexists. split; [reflexivity|].
              simpl. rewrite Hop in Hmq. injection Hmq as <-. lia.
           ++ rewrite !lookup_insert_ne by congruence. exists oq. split; [exact Hmq | lia].
Qed.

Lemma ref_step_last v n o w op k :
  v <> 0 -> mem w !! v = Some (CObj o) -> no_members o ->
  allocs w !! v = Some n ->
  is_dec v op = true -> count_ o = 1 ->
  (forall p, op = RefAssign p -> target_ok w v n k p) -> 1 <= k ->
  exists w1, ref_step bld v op w = Ok tt w1 /\
    mem w1 !! v = None /\ allocs w1 !! v = None /\
    log w1 = log w ++ [EvDtor v; EvFree v].
Proof.
  intros Hv Hm Hn Hal Hdec Hc Htgt Hk.
  pose proof (String_RefDec_last v o n w Hv Hm Hc Hn Hal) as Hd.
  assert (Hgone : mem (after_delete v n w) !! v = None) by apply filter_region_gone.
  assert (Hfree : allocs (after_delete v n w) !! v = None) by apply lookup_delete_eq.
  destruct op as [| |p]; simpl in *; [discriminate | |].
  - exists (after_delete v n w). unfold Ref_dtor.
    destruct (Z.eqb_spec v 0); [contradiction|]. rewrite Hd. now repeat split.
  - unfold Ref_assign. destruct (Z.eqb_spec p v) as [-> | Hpv]; [discriminate|].
    destruct (Z.eqb_spec v 0); [contradiction|].
    unfold bind. rewrite Hd.
    destruct (Z.eqb_spec p 0) as [-> | Hp0]; simpl.
    + exists (after_delete v n w). now repeat split.
    + destruct (Htgt p eq_refl) as [? | [? | [Hreg [op [Hop Hcp]]]]]; [contradiction.. |].
      assert (Hop' : mem (after_delete v n w) !! p = Some (CObj op)).
      { simpl. rewrite filter_region_lookup by exact Hreg. exact Hop. }
      rewrite (String_RefInc_spec p op _ Hop' ltac:(lia)). simpl.
      eexists. split; [reflexivity|]. repeat split.
      * unfold with_count. simpl. rewrite lookup_insert_ne by congruence.
        apply filter_region_gone.
      * exact Hfree.
Qed.

Lemma targets_ok_step v n w w1 op rest :
  grown v w w1 -> targets_ok w v n (op :: rest) -> targets_ok w1 v n rest.
Proof.
  intros Hg Ht p Hin.
  destruct (Ht p (or_intror Hin)) as [H | [H | [Hreg [o [Hm Hc]]]]].
  - now left.
  - right. now left.
  - right. right. split; [exact Hreg|].
    assert (Hpv : p <> v).
    { intros ->. rewrite in_region_self in Hreg by lia. discriminate. }
    destruct (Hg p o Hpv Hm) as [o' [Hm' Hc']]. exists o'. split; [exact Hm'|].
    simpl length in Hc. lia.
Qed.

Lemma targets_ok_head v n w op rest p :
  targets_ok w v n (op :: rest) -> op = RefAssign p ->
  target_ok w v n (Z.of_nat (length (op :: rest))) p.
Proof. intros Ht ->. apply Ht. now left. Qed.

Lemma ref_run_spec v n ops : forall w o,
  v <> 0 -> mem w !! v = Some (CObj o) -> no_members o ->
  (reaches_zero v (count_ o) ops = true -> allocs w !! v = Some n) ->
  usable v (count_ o) ops = true ->
  targets_ok w v n ops ->
  exists w', ref_run bld v ops w = Ok tt w' /\
    let c' := count_ o + tally is_inc ops - tally (is_dec v) ops in
    if reaches_zero v (count_ o) ops
    then c' = 0 /\ mem w' !! v = None /\ allocs w' !! v = None /\
         log w' = log w ++ [EvDtor v; EvFree v]
    else mem w' !! v = Some (CObj (set_count c' o)) /\
         allocs w' = allocs w /\ log w' = log w.
Proof.
  induction ops as [|op rest IH]; intros w o Hv Hm Hn Hal Hu Ht.
  - exists w. split; [reflexivity|]. simpl. repeat split; try assumption.
    rewrite Hm. do 2 f_equal. destruct o; unfold set_count; simpl. f_equal. lia.
  - assert (Hk : 1 <= Z.of_nat (length (op :: rest))) by (simpl length; lia).
    simpl in Hu. simpl reaches_zero in *. simpl tally.
    destruct (is_dec v op) eqn:Hdec.
    + apply andb_true_iff in Hu. destruct Hu as [Hpos Hu]. apply Z.ltb_lt in Hpos.
      assert (Hinc : is_inc op = false) by (destruct op; [discriminate | reflexivity..]).
      rewrite Hinc.
      destruct (Z.eqb_spec (count_ o) 1) as [Hone | Hmore].
      * destruct rest as [|? ?]; [|discriminate].
        destruct (ref_step_last v n o w op _ Hv Hm Hn (Hal eq_refl) Hdec Hone
                    (fun p => targets_ok_head v n w op [] p Ht) Hk) as [w1 [Hs [Hg [Hf Hl]]]].
        exists w1. split.
        { simpl. unfold bind. now rewrite Hs. }
        simpl. repeat split; try assumption. lia.
      * destruct (ref_step_keep v n o w op _ Hv Hm ltac:(intros; lia)
                    ltac:(intros H; rewrite Hinc in H; discriminate)
                    (fun p => targets_ok_head v n w op rest p Ht) Hk)
          as [w1 [Hs [Hm1 [Hal1 [Hl1 Hg1]]]]].
        rewrite Hinc, Hdec in Hm1.
        replace (count_ o + 0 - 1) with (count_ o - 1) in Hm1 by lia.
        destruct (IH w1 _ Hv Hm1 Hn ltac:(simpl; rewrite Hal1; intros Hz; apply Hal; rewrite Hz; apply orb_true_r) Hu
                    (targets_ok_step v n w w1 op rest Hg1 Ht)) as [w' [Hr Hres]].
        exists w'. split.
        { simpl. unfold bind. now rewrite Hs. }
        simpl orb. simpl in Hres.
        destruct (reaches_zero v (count_ o - 1) rest).
        -- destruct Hres as [Hz [? [? Hl]]]. repeat split; try assumption; [lia|].
           now rewrite Hl, Hl1.
        -- destruct Hres as [Hm' [Ha' Hl]]. repeat split.
           ++ rewrite Hm'. do 2 f_equal. unfold set_count. simpl. f_equal. lia.
           ++ now rewrite Ha', Hal1.
           ++ now rewrite Hl, Hl1.
    + assert (Hstep : exists c1, usable v c1 rest = true /\
                 c1 = count_ o + (if is_inc op then 1 else 0) /\
                 (is_inc op = true -> count_ o < INT_MAX) /\
                 reaches_zero v c1 rest =
                   (if is_inc op then reaches_zero v (count_ o + 1) rest
                    else reaches_zero v (count_ o) rest)).
      { destruct (is_inc op).
        - apply andb_true_iff in Hu. destruct Hu as [Hlt Hu]. apply Z.ltb_lt in Hlt.
          exists (count_ o + 1). now repeat split.
        - exists (count_ o). repeat split; [exact Hu | lia | discriminate]. }
      destruct Hstep as [c1 [Hu1 [Hc1 [Hlt Hrz]]]].
      destruct (ref_step_keep v n o w op _ Hv Hm
                  ltac:(intros H; rewrite Hdec in H; discriminate) Hlt
                  (fun p => targets_ok_head v n w op rest p Ht) Hk)
        as [w1 [Hs [Hm1 [Hal1 [Hl1 Hg1]]]]].
      rewrite Hdec in Hm1. rewrite Z.sub_0_r, <- Hc1 in Hm1.
      destruct (IH w1 _ Hv Hm1 Hn ltac:(simpl; rewrite Hal1, Hrz; exact Hal) Hu1
                  (targets_ok_step v n w w1 op rest Hg1 Ht)) as [w' [Hr Hres]].
      exists w'. split.
      { simpl. unfold bind. now rewrite Hs. }
      simpl in Hres. rewrite Hrz in Hres.
      destruct (is_inc op); [destruct (reaches_zero v (count_ o + 1) rest)
                            | destruct (reaches_zero v (count_ o) rest)].
      all: try (destruct Hres as [Hz [? [? Hl]]]; repeat split; try assumption;
                [lia | now rewrite Hl, Hl1]).
      all: destruct Hres as [Hm' [Ha' Hl]]; repeat split;
           [ rewrite Hm'; do 2 f_equal; unfold set_count; simpl; f_equal; lia
           | now rewrite Ha', Hal1
           | now rewrite Hl, Hl1 ].
Qed.

End Shared.
Lemma is_dec_not_inc v op : is_dec v op = true -> is_inc op = false.
Proof. destruct op; [discriminate | reflexivity..]. Qed.

(** Within a usable sequence, the string is destroyed exactly when the
    last operation is a decrement that finds the count at one. *)
Lemma reaches_zero_last v ops : forall c,
  usable v c ops = true ->
  (reaches_zero v c ops = true <->
   exists ops' op, ops = ops' ++ [op] /\ is_dec v op = true /\
     c + tally is_inc ops' - tally (is_dec v) ops' = 1).
Proof.
  induction ops as [|op rest IH]; intros c Hu.
  - split; [discriminate|]. intros [ops' [op [H _]]]. destruct ops'; discriminate.
  - simpl in Hu. simpl reaches_zero.
    assert (Hcons : forall c1 d,
      usable v c1 rest = true ->
      d = (if is_inc op then 1 else 0) - (if is_dec v op then 1 else 0) ->
      c1 = c + d -> c <> 1 \/ is_dec v op = false ->
      (reaches_zero v c1 rest = true <->
       exists ops' op0, op :: rest = ops' ++ [op0] /\ is_dec v op0 = true /\
         c + tally is_inc ops' - tally (is_dec v) ops' = 1)).
    { intros c1 d Hu1 Hd Hc1 Hne. rewrite (IH c1 Hu1). split.
      - intros [ops' [op0 [-> [Hdec0 Hsum]]]].
        exists (op :: ops'), op0. repeat split; [assumption|]. simpl tally. lia.
      - intros [ops' [op0 [Heq [Hdec0 Hsum]]]]. destruct ops' as [|op1 ops'].
        + simpl in Heq. injection Heq as -> <-. simpl in Hsum.
          destruct Hne as [Hne | Hne]; [lia | congruence].
        + simpl in Heq. injection Heq as <- ->. exists ops', op0.
          repeat split; [assumption|]. simpl tally in Hsum. lia. }
    destruct (is_dec v op) eqn:Hdec.
    + pose proof (is_dec_not_inc v op Hdec) as Hinc. rewrite Hinc in Hcons.
      apply andb_true_iff in Hu. destruct Hu as [Hpos Hu].
      destruct (Z.eqb_spec c 1) as [-> | Hne].
      * destruct rest; [|discriminate]. split; [|reflexivity]. intros _.
        exists [], op. repeat split; assumption.
      * simpl orb. apply (Hcons (c - 1) (-1) Hu); [reflexivity | lia | now left].
    + destruct (is_inc op) eqn:Hinc.
      * apply andb_true_iff in Hu. destruct Hu as [_ Hu].
        apply (Hcons (c + 1) 1 Hu); [reflexivity | lia | now right].
      * replace c with (c + 0) in Hu at 1 by lia. replace c with (c + 0) at 1 by lia.
        apply (Hcons (c + 0) 0 Hu); [reflexivity | lia | now right].
Qed.

(** C6: started with count [count_ o] on a string [v], a sequence of
    handle constructions and handle destructions or reassignments, each
    applied to the live string, leaves the count at
    [initial + N - M]; the string is destroyed by the very decrement that
    finds the count at one, within that call, once, and by nothing else. *)
Theorem C6_shared_count_algebra (bld : build) (v n : Z) (o : object)
    (w : world) (ops : list ref_op) :
  v <> 0 ->
  mem w !! v = Some (CObj o) -> vptr o = KString -> obody o = Str ->
  allocs w !! v = Some n ->
  usable v (count_ o) ops = true ->
  targets_ok w v n ops ->
  let N := tally is_inc ops in
  let M := tally (is_dec v) ops in
  (reaches_zero v (count_ o) ops = true <->
   exists ops' op, ops = ops' ++ [op] /\ is_dec v op = true /\
     count_ o + tally is_inc ops' - tally (is_dec v) ops' = 1) /\
  exists w', ref_run bld v ops w = Ok tt w' /\
    if reaches_zero v (count_ o) ops
    then count_ o + N - M = 0 /\
         mem w' !! v = None /\ allocs w' !! v = None /\
         log w' = log w ++ [EvDtor v; EvFree v]
    else count_at v w' = Some (count_ o + N - M) /\
         allocs w' !! v = Some n /\ log w' = log w.
Proof.
  intros Hv Hm _ Hb Hal Hu Ht N M.
  split; [exact (reaches_zero_last v ops (count_ o) Hu)|].
  assert (Hn : no_members o) by (unfold no_members; now rewrite Hb).
  destruct (ref_run_spec bld v n ops w o Hv Hm Hn (fun _ => Hal) Hu Ht) as [w' [Hr Hres]].
  exists w'. split; [exact Hr|]. simpl in Hres. fold N M in Hres.
  destruct (reaches_zero v (count_ o) ops); [exact Hres|].
  destruct Hres as [Hm' [Ha' Hl]]. repeat split.
  - unfold count_at. now rewrite Hm'.
  - now rewrite Ha'.
  - exact Hl.
Qed.

Lemma C6_shared_count_algebra_witness :
  exists w', ref_run safe64 4096 [RefCopy; RefCopy; RefDrop; RefAssign 0] shared_example
             = Ok tt w' /\
    mem w' !! 4096 = None /\ log w' = [EvDtor 4096; EvFree 4096].
Proof.
  destruct (C6_shared_count_algebra safe64 4096 24
              {| vptr := KString; count_ := 0; sizeof_ := 24; obody := Str |}
              shared_example [RefCopy; RefCopy; RefDrop; RefAssign 0])
    as [_ [w' [Hr Hres]]].
  - lia.
  - reflexivity.
  - reflexivity.
  - reflexivity.
  - reflexivity.
  - reflexivity.
  - intros p Hin. left. simpl in Hin.
    destruct Hin as [H | [H | [H | [H | []]]]]; try discriminate. now injection H.
  - exists w'. split; [exact Hr|]. simpl in Hres.
    destruct Hres as [_ [Hg [_ Hl]]]. split; [exact Hg | exact Hl].
Defined.

(** ** Global strings *)




(** ** Owning pointers *)

Section Owning.

Variable bld : build.

Lemma Own_assign_same p w : Own_assign bld p p w = Ok (p, p) w.
Proof. unfold Own_assign. now rewrite Z.eqb_refl. Qed.

Lemma Own_assign_other p_ p w :
  p <> p_ -> Own_assign bld p_ p w = bind (delete_ bld p_) (fun _ => ret (p, p)) w.
Proof. intros H. unfold Own_assign. destruct (Z.eqb_spec p p_); [contradiction | reflexivity]. Qed.

Lemma delete_null w : delete_ bld 0 w = Ok tt w.
Proof. reflexivity. Qed.

Lemma after_delete_gone a n w :
  mem (after_delete a n w) !! a = None /\
  allocs (after_delete a n w) !! a = None /\
  log (after_delete a n w) = log w ++ [EvDtor a; EvFree a].
Proof.
  repeat split; simpl.
  - apply filter_region_gone.
  - apply lookup_delete_eq.
Qed.

End Owning.

(** C7: assignment to an [_Own] does nothing when the handle is the one
    already held; otherwise it destroys the held value, if there is one,
    and only then stores the new handle; the destructor destroys the held
    value whenever the handle is not null.  A value that is destroyed
    leaves the store, and its destructor and the release of its storage
    each run once. *)
Theorem C7_own_assign_and_destroy (bld : build) (p_ p : Z) (w : world) :
  (p = p_ -> Own_assign bld p_ p w = Ok (p, p_) w) /\
  (p <> p_ -> p_ = 0 -> Own_assign bld p_ p w = Ok (p, p) w) /\
  (p <> p_ ->
     (forall w', delete_ bld p_ w = Ok tt w' -> Own_assign bld p_ p w = Ok (p, p) w') /\
     (forall msg w', delete_ bld p_ w = Fatal msg w' ->
        Own_assign bld p_ p w = Fatal msg w')) /\
  Own_dtor bld p_ w = delete_ bld p_ w /\
  Own_dtor bld 0 w = Ok tt w /\
  (p_ <> 0 ->
   forall o n,
     mem w !! p_ = Some (CObj o) -> no_members o -> allocs w !! p_ = Some n ->
     (MEMORY_SAFE bld = true -> dtor_check (_exiting w) (count_ o) = true) ->
     Own_dtor bld p_ w = Ok tt (after_delete p_ n w) /\
     (p <> p_ -> Own_assign bld p_ p w = Ok (p, p) (after_delete p_ n w)) /\
     mem (after_delete p_ n w) !! p_ = None /\
     log (after_delete p_ n w) = log w ++ [EvDtor p_; EvFree p_]).
Proof.
  split; [intros ->; apply Own_assign_same|].
  split; [intros Hne ->; rewrite (Own_assign_other bld 0 p w Hne); reflexivity|].
  split.
  { intros Hne. split.
    - intros w' Hd. rewrite (Own_assign_other bld p_ p w Hne). unfold bind. now rewrite Hd.
    - intros msg w' Hd. rewrite (Own_assign_other bld p_ p w Hne). unfold bind. now rewrite Hd. }
  split; [reflexivity|]. split; [reflexivity|].
  intros Hp o n Hm Hn Hal Hc.
  pose proof (delete_no_members bld p_ o n w Hp Hm Hn Hal Hc) as Hd.
  split; [exact Hd|]. split.
  - intros Hne. rewrite (Own_assign_other bld p_ p w Hne). unfold bind. now rewrite Hd.
  - destruct (after_delete_gone p_ n w) as [? [_ ?]]. now split.
Qed.

Lemma C7_own_assign_and_destroy_witness :
  Own_assign safe64 4096 0 lone_object = Ok (0, 0) (after_delete 4096 24 lone_object) /\
  Own_dtor safe64 4096 lone_object = Ok tt (after_delete 4096 24 lone_object).
Proof.
  destruct (C7_own_assign_and_destroy safe64 4096 0 lone_object)
    as [_ [_ [_ [_ [_ H]]]]].
  destruct (H ltac:(lia) {| vptr := KGel; count_ := 0; sizeof_ := 24; obody := Gel [] |} 24)
    as [Hd [Ha _]].
  - reflexivity.
  - exact I.
  - reflexivity.
  - reflexivity.
  - split; [apply Ha; lia | exact Hd].
Defined.
(** ** Moving a value out of a pointer *)

Section Taking.

Variable bld : build.

Lemma OwnRef_dtor_null w : OwnRef_dtor bld 0 w = Ok tt w.
Proof. reflexivity. Qed.

Lemma mem_with_count a o c w : mem (with_count a o c w) !! a = Some (CObj (set_count c o)).
Proof. unfold with_count. simpl. apply lookup_insert_eq. Qed.

Lemma take_plain v o n w :
  v <> 0 -> mem w !! v = Some (CObj o) -> no_members o -> allocs w !! v = Some n ->
  vptr o <> KString ->
  (MEMORY_SAFE bld = true -> dtor_check (_exiting w) (count_ o) = true) ->
  take_then_destroy bld v w.
Proof.
  intros Hv Hm Hn Hal Hk Hc.
  assert (Hsub : _OwnSub bld v w = Ok tt w).
  { unfold _OwnSub. rewrite (bind_Ok _ _ _ _ _ (get_obj_Ok _ _ _ Hm)).
    destruct (vptr o); try reflexivity. contradiction. }
  assert (Hinc : _OwnRefInc v w = Ok tt w).
  { unfold _OwnRefInc. rewrite (bind_Ok _ _ _ _ _ (get_obj_Ok _ _ _ Hm)).
    destruct (vptr o); try reflexivity. contradiction. }
  assert (Hdec : _OwnRefDec bld v w = Ok tt (after_delete v n w)).
  { unfold _OwnRefDec. rewrite (bind_Ok _ _ _ _ _ (get_obj_Ok _ _ _ Hm)).
    pose proof (delete_no_members bld v o n w Hv Hm Hn Hal Hc) as Hd.
    destruct (vptr o); try exact Hd. contradiction. }
  exists w, w, (after_delete v n w).
  unfold OwnRef_Take, OwnRef_ctor, OwnRef_dtor.
  destruct (Z.eqb_spec v 0); [contradiction|].
  unfold bind. rewrite Hsub, Hinc, Hdec.
  destruct (after_delete_gone v n w) as [? [_ ?]]. now repeat split.
Qed.

Lemma take_string v o w :
  v <> 0 -> mem w !! v = Some (CObj o) -> vptr o = KString -> 0 < count_ o ->
  OwnRef_Take bld v w = Ok (v, 0) (with_count v o (count_ o - 1) w).
Proof.
  intros Hv Hm Hk Hc. unfold OwnRef_Take, _OwnSub.
  destruct (Z.eqb_spec v 0); [contradiction|].
  unfold bind at 1. unfold bind at 1.
  rewrite (get_obj_Ok _ _ _ Hm), Hk.
  rewrite (String_Dec_spec bld v o w Hm) by (unfold INT_MIN; lia).
  destruct (Z.ltb_spec 0 (count_ o)); [|lia]. now rewrite andb_false_r.
Qed.

Lemma rewrap_string v o w :
  v <> 0 -> mem w !! v = Some (CObj o) -> vptr o = KString -> count_ o < INT_MAX ->
  OwnRef_ctor v w = Ok v (with_count v o (count_ o + 1) w).
Proof.
  intros Hv Hm Hk Hc. unfold OwnRef_ctor, _OwnRefInc.
  destruct (Z.eqb_spec v 0); [contradiction|].
  unfold bind at 1. unfold bind at 1.
  rewrite (get_obj_Ok _ _ _ Hm), Hk.
  now rewrite (String_RefInc_spec v o w Hm Hc).
Qed.

Lemma OwnRef_dtor_string v o w :
  v <> 0 -> mem w !! v = Some (CObj o) -> vptr o = KString ->
  OwnRef_dtor bld v w = String_RefDec bld v w.
Proof.
  intros Hv Hm Hk. unfold OwnRef_dtor, _OwnRefDec.
  destruct (Z.eqb_spec v 0); [contradiction|].
  unfold bind at 1. now rewrite (get_obj_Ok _ _ _ Hm), Hk.
Qed.

Lemma with_count_twice a o c1 c2 w :
  with_count a (set_count c1 o) c2 (with_count a o c1 w) = with_count a o c2 w.
Proof.
  apply world_eq; try reflexivity. simpl. unfold set_count. simpl.
  apply insert_insert_eq.
Qed.

Lemma take_sole_string v o n w :
  v <> 0 -> mem w !! v = Some (CObj o) -> no_members o -> allocs w !! v = Some n ->
  vptr o = KString -> count_ o = 1 ->
  take_then_destroy bld v w.
Proof.
  intros Hv Hm Hn Hal Hk Hc.
  set (w1 := with_count v o (count_ o - 1) w).
  set (o1 := set_count (count_ o - 1) o).
  set (w2 := with_count v o1 (count_ o1 + 1) w1).
  exists w1, w2, (after_delete v n w2).
  split; [apply take_string; try assumption; lia|].
  split; [reflexivity|]. split; [reflexivity|].
  split.
  { apply rewrap_string; try assumption.
    - apply mem_with_count.
    - simpl. unfold INT_MAX. lia. }
  split.
  { rewrite (OwnRef_dtor_string v (set_count (count_ o1 + 1) o1) w2 Hv); try assumption.
    - apply (String_RefDec_last bld v (set_count (count_ o1 + 1) o1)); try assumption.
      + apply mem_with_count.
      + simpl. lia.
    - apply mem_with_count. }
  destruct (after_delete_gone v n w2) as [? [_ ?]]. now split.
Qed.

Lemma take_shared_string v o w :
  v <> 0 -> mem w !! v = Some (CObj o) ->
  vptr o = KString -> 1 < count_ o -> count_ o <= INT_MAX ->
  take_then_release bld v o w.
Proof.
  intros Hv Hm Hk Hc Hmax.
  set (w1 := with_count v o (count_ o - 1) w).
  set (o1 := set_count (count_ o - 1) o).
  set (w2 := with_count v o1 (count_ o1 + 1) w1).
  set (o2 := set_count (count_ o1 + 1) o1).
  exists w1, w2, (with_count v o2 (count_ o2 - 1) w2).
  split; [apply take_string; try assumption; lia|].
  split; [reflexivity|].
  split; [apply count_at_with_count|].
  split; [reflexivity|].
  split.
  { apply rewrap_string; try assumption.
    - apply mem_with_count.
    - simpl. lia. }
  split.
  { unfold w2. rewrite count_at_with_count. simpl. f_equal. lia. }
  split.
  { rewrite (OwnRef_dtor_string v o2 w2 Hv); try assumption.
    - apply String_RefDec_keep.
      + apply mem_with_count.
      + simpl. lia.
    - apply mem_with_count. }
  split; [|reflexivity].
  rewrite mem_with_count. do 2 f_equal. unfold set_count. simpl. f_equal. lia.
Qed.

End Taking.

(** C8, as stated, fails for an [_OwnRef] that holds a string which
    another handle shares: after [Take], the new owner's destruction only
    takes one off the count, and the string is not destroyed. *)
Lemma C8_shared_string_survives : ~ take_then_destroy safe64 4096 shared_twice.
Proof.
  intros [w1 [w2 [w3 [Ht [_ [_ [Hc [Hd [Hgone _]]]]]]]]].
  set (o := {| vptr := KString; count_ := 2; sizeof_ := 24; obody := Str |}).
  set (u1 := with_count 4096 o 1 shared_twice).
  set (u2 := with_count 4096 (set_count 1 o) 2 u1).
  set (u3 := with_count 4096 (set_count 2 (set_count 1 o)) 1 u2).
  assert (Ht' : OwnRef_Take safe64 4096 shared_twice = Ok (4096, 0) u1).
  { apply (take_string safe64 4096 o); [lia | reflexivity | reflexivity | simpl; lia]. }
  rewrite Ht' in Ht. injection Ht as <-.
  assert (Hc' : OwnRef_ctor 4096 u1 = Ok 4096 u2).
  { apply (rewrap_string 4096 (set_count 1 o) u1);
      [lia | apply mem_with_count | reflexivity | simpl; unfold INT_MAX; lia]. }
  rewrite Hc' in Hc. injection Hc as <-.
  assert (Hd' : OwnRef_dtor safe64 4096 u2 = Ok tt u3).
  { rewrite (OwnRef_dtor_string safe64 4096 (set_count 2 (set_count 1 o)) u2);
      [| lia | apply mem_with_count | reflexivity].
    apply (String_RefDec_keep safe64 4096 (set_count 2 (set_count 1 o)) u2);
      [apply mem_with_count | simpl; lia]. }
  rewrite Hd' in Hd. injection Hd as <-.
  unfold u3 in Hgone. rewrite mem_with_count in Hgone. discriminate.
Qed.

(** C8, amended: [Take] on an [_Own] or an [_OwnRef] returns the held
    handle and leaves null behind without destroying the value, and
    destroying the emptied pointer does nothing.  The new owner's
    destruction destroys the value, once, when the pointer is an [_Own],
    or an [_OwnRef] whose value is not a string or is a string with no
    other handle; a string that other handles share only has one taken
    off its count. *)
Theorem C8_take_moves_ownership (bld : build) (v n : Z) (o : object) (w : world) :
  v <> 0 -> mem w !! v = Some (CObj o) -> no_members o ->
  allocs w !! v = Some n ->
  (Own_Take v w = Ok (v, 0) w /\ Own_dtor bld 0 w = Ok tt w /\
   ((MEMORY_SAFE bld = true -> dtor_check (_exiting w) (count_ o) = true) ->
    Own_dtor bld v w = Ok tt (after_delete v n w) /\
    mem (after_delete v n w) !! v = None /\
    log (after_delete v n w) = log w ++ [EvDtor v; EvFree v])) /\
  (vptr o <> KString ->
   (MEMORY_SAFE bld = true -> dtor_check (_exiting w) (count_ o) = true) ->
   take_then_destroy bld v w) /\
  (vptr o = KString -> count_ o = 1 -> take_then_destroy bld v w) /\
  (vptr o = KString -> 1 < count_ o -> count_ o <= INT_MAX ->
   take_then_release bld v o w).
Proof.
  intros Hv Hm Hn Hal. split; [|split; [|split]].
  - split; [reflexivity|]. split; [reflexivity|]. intros Hc.
    split; [exact (delete_no_members bld v o n w Hv Hm Hn Hal Hc)|].
    destruct (after_delete_gone v n w) as [? [_ ?]]. now split.
  - intros Hk Hc. now apply (take_plain bld v o n w).
  - intros Hk Hc. now apply (take_sole_string bld v o n w).
  - intros Hk Hc Hmax. now apply (take_shared_string bld v o w).
Qed.

Lemma C8_take_moves_ownership_witness :
  take_then_destroy safe64 4096 lone_object /\
  take_then_release safe64 4096
    {| vptr := KString; count_ := 2; sizeof_ := 24; obody := Str |} shared_twice.
Proof.
  split.
  - destruct (C8_take_moves_ownership safe64 4096 24
                {| vptr := KGel; count_ := 0; sizeof_ := 24; obody := Gel [] |} lone_object)
      as [_ [H _]]; [lia | reflexivity | exact I | reflexivity |].
    apply H; [discriminate | reflexivity].
  - destruct (C8_take_moves_ownership safe64 4096 24
                {| vptr := KString; count_ := 2; sizeof_ := 24; obody := Str |} shared_twice)
      as [_ [_ [_ H]]]; [lia | reflexivity | exact I | reflexivity |].
    apply H; [reflexivity | simpl; lia | simpl; unfold INT_MAX; lia].
Defined.
(** ** What a release of members leaves untouched *)

Lemma mem_only_refl w : mem_only w w.
Proof. now repeat split. Qed.

Lemma mem_only_trans w1 w2 w3 : mem_only w1 w2 -> mem_only w2 w3 -> mem_only w1 w3.
Proof. intros (?&?&?&?) (?&?&?&?). repeat split; congruence. Qed.

Lemma mem_only_set_mem f w : mem_only w (set_mem f w).
Proof. now repeat split. Qed.

Section Frames.

Variable bld : build.

Lemma _PtrDec_inv t w w1 :
  _PtrDec bld t w = Ok tt w1 ->
  (MEMORY_SAFE bld = false /\ w1 = w) \/
  (MEMORY_SAFE bld = true /\ exists ot, mem w !! t = Some (CObj ot) /\
     (EXTRA_SAFE bld = true -> 0 < count_ ot) /\
     w1 = with_count t ot (count_ ot - 1) w).
Proof.
  unfold _PtrDec. destruct (MEMORY_SAFE bld); [|intros [= <-]; now left].
  intros H. right. split; [reflexivity|].
  unfold bind, get_obj in H. destruct (mem w !! t) as [[ot|]|] eqn:Hm; try discriminate.
  exists ot. split; [reflexivity|].
  destruct (EXTRA_SAFE bld).
  - unfold _assert in H. destruct (Z.ltb_spec 0 (count_ ot)); [|discriminate].
    unfold int_decr in H. destruct (INT_MIN <? count_ ot); [|discriminate].
    simpl in H. injection H as <-. now split.
  - simpl in H. unfold int_decr in H. destruct (INT_MIN <? count_ ot); [|discriminate].
    simpl in H. injection H as <-. split; [discriminate | reflexivity].
Qed.

Lemma Ptr_dtor_inv t w w1 :
  Ptr_dtor bld t w = Ok tt w1 ->
  w1 = w \/
  (MEMORY_SAFE bld = true /\ _exiting w = false /\ t <> 0 /\
   exists ot, mem w !! t = Some (CObj ot) /\
     (EXTRA_SAFE bld = true -> 0 < count_ ot) /\
     w1 = with_count t ot (count_ ot - 1) w).
Proof.
  unfold Ptr_dtor, bind, exiting. destruct (_exiting w) eqn:He; simpl.
  - intros [= <-]. now left.
  - destruct (Z.eqb_spec t 0); simpl.
    + intros [= <-]. now left.
    + intros H. destruct (_PtrDec_inv t w w1 H) as [[_ ->] | [Hs Hex]]; [now left|].
      right. now repeat split.
Qed.

Lemma Ptr_dtor_mem_only t w w1 : Ptr_dtor bld t w = Ok tt w1 -> mem_only w w1.
Proof.
  intros H. destruct (Ptr_dtor_inv t w w1 H) as [-> | (_&_&_&ot&_&_&->)].
  - apply mem_only_refl.
  - apply mem_only_set_mem.
Qed.

Lemma dtor_members_mem_only a l : forall w w1,
  dtor_members bld a l w = Ok tt w1 -> mem_only w w1.
Proof.
  induction l as [|t rest IH]; intros w w1 H; simpl in H.
  - injection H as <-. apply mem_only_refl.
  - unfold bind at 1 in H. destruct (Ptr_dtor bld t w) as [[] w2| | |] eqn:Hp; try discriminate.
    unfold bind at 1 in H. unfold get_obj in H.
    destruct (mem w2 !! a) as [[o|]|]; try discriminate.
    unfold bind at 1 in H. unfold put_obj in H.
    apply (mem_only_trans _ w2); [exact (Ptr_dtor_mem_only t w w2 Hp)|].
    eapply mem_only_trans; [apply mem_only_set_mem | exact (IH _ _ H)].
Qed.

Lemma dtor_derived_frame a w w1 :
  dtor_derived bld a w = Ok tt w1 ->
  _exiting w1 = _exiting w /\ brk w1 = brk w /\ allocs w1 = allocs w /\
  log w1 = log w ++ [EvDtor a] /\
  exists o1, mem w1 !! a = Some (CObj o1) /\ vptr o1 = KObject.
Proof.
  unfold dtor_derived. intros H.
  unfold bind at 1 in H. unfold get_obj in H.
  destruct (mem w !! a) as [[o|]|]; try discriminate.
  unfold bind at 1 in H. unfold emit in H.
  unfold bind at 1 in H.
  destruct ((match obody o with
             | Gel ptrs => dtor_members bld a (rev ptrs)
             | _ => ret tt
             end) (add_log (EvDtor a) w)) as [[] w2| | |] eqn:Hmem; try discriminate.
  assert (Hf : mem_only (add_log (EvDtor a) w) w2).
  { destruct (obody o); try (injection Hmem as <-; apply mem_only_refl).
    exact (dtor_members_mem_only _ _ _ _ Hmem). }
  unfold bind, get_obj in H. destruct (mem w2 !! a) as [[o2|]|]; try discriminate.
  unfold put_obj in H. injection H as <-.
  destruct Hf as (He & Hb & Ha & Hl). simpl in *.
  repeat split; try assumption.
  exists (set_vptr KObject o2). split; [apply lookup_insert_eq | reflexivity].
Qed.

End Frames.

(** ** Destroying a value that is still referred to *)

(** C5: in a safe build that is not exiting, once the value's own members
    are gone, a count that is neither zero nor marked with a bit of
    [PendingDestroy] is a fatal error, "outstanding reference to destroyed
    object": [delete], the destructor of an [_Own] and an assignment to an
    [_Own] all end there, with the storage still allocated and the new
    handle not stored.  In particular that is what happens to a value
    nothing referred to, once a [_Ptr] has been initialised from it. *)
Theorem C5_outstanding_reference_is_fatal (bld : build) (v : Z) (w : world) :
  MEMORY_SAFE bld = true -> _exiting w = false -> v <> 0 ->
  (forall w1 o1,
     dtor_derived bld v w = Ok tt w1 ->
     mem w1 !! v = Some (CObj o1) ->
     count_ o1 <> 0 -> Z.land (count_ o1) PendingDestroy = 0 ->
     delete_ bld v w = Fatal "outstanding reference to destroyed object" w1 /\
     Own_dtor bld v w = Fatal "outstanding reference to destroyed object" w1 /\
     (forall p, p <> v ->
        Own_assign bld v p w = Fatal "outstanding reference to destroyed object" w1) /\
     allocs w1 = allocs w /\ log w1 = log w ++ [EvDtor v]) /\
  (forall o,
     mem w !! v = Some (CObj o) -> no_members o ->
     exists w1,
       dtor_derived bld v w = Ok tt w1 /\
       mem w1 !! v = Some (CObj (set_vptr KObject o))) /\
  (forall o,
     mem w !! v = Some (CObj o) -> no_members o -> count_ o = 0 ->
     exists w0 w1,
       Ptr_Init bld v w = Ok v w0 /\
       Own_dtor bld v w0 = Fatal "outstanding reference to destroyed object" w1 /\
       allocs w1 = allocs w /\ log w1 = log w ++ [EvDtor v]).
Proof.
  intros Hs He Hv.
  assert (Hgen : forall u u1 o1,
    _exiting u = false ->
    dtor_derived bld v u = Ok tt u1 ->
    mem u1 !! v = Some (CObj o1) ->
    count_ o1 <> 0 -> Z.land (count_ o1) PendingDestroy = 0 ->
    delete_ bld v u = Fatal "outstanding reference to destroyed object" u1 /\
    allocs u1 = allocs u /\ log u1 = log u ++ [EvDtor v]).
  { intros u u1 o1 Heu Hd Hm Hc Hl.
    destruct (dtor_derived_frame bld v u u1 Hd) as (He1 & _ & Ha & Hlog & _).
    split; [|now split].
    unfold delete_. destruct (Z.eqb_spec v 0); [contradiction|].
    unfold bind at 1. unfold destructor. rewrite (bind_Ok _ _ _ _ _ Hd).
    rewrite (dtor__Object_spec bld v o1 u1 Hm), Hs, He1, Heu.
    unfold dtor_check. simpl.
    destruct (Z.eqb_spec (count_ o1) 0); [contradiction|].
    rewrite Hl. reflexivity. }
  split; [|split].
  - intros w1 o1 Hd Hm Hc Hl.
    destruct (Hgen w w1 o1 He Hd Hm Hc Hl) as (Hdel & Ha & Hlog).
    repeat split; try assumption.
    intros p Hp. rewrite (Own_assign_other bld v p w Hp). unfold bind. now rewrite Hdel.
  - intros o Hm Hn. eexists. split.
    + apply (dtor_derived_no_members bld v o w Hm Hn).
    + simpl. apply lookup_insert_eq.
  - intros o Hm Hn Hc.
    set (w0 := with_count v o (count_ o + 1) w).
    assert (Hi : Ptr_Init bld v w = Ok v w0).
    { unfold Ptr_Init. destruct (Z.eqb_spec v 0); [contradiction|].
      unfold bind. rewrite (_PtrInc_spec bld v o w Hs Hm); [reflexivity|].
      rewrite Hc. unfold INT_MAX. lia. }
    assert (Hd : dtor_derived bld v w0
                 = Ok tt (set_mem (insert v (CObj (set_vptr KObject (set_count (count_ o + 1) o))))
                            (add_log (EvDtor v) w0))).
    { apply dtor_derived_no_members; [apply mem_with_count | exact Hn]. }
    destruct (Hgen w0 _ (set_vptr KObject (set_count (count_ o + 1) o)) He Hd)
      as (Hdel & Ha & Hlog).
    + simpl. apply lookup_insert_eq.
    + simpl. lia.
    + simpl. rewrite Hc. reflexivity.
    + exists w0. eexists. split; [exact Hi|]. split; [exact Hdel|]. now split.
Qed.

Lemma C5_outstanding_reference_is_fatal_witness :
  exists w0 w1,
    Ptr_Init safe64 4096 lone_object = Ok 4096 w0 /\
    Own_dtor safe64 4096 w0 = Fatal "outstanding reference to destroyed object" w1 /\
    allocs w1 = allocs lone_object.
Proof.
  destruct (C5_outstanding_reference_is_fatal safe64 4096 lone_object)
    as [_ [_ H]]; [reflexivity | reflexivity | lia |].
  destruct (H {| vptr := KGel; count_ := 0; sizeof_ := 24; obody := Gel [] |})
    as [w0 [w1 [Hi [Hd [Ha _]]]]]; [reflexivity | exact I | reflexivity |].
  exists w0, w1. now repeat split.
Defined.
(** ** [Pool::Alloc] *)

Section Allocation.

Variable bld : build.
Hypothesis Htarget : pool_target bld.

Lemma size_t_small z : 0 <= z <= BlockSize -> size_t bld z = z.
Proof.
  intros Hz. unfold size_t. apply Z.mod_small. split; [lia|].
  destruct Htarget as [Hlo _].
  assert (2 ^ 16 <= 2 ^ (8 * sizeof_ptr bld)) by (apply Z.pow_le_mono_r; lia).
  unfold BlockSize in Hz. lia.
Qed.

Lemma free_size_t b : block_ok bld b -> size_t bld (first_ b - data_ bld b) = free_bytes bld b.
Proof.
  intros [H1 H2]. apply size_t_small. unfold free_bytes, data_ in *.
  destruct Htarget. lia.
Qed.

Lemma free_bounds b : block_ok bld b -> 0 <= free_bytes bld b <= capacity bld.
Proof. intros [H1 H2]. unfold free_bytes, capacity, data_ in *. lia. Qed.

Lemma fresh_block_ok w : block_ok bld (fresh_block w) /\ free_bytes bld (fresh_block w) = capacity bld.
Proof.
  unfold block_ok, free_bytes, capacity, data_, fresh_block, BlockSize. simpl.
  destruct Htarget. lia.
Qed.

Lemma NewBlock_spec pool w :
  NewBlock pool w = Ok {| top_ := fresh_block w :: top_ pool |} (allocated BlockSize w).
Proof. reflexivity. Qed.

Lemma Alloc_fits f n b prev w :
  block_ok bld b -> n <= free_bytes bld b ->
  Alloc bld (S f) n {| top_ := b :: prev |} w
  = Ok (first_ b - n, {| top_ := bumped n b :: prev |}) w.
Proof.
  intros Hb Hn. simpl. rewrite (free_size_t b Hb).
  destruct (Z.leb_spec n (free_bytes bld b)); [reflexivity | lia].
Qed.

Lemma Alloc_retry f n b prev w :
  block_ok bld b -> free_bytes bld b < n -> free_bytes bld b < Threshold ->
  Alloc bld (S f) n {| top_ := b :: prev |} w
  = Alloc bld f n {| top_ := fresh_block w :: b :: prev |} (allocated BlockSize w).
Proof.
  intros Hb Hn Ht. simpl. rewrite (free_size_t b Hb).
  destruct (Z.leb_spec n (free_bytes bld b)); [lia|].
  destruct (Z.ltb_spec (free_bytes bld b) Threshold); [reflexivity | lia].
Qed.

Lemma Alloc_escapes f n b prev w :
  block_ok bld b -> free_bytes bld b < n -> Threshold <= free_bytes bld b ->
  Alloc bld (S (S f)) n {| top_ := b :: prev |} w
  = Ok (brk w, {| top_ := bumped (sizeof_ptr bld) b :: prev |}) (escaped_world bld n b w).
Proof.
  intros Hb Hn Ht. simpl. rewrite (free_size_t b Hb).
  destruct (Z.leb_spec n (free_bytes bld b)); [lia|].
  destruct (Z.ltb_spec (free_bytes bld b) Threshold); [lia|].
  unfold bind, new_chars, sizeof_Own.
  destruct (Z.leb_spec (sizeof_ptr bld) (free_bytes bld b)).
  - reflexivity.
  - destruct Htarget. unfold Threshold in *. lia.
Qed.

Lemma log_grows_not (l l1 l2 : list event) e : l <> l ++ l1 ++ e :: l2.
Proof.
  intros H. apply (f_equal length) in H. rewrite !length_app in H. simpl in H. lia.
Qed.

(** The requests that escape. *)
Lemma Alloc_escaped_iff f n b prev w :
  block_ok bld b -> 0 <= n ->
  escaped n w (Alloc bld (S (S (S f))) n {| top_ := b :: prev |} w) <->
  free_bytes bld b < n /\ (Threshold <= free_bytes bld b \/ capacity bld < n).
Proof.
  intros Hb Hn. pose proof Htarget as Ht.
  destruct (Z.le_gt_cases n (free_bytes bld b)) as [Hfit | Hbig].
  - rewrite (Alloc_fits _ n b prev w Hb Hfit). simpl. split.
    + intros [l1 [l2 Hl]]. exfalso. exact (log_grows_not _ _ _ _ Hl).
    + intros [? _]. lia.
  - destruct (Z.le_gt_cases Threshold (free_bytes bld b)) as [Hroom | Hlow].
    + rewrite (Alloc_escapes _ n b prev w Hb Hbig Hroom). simpl.
      split; [intros _; split; [exact Hbig | now left]|].
      intros _. exists [], []. reflexivity.
    + rewrite (Alloc_retry _ n b prev w Hb Hbig Hlow).
      destruct (fresh_block_ok w) as [Hfb Hfree].
      destruct (Z.le_gt_cases n (capacity bld)) as [Hsmall | Hover].
      * rewrite (Alloc_fits _ n _ _ _ Hfb) by lia. simpl. split.
        -- intros [l1 [l2 Hl]]. exfalso.
           destruct l1 as [|e1 l1]; simpl in Hl.
           ++ apply app_inv_head in Hl. injection Hl as Hd Hsz _.
              unfold capacity in Hsmall. destruct Ht. lia.
           ++ apply app_inv_head in Hl. injection Hl as _ Hl.
              destruct l1; discriminate.
        -- intros [_ [? | ?]]; lia.
      * assert (Hthr : Threshold <= free_bytes bld (fresh_block w)).
        { rewrite Hfree. unfold capacity, BlockSize, Threshold. destruct Ht. lia. }
        rewrite (Alloc_escapes _ n _ _ _ Hfb) by lia. simpl.
        split; [intros _; split; [exact Hbig | now right]|].
        intros _. exists [EvAlloc (brk w) BlockSize], []. simpl.
        now rewrite <- app_assoc.
Qed.

End Allocation.

(** C2, as stated, fails in its third part: in a pool whose current block
    has 300 free bytes left (a fresh pool after a request for 7876), a
    request for 400 bytes is served by an allocation of its own although a
    whole block would hold it. *)
Lemma C2_escape_within_capacity : ~ escapes_iff_oversized safe64.
Proof.
  intros H.
  assert (Hreach : (pool <- Pool_ctor ;; Alloc safe64 3 7876 pool) fresh_world
                   = Ok (4412, {| top_ := [{| base := 4096; first_ := 4412 |}] |})
                        (allocated BlockSize fresh_world)) by reflexivity.
  destruct (H 400 {| base := 4096; first_ := 4412 |} [] (allocated BlockSize fresh_world))
    as [Hesc _].
  - unfold block_ok, data_, BlockSize. simpl. lia.
  - lia.
  - assert (Hcap : capacity safe64 < 400).
    { apply Hesc. exists [], []. reflexivity. }
    unfold capacity, BlockSize in Hcap. simpl in Hcap. lia.
Qed.

(** C2, amended: a request that fits is served by taking exactly [n]
    bytes off the block's mark, and nothing else changes; one that does not
    fit while less than the threshold is free gets a fresh block, with a
    whole block's capacity free, and is retried there; one that does not
    fit while the threshold or more is free gets storage of its own, with
    an [_Own] placeholder bumped into the block.  So a request escapes
    exactly when it does not fit in the block on which it is decided and
    that block has the threshold or more free, which covers every request
    larger than a block's capacity, and some smaller ones. *)
Theorem C2_alloc_cases (bld : build) (f : nat) (n : Z) (b : PoolBlock)
    (prev : list PoolBlock) (w : world) :
  pool_target bld -> block_ok bld b -> 0 <= n ->
  let pool := {| top_ := b :: prev |} in
  let free := free_bytes bld b in
  (n <= free ->
   Alloc bld (S f) n pool w = Ok (first_ b - n, {| top_ := bumped n b :: prev |}) w) /\
  (free < n -> free < Threshold ->
   NewBlock pool w = Ok {| top_ := fresh_block w :: b :: prev |} (allocated BlockSize w) /\
   free_bytes bld (fresh_block w) = capacity bld /\
   Alloc bld (S f) n pool w
   = Alloc bld f n {| top_ := fresh_block w :: b :: prev |} (allocated BlockSize w)) /\
  (free < n -> Threshold <= free ->
   Alloc bld (S (S f)) n pool w
   = Ok (brk w, {| top_ := bumped (sizeof_ptr bld) b :: prev |}) (escaped_world bld n b w) /\
   allocs (escaped_world bld n b w) !! brk w = Some n /\
   mem (escaped_world bld n b w) !! (first_ b - sizeof_ptr bld) = Some (COwn (brk w))) /\
  (escaped n w (Alloc bld (S (S (S f))) n pool w) <->
   free < n /\ (Threshold <= free \/ capacity bld < n)) /\
  (capacity bld < n -> escaped n w (Alloc bld (S (S (S f))) n pool w)).
Proof.
  intros Ht Hb Hn pool free.
  pose proof (Alloc_escaped_iff bld Ht f n b prev w Hb Hn) as Hiff.
  split; [intros Hfit; now apply Alloc_fits|].
  split.
  { intros Hbig Hlow. split; [reflexivity|]. split.
    - apply (fresh_block_ok bld Ht w).
    - now apply Alloc_retry. }
  split.
  { intros Hbig Hroom. split; [now apply Alloc_escapes|]. split; simpl.
    - apply lookup_insert_eq.
    - apply lookup_insert_eq. }
  split; [exact Hiff|].
  intros Hover. apply Hiff. pose proof (free_bounds bld b Hb). unfold free. split; [lia | now right].
Qed.

Lemma C2_alloc_cases_witness :
  Alloc safe64 1 16 {| top_ := [fresh_block fresh_world] |} (allocated BlockSize fresh_world)
  = Ok (12272, {| top_ := [bumped 16 (fresh_block fresh_world)] |})
       (allocated BlockSize fresh_world) /\
  escaped 9000 (allocated BlockSize fresh_world)
    (Alloc safe64 3 9000 {| top_ := [fresh_block fresh_world] |}
       (allocated BlockSize fresh_world)).
Proof.
  assert (Ht : pool_target safe64) by (unfold pool_target; simpl; lia).
  assert (Hb : block_ok safe64 (fresh_block fresh_world))
    by (unfold block_ok, data_, fresh_block, fresh_world, BlockSize; simpl; lia).
  split.
  - exact (proj1 (C2_alloc_cases safe64 0 16 (fresh_block fresh_world) []
                    (allocated BlockSize fresh_world) Ht Hb ltac:(lia))
             ltac:(unfold free_bytes, data_, fresh_block, fresh_world, BlockSize; simpl; lia)).
  - apply (C2_alloc_cases safe64 0 9000 (fresh_block fresh_world) []
             (allocated BlockSize fresh_world) Ht Hb ltac:(lia)).
    unfold capacity, BlockSize. simpl. lia.
Defined.
(** ** The placeholder of an escaped allocation *)

Lemma scan_not_object bld fuel pass1 block_end p w :
  p < block_end ->
  (forall o, mem w !! p <> Some (CObj o)) ->
  scan bld (S fuel) pass1 block_end p w = Undefined.
Proof.
  intros Hp Hcell. simpl. destruct (Z.ltb_spec p block_end); [|lia].
  assert (Hg : get_obj p w = Undefined).
  { unfold get_obj. destruct (mem w !! p) as [[o|]|] eqn:Hm; try reflexivity.
    now destruct (Hcell o). }
  destruct (MEMORY_SAFE bld).
  - unfold bind at 1. unfold exiting. destruct (_exiting w).
    + unfold bind at 1. unfold _Destroy1. unfold bind at 1. now rewrite Hg.
    + destruct pass1.
      * unfold bind at 1. unfold _DeferDestroy. unfold bind at 1. now rewrite Hg.
      * unfold bind at 1. unfold _CheckDeferredDestroy. unfold bind at 1. now rewrite Hg.
  - unfold bind at 1. unfold _Destroy1. unfold bind at 1. now rewrite Hg.
Qed.

(** C1 fails on the code: for a request larger than a block's capacity
    [Alloc] bumps an [_Own<Object>] into the block, not the [PoolObject]
    the source defines for the purpose.  [Pool::Destroy] then makes its
    virtual call on storage that holds no [Object], in every build, and
    the behaviour of the teardown is undefined. *)
Theorem C1_placeholder_breaks_teardown (bld : build) (n : Z) (w : world) :
  pool_target bld -> capacity bld < n ->
  one_object_pool bld n w = Undefined.
Proof.
  intros Ht Hn.
  destruct (fresh_block_ok bld Ht w) as [Hfb Hfree].
  assert (Hroom : Threshold <= free_bytes bld (fresh_block w)).
  { rewrite Hfree. unfold capacity, BlockSize, Threshold. destruct Ht. lia. }
  set (w1 := allocated BlockSize w).
  set (b1 := bumped (sizeof_ptr bld) (fresh_block w)).
  set (w2 := escaped_world bld n (fresh_block w) w1).
  set (w3 := add_log (EvNew (brk w1))
               (set_mem (insert (brk w1)
                  (CObj {| vptr := KGel; count_ := 0; sizeof_ := n; obody := Gel [] |})) w2)).
  assert (H2 : pool_new bld n [] {| top_ := [fresh_block w] |} w1
               = Ok (brk w1, {| top_ := [b1] |}) w3).
  { unfold pool_new. unfold bind at 1.
    rewrite (Alloc_escapes bld Ht 1 n (fresh_block w) [] w1 Hfb ltac:(lia) Hroom).
    reflexivity. }
  assert (H3 : Destroy bld [b1] true w3 = Undefined).
  { destruct Ht as [Hlo Hhi]. cbn [Destroy]. unfold bind at 1.
    replace (Z.to_nat (base b1 + BlockSize - first_ b1))
      with (S (Z.to_nat (sizeof_ptr bld - 1))) by (simpl; lia).
    rewrite scan_not_object; [reflexivity | simpl; lia |].
    intros o. simpl. unfold BlockSize.
    rewrite lookup_insert_ne by lia. rewrite lookup_insert_eq. discriminate. }
  unfold one_object_pool, Pool_ctor. unfold bind at 1. rewrite NewBlock_spec. cbn [top_].
  unfold bind at 1. fold w1. rewrite H2. cbn [snd].
  unfold Pool_dtor. cbn [top_]. unfold bind at 1. now rewrite H3.
Qed.

Lemma C1_placeholder_breaks_teardown_witness :
  one_object_pool safe64 9000 fresh_world = Undefined /\
  one_object_pool unsafe64 9000 fresh_world = Undefined.
Proof.
  split.
  - apply C1_placeholder_breaks_teardown.
    + unfold pool_target. simpl. lia.
    + unfold capacity, BlockSize. simpl. lia.
  - apply C1_placeholder_breaks_teardown.
    + unfold pool_target. simpl. lia.
    + unfold capacity, BlockSize. simpl. lia.
Defined.

(** With a [PoolObject] as the placeholder the same teardown is defined
    and releases the escaped storage, at 20000, exactly once. *)
Example teardown_through_PoolObject :
  events (Pool_dtor safe64 pool_object_pool (pool_object_world false))
  = Some [EvDestroy1 12264; EvDtor 20000; EvDestroy2 12264; EvFree 20000; EvFree 4096] /\
  events (Pool_dtor safe64 pool_object_pool (pool_object_world true))
  = Some [EvDestroy1 12264; EvDtor 20000; EvFree 20000; EvFree 4096] /\
  events (Pool_dtor unsafe64 pool_object_pool (pool_object_world false))
  = Some [EvDestroy1 12264; EvDtor 20000; EvFree 20000; EvFree 4096].
Proof. repeat split; vm_compute; reflexivity. Qed.

(** ** The bits of [PendingDestroy] *)

Lemma PendingDestroy_eq : PendingDestroy = 7 * 2 ^ 28.
Proof. reflexivity. Qed.

Lemma land_plain c : plain c -> Z.land c PendingDestroy = 0.
Proof.
  intros [Hlo Hhi]. apply Z.bits_inj'. intros n Hn.
  rewrite Z.land_spec, Z.bits_0.
  destruct (Z.lt_ge_cases n 28) as [Hlt | Hge].
  - rewrite PendingDestroy_eq, Z.mul_pow2_bits_low by lia. apply andb_false_r.
  - assert (Hc : Z.testbit c n = false).
    { destruct (Z.eq_dec c 0) as [-> | Hnz]; [apply Z.bits_0|].
      apply Z.bits_above_log2; [lia|].
      assert (Z.log2 c < 28) by (apply Z.log2_lt_pow2; lia). lia. }
    now rewrite Hc.
Qed.

Lemma lor_plain c : plain c -> Z.lor c PendingDestroy = c + PendingDestroy.
Proof.
  intros Hc. pose proof (land_plain c Hc) as Hl.
  rewrite (Z.add_nocarry_lxor _ _ Hl). symmetry. now apply Z.lxor_lor.
Qed.

Lemma deferred_split c : deferred c -> plain (c - PendingDestroy).
Proof. unfold deferred, plain. lia. Qed.

Lemma lor_deferred c : deferred c -> Z.lor c PendingDestroy = c.
Proof.
  intros Hc. pose proof (lor_plain _ (deferred_split c Hc)) as Hl.
  replace c with (c - PendingDestroy + PendingDestroy) at 1 by lia.
  rewrite <- Hl, <- Z.lor_assoc, Z.lor_diag, Hl. lia.
Qed.

Lemma land_deferred c : deferred c -> Z.land c PendingDestroy = PendingDestroy.
Proof.
  intros Hc. pose proof (lor_plain _ (deferred_split c Hc)) as Hl.
  replace c with (c - PendingDestroy + PendingDestroy) by lia.
  rewrite <- Hl, Z.land_lor_distr_l, (land_plain _ (deferred_split c Hc)), Z.land_diag.
  apply Z.lor_0_l.
Qed.

Lemma defer_count c :
  count_wf c -> deferred (Z.lor c PendingDestroy) /\ refs (Z.lor c PendingDestroy) = refs c.
Proof.
  intros [Hp | Hd].
  - rewrite (lor_plain c Hp). unfold plain, deferred, refs in *.
    destruct (Z.ltb_spec (c + PendingDestroy) PendingDestroy),
             (Z.ltb_spec c PendingDestroy); unfold PendingDestroy in *; lia.
  - rewrite (lor_deferred c Hd). now split.
Qed.

Lemma decr_count c :
  count_wf c -> 1 <= refs c ->
  count_wf (c - 1) /\ refs (c - 1) = refs c - 1 /\ 0 < c /\
  (deferred c -> deferred (c - 1)) /\ (plain c -> plain (c - 1)).
Proof.
  unfold count_wf, plain, deferred, refs. intros Hc Hr.
  destruct (Z.ltb_spec c PendingDestroy), (Z.ltb_spec (c - 1) PendingDestroy);
    unfold PendingDestroy in *; lia.
Qed.

Lemma deferred_check c : deferred c -> dtor_check false c = true.
Proof.
  intros Hd. unfold dtor_check. rewrite (land_deferred c Hd). simpl.
  destruct (c =? 0); reflexivity.
Qed.

(** ** Counting the members that point to an object *)

Lemma occ_nonneg t l : 0 <= occ t l.
Proof. unfold occ. lia. Qed.

Lemma occ_app t l1 l2 : occ t (l1 ++ l2) = occ t l1 + occ t l2.
Proof. unfold occ. rewrite count_occ_app. lia. Qed.

Lemma occ_single t x : occ t [x] = if decide (x = t) then 1 else 0.
Proof.
  unfold occ. simpl. destruct (Z.eq_dec x t), (decide (x = t)); try contradiction; reflexivity.
Qed.

Lemma occ_In t l : In t l -> 1 <= occ t l.
Proof.
  intros H. unfold occ. apply (count_occ_In Z.eq_dec) in H. lia.
Qed.

Lemma incoming_nonneg m univ t : 0 <= incoming m univ t.
Proof.
  induction univ as [|a rest IH]; simpl; [lia|].
  pose proof (occ_nonneg t (members_at m a)). lia.
Qed.

Lemma incoming_ge m univ a t :
  In a univ -> occ t (members_at m a) <= incoming m univ t.
Proof.
  induction univ as [|x rest IH]; intros Hin; [contradiction|]. simpl.
  pose proof (incoming_nonneg m rest t). pose proof (occ_nonneg t (members_at m x)).
  destruct Hin as [-> | Hin]; [lia|]. specialize (IH Hin). lia.
Qed.

Lemma incoming_same m m2 univ t :
  (forall x, In x univ -> members_at m2 x = members_at m x) ->
  incoming m2 univ t = incoming m univ t.
Proof.
  induction univ as [|x rest IH]; intros H; [reflexivity|]. simpl.
  rewrite (H x (or_introl eq_refl)), IH; [reflexivity|].
  intros y Hy. apply H. now right.
Qed.

Lemma incoming_update m m2 univ a t :
  List.NoDup univ -> In a univ ->
  (forall x, In x univ -> x <> a -> members_at m2 x = members_at m x) ->
  incoming m2 univ t
  = incoming m univ t - occ t (members_at m a) + occ t (members_at m2 a).
Proof.
  induction univ as [|x rest IH]; intros Hnd Hin Hsame; [contradiction|].
  apply (proj1 (List.NoDup_cons_iff x rest)) in Hnd. destruct Hnd as [Hx Hnd]. simpl.
  destruct Hin as [-> | Hin].
  - rewrite (incoming_same m m2 rest t); [lia|].
    intros y Hy. apply Hsame; [now right|]. intros ->. contradiction.
  - rewrite (Hsame x (or_introl eq_refl)) by (intros ->; contradiction).
    rewrite IH; [lia | assumption | assumption |].
    intros y Hy. apply Hsame. now right.
Qed.

(** One member, the last one of the object at [a], is released: its
    target's count goes down by one and the member is gone. *)
Lemma refs_ok_release m m2 univ a t ms :
  refs_ok m univ -> In a univ ->
  members_at m a = ms ++ [t] -> members_at m2 a = ms ->
  (forall x, In x univ -> x <> a -> members_at m2 x = members_at m x) ->
  (forall x, In x univ ->
     count_of m2 x = if decide (x = t) then (fun c => c - 1) <$> count_of m x
                     else count_of m x) ->
  refs_ok m2 univ /\ settles univ m m2.
Proof.
  intros [Hnd Hok] Ha Hm Hm2 Hothers Hcounts.
  assert (Hinc : forall x, incoming m2 univ x
                           = incoming m univ x - (if decide (t = x) then 1 else 0)).
  { intros x. rewrite (incoming_update m m2 univ a x Hnd Ha Hothers), Hm, Hm2.
    rewrite occ_app, occ_single. destruct (decide (t = x)); lia. }
  assert (Hdec : forall x c, In x univ -> count_of m x = Some c ->
             count_wf c -> incoming m univ x <= refs c ->
             exists c2, count_of m2 x = Some c2 /\ count_wf c2 /\
               incoming m2 univ x <= refs c2 /\ c2 <= c /\
               (deferred c -> deferred c2) /\ (plain c -> plain c2)).
  { intros x c Hx Hc Hwf Hle. rewrite (Hcounts x Hx), Hc, Hinc.
    destruct (decide (x = t)) as [-> | Hne].
    - destruct (decide (t = t)); [|contradiction].
      assert (Hone : 1 <= refs c).
      { pose proof (incoming_ge m univ a t Ha) as Hge. rewrite Hm, occ_app, occ_single in Hge.
        destruct (decide (t = t)); [|contradiction].
        pose proof (occ_nonneg t ms). lia. }
      destruct (decr_count c Hwf Hone) as (Hwf2 & Hr & _ & Hd & Hp).
      exists (c - 1). split; [reflexivity|]. split; [exact Hwf2|].
      split; [lia|]. split; [lia|]. split; assumption.
    - destruct (decide (t = x)); [congruence|].
      exists c. split; [reflexivity|]. split; [exact Hwf|].
      split; [lia|]. split; [lia|]. split; tauto. }
  split.
  - split; [exact Hnd|]. intros x Hx.
    destruct (Hok x Hx) as (Hx0 & (c & Hc & Hwf & Hle) & Hcl).
    split; [exact Hx0|]. split.
    + destruct (Hdec x c Hx Hc Hwf Hle) as (c2 & Hc2 & Hwf2 & Hle2 & _).
      exists c2. split; [exact Hc2|]. split; assumption.
    + intros u Hu. destruct (decide (x = a)) as [-> | Hxa].
      * apply Hcl. rewrite Hm. rewrite Hm2 in Hu. apply in_or_app. now left.
      * apply Hcl. now rewrite <- (Hothers x Hx Hxa).
  - intros x Hx c Hc.
    destruct (Hok x Hx) as (_ & (c' & Hc' & Hwf & Hle) & _).
    rewrite Hc in Hc'. injection Hc' as <-.
    destruct (Hdec x c Hx Hc Hwf Hle) as (c2 & Hc2 & _ & _ & Hle2 & Hd & Hp).
    exists c2. split; [exact Hc2|]. split; [exact Hle2|]. split; assumption.
Qed.

Lemma settles_refl univ m : settles univ m m.
Proof. intros x _ c Hc. exists c. split; [exact Hc|]. split; [lia|]. split; tauto. Qed.

Lemma settles_trans univ m1 m2 m3 :
  settles univ m1 m2 -> settles univ m2 m3 -> settles univ m1 m3.
Proof.
  intros H12 H23 x Hx c Hc.
  destruct (H12 x Hx c Hc) as (c2 & Hc2 & Hle & Hd & Hp).
  destruct (H23 x Hx c2 Hc2) as (c3 & Hc3 & Hle3 & Hd3 & Hp3).
  exists c3. split; [exact Hc3|]. split; [lia|]. split; tauto.
Qed.
(** ** Views of the store under an update *)

Lemma count_of_Some m a c :
  count_of m a = Some c -> exists o, m !! a = Some (CObj o) /\ count_ o = c.
Proof.
  unfold count_of. destruct (m !! a) as [[o|]|]; try discriminate.
  intros [= <-]. now exists o.
Qed.

Lemma count_of_obj m a o : m !! a = Some (CObj o) -> count_of m a = Some (count_ o).
Proof. intros H. unfold count_of. now rewrite H. Qed.

Lemma count_of_insert m a o x :
  count_of (<[a := CObj o]> m) x = if decide (x = a) then Some (count_ o) else count_of m x.
Proof.
  unfold count_of. destruct (decide (x = a)) as [-> | Hne].
  - now rewrite lookup_insert_eq.
  - now rewrite lookup_insert_ne by congruence.
Qed.

Lemma members_at_insert m a o x :
  members_at (<[a := CObj o]> m) x = if decide (x = a) then members o else members_at m x.
Proof.
  unfold members_at. destruct (decide (x = a)) as [-> | Hne].
  - now rewrite lookup_insert_eq.
  - now rewrite lookup_insert_ne by congruence.
Qed.

Lemma shape_at_insert m a o x :
  shape_at (<[a := CObj o]> m) x
  = if decide (x = a) then Some (vptr o, sizeof_ o) else shape_at m x.
Proof.
  unfold shape_at. destruct (decide (x = a)) as [-> | Hne].
  - now rewrite lookup_insert_eq.
  - now rewrite lookup_insert_ne by congruence.
Qed.

Lemma shape_at_obj m a o : m !! a = Some (CObj o) -> shape_at m a = Some (vptr o, sizeof_ o).
Proof. intros H. unfold shape_at. now rewrite H. Qed.

Lemma members_at_obj m a o : m !! a = Some (CObj o) -> members_at m a = members o.
Proof. intros H. unfold members_at. now rewrite H. Qed.

Lemma shape_at_Some m a k n :
  shape_at m a = Some (k, n) -> exists o, m !! a = Some (CObj o) /\ vptr o = k /\ sizeof_ o = n.
Proof.
  unfold shape_at. destruct (m !! a) as [[o|]|]; try discriminate.
  intros [= <- <-]. now exists o.
Qed.

(** An update that keeps the class and the size of the object at [a]. *)
Lemma shape_kept m a o o' :
  m !! a = Some (CObj o) -> vptr o' = vptr o -> sizeof_ o' = sizeof_ o ->
  forall x, shape_at (<[a := CObj o']> m) x = shape_at m x.
Proof.
  intros Hm Hv Hs x. rewrite shape_at_insert. destruct (decide (x = a)) as [-> | _].
  - rewrite (shape_at_obj m a o Hm). now rewrite Hv, Hs.
  - reflexivity.
Qed.

(** ** The first pass over one object, checks on *)

Section Diagnostic.

Variable bld : build.
Hypothesis Hsafe : MEMORY_SAFE bld = true.

Lemma Ptr_dtor_diag t ot w :
  _exiting w = false -> t <> 0 -> mem w !! t = Some (CObj ot) -> 0 < count_ ot ->
  Ptr_dtor bld t w = Ok tt (with_count t ot (count_ ot - 1) w).
Proof.
  intros He Ht Hm Hc. unfold Ptr_dtor, bind, exiting. rewrite He.
  destruct (Z.eqb_spec t 0); [contradiction|]. simpl.
  rewrite (_PtrDec_spec bld t ot w Hsafe Hm) by (unfold INT_MIN; lia).
  destruct (Z.ltb_spec 0 (count_ ot)); [|lia]. now rewrite andb_false_r.
Qed.

Lemma Ptr_dtor_null w : Ptr_dtor bld 0 w = Ok tt w.
Proof. unfold Ptr_dtor, bind, exiting. simpl. now rewrite andb_false_r. Qed.

Lemma dtor_members_diag univ a rest : forall w,
  _exiting w = false -> refs_ok (mem w) univ -> In a univ ->
  members_at (mem w) a = rev rest ->
  exists w', dtor_members bld a rest w = Ok tt w' /\
    mem_only w w' /\ refs_ok (mem w') univ /\ settles univ (mem w) (mem w') /\
    members_at (mem w') a = [] /\
    (forall x, shape_at (mem w') x = shape_at (mem w) x).
Proof.
  induction rest as [|t rest IH]; intros w He Hok Ha Hm.
  - exists w. split; [reflexivity|]. split; [apply mem_only_refl|].
    split; [exact Hok|]. split; [apply settles_refl|]. now split.
  - simpl in Hm. cbn [dtor_members].
    destruct (proj2 Hok a Ha) as (Ha0 & (ca & Hca & _) & Hcl).
    destruct (count_of_Some _ _ _ Hca) as (oa & Hoa & _).
    assert (Hstep : exists w1 o1,
      Ptr_dtor bld t w = Ok tt w1 /\ mem_only w w1 /\
      mem w1 !! a = Some (CObj o1) /\ vptr o1 = vptr oa /\ sizeof_ o1 = sizeof_ oa /\
      (forall x, shape_at (mem w1) x = shape_at (mem w) x) /\
      (forall x, x <> a -> members_at (mem w1) x = members_at (mem w) x) /\
      (forall x, In x univ ->
         count_of (mem w1) x = if decide (x = t) then (fun c => c - 1) <$> count_of (mem w) x
                               else count_of (mem w) x)).
    { destruct (Z.eq_dec t 0) as [-> | Ht0].
      - exists w, oa. rewrite Ptr_dtor_null. split; [reflexivity|].
        split; [apply mem_only_refl|]. split; [exact Hoa|]. do 4 (split; [reflexivity|]).
        intros x Hx. destruct (decide (x = 0)) as [-> | _]; [|reflexivity].
        now destruct (proj1 (proj2 Hok 0 Hx)).
      - assert (Htu : In t univ).
        { destruct (Hcl t) as [? | ?]; [rewrite Hm; apply in_or_app; right; now left
                                       | contradiction | assumption]. }
        destruct (proj2 Hok t Htu) as (_ & (ct & Hct & Hwf & Hle) & _).
        destruct (count_of_Some _ _ _ Hct) as (ot & Hot & Hcot).
        assert (Hone : 1 <= refs ct).
        { pose proof (incoming_ge (mem w) univ a t Ha) as Hge.
          rewrite Hm, occ_app, occ_single in Hge.
          destruct (decide (t = t)); [|contradiction].
          pose proof (occ_nonneg t (rev rest)). lia. }
        destruct (decr_count ct Hwf Hone) as (_ & _ & Hpos & _).
        exists (with_count t ot (count_ ot - 1) w).
        exists (if decide (a = t) then set_count (count_ ot - 1) ot else oa).
        split; [apply Ptr_dtor_diag; try assumption; lia|].
        split; [apply mem_only_set_mem|].
        unfold with_count. simpl.
        split.
        { destruct (decide (a = t)) as [-> | Hne].
          - apply lookup_insert_eq.
          - now rewrite lookup_insert_ne by congruence. }
        split.
        { destruct (decide (a = t)) as [-> | Hne]; [|reflexivity].
          rewrite Hoa in Hot. now injection Hot as ->. }
        split.
        { destruct (decide (a = t)) as [-> | Hne]; [|reflexivity].
          rewrite Hoa in Hot. now injection Hot as ->. }
        split; [apply (shape_kept _ _ _ _ Hot); reflexivity|].
        split.
        { intros x Hx. rewrite members_at_insert.
          destruct (decide (x = t)) as [-> | _]; [|reflexivity].
          now rewrite (members_at_obj _ _ _ Hot). }
        intros x Hx. rewrite count_of_insert.
        destruct (decide (x = t)) as [-> | _]; [|reflexivity].
        now rewrite Hct, <- Hcot. }
    destruct Hstep as (w1 & o1 & Hp & Hmo1 & Ho1 & Hv1 & Hs1 & Hshape1 & Hmem1 & Hcnt1).
    rewrite (bind_Ok _ _ _ _ _ Hp).
    rewrite (bind_Ok _ _ _ _ _ (get_obj_Ok _ _ _ Ho1)).
    unfold bind at 1. unfold put_obj.
    set (w2 := set_mem (insert a (CObj (set_body (Gel (rev rest)) o1))) w1).
    assert (Hrel : refs_ok (mem w2) univ /\ settles univ (mem w) (mem w2)).
    { apply (refs_ok_release (mem w) (mem w2) univ a t (rev rest) Hok Ha Hm).
      - unfold w2. simpl. rewrite members_at_insert.
        destruct (decide (a = a)); [reflexivity | contradiction].
      - intros x Hx Hxa. unfold w2. simpl. rewrite members_at_insert.
        destruct (decide (x = a)); [contradiction|]. now apply Hmem1.
      - intros x Hx. unfold w2. simpl. rewrite count_of_insert.
        destruct (decide (x = a)) as [-> | _]; [|now apply Hcnt1].
        rewrite <- (Hcnt1 a Hx). simpl. now rewrite (count_of_obj _ _ _ Ho1). }
    destruct Hrel as [Hok2 Hset2].
    destruct (IH w2) as (w' & Hr & Hmo & Hok' & Hset' & Hmem' & Hshape').
    + unfold w2. simpl. destruct Hmo1 as (He1 & _). now rewrite He1.
    + exact Hok2.
    + exact Ha.
    + unfold w2. simpl. rewrite members_at_insert.
      destruct (decide (a = a)); [reflexivity | contradiction].
    + exists w'. split; [exact Hr|].
      split; [eapply mem_only_trans; [exact Hmo1|];
              eapply mem_only_trans; [apply mem_only_set_mem | exact Hmo]|].
      split; [exact Hok'|].
      split; [eapply settles_trans; [exact Hset2 | exact Hset']|].
      split; [exact Hmem'|].
      intros x. rewrite Hshape'. unfold w2. simpl.
      rewrite (shape_kept _ _ _ _ Ho1) by reflexivity. apply Hshape1.
Qed.

End Diagnostic.
Lemma refs_ok_same_refs m m2 univ :
  refs_ok m univ ->
  (forall x, In x univ -> members_at m2 x = members_at m x) ->
  (forall x c, In x univ -> count_of m x = Some c ->
     exists c2, count_of m2 x = Some c2 /\ count_wf c2 /\ refs c2 = refs c) ->
  refs_ok m2 univ.
Proof.
  intros [Hnd Hok] Hmem Hcnt. split; [exact Hnd|]. intros a Ha.
  destruct (Hok a Ha) as (Ha0 & (c & Hc & Hwf & Hle) & Hcl).
  split; [exact Ha0|]. split.
  - destruct (Hcnt a c Ha Hc) as (c2 & Hc2 & Hwf2 & Hr).
    exists c2. split; [exact Hc2|]. split; [exact Hwf2|].
    rewrite Hr, (incoming_same m m2 univ a Hmem). exact Hle.
  - intros t Ht. apply Hcl. now rewrite <- (Hmem a Ha).
Qed.

(** An update of the object at [a] that keeps its count and its members. *)
Lemma refs_ok_revptr m univ a o k :
  refs_ok m univ -> m !! a = Some (CObj o) ->
  refs_ok (<[a := CObj (set_vptr k o)]> m) univ.
Proof.
  intros Hok Hm. apply (refs_ok_same_refs m _ univ Hok).
  - intros x _. rewrite members_at_insert. destruct (decide (x = a)) as [-> | _]; [|reflexivity].
    now rewrite (members_at_obj _ _ _ Hm).
  - intros x c Hx Hc. rewrite count_of_insert. destruct (decide (x = a)) as [-> | _].
    + rewrite (count_of_obj _ _ _ Hm) in Hc. injection Hc as <-.
      destruct (proj2 Hok a Hx) as (_ & (c & Hc & Hwf & _) & _).
      rewrite (count_of_obj _ _ _ Hm) in Hc. injection Hc as <-.
      exists (count_ o). now repeat split.
    + destruct (proj2 Hok x Hx) as (_ & (c' & Hc' & Hwf & _) & _).
      rewrite Hc in Hc'. injection Hc' as <-. exists c. now repeat split.
Qed.

Section Visit.

Variable bld : build.
Hypothesis Hsafe : MEMORY_SAFE bld = true.

Lemma _DeferDestroy_spec a o w :
  mem w !! a = Some (CObj o) ->
  _DeferDestroy a w = Ok tt (with_count a o (Z.lor (count_ o) PendingDestroy) w).
Proof. intros Hm. unfold _DeferDestroy. now rewrite (bind_Ok _ _ _ _ _ (get_obj_Ok _ _ _ Hm)). Qed.

Lemma members_dispatch a o w :
  (match obody o with
   | Gel ptrs => dtor_members bld a (rev ptrs)
   | _ => ret tt
   end) w = dtor_members bld a (rev (members o)) w.
Proof. unfold members. destruct (obody o); reflexivity. Qed.

(** The destructors of the derived classes, on an object of [univ] whose
    count has been deferred. *)
Lemma dtor_derived_diag univ a w :
  _exiting w = false -> refs_ok (mem w) univ -> In a univ ->
  exists w' o',
    dtor_derived bld a w = Ok tt w' /\
    _exiting w' = false /\ brk w' = brk w /\ allocs w' = allocs w /\
    log w' = log w ++ [EvDtor a] /\
    refs_ok (mem w') univ /\ settles univ (mem w) (mem w') /\
    mem w' !! a = Some (CObj o') /\ vptr o' = KObject /\
    (exists n k, shape_at (mem w) a = Some (k, n) /\ sizeof_ o' = n) /\
    (forall x, x <> a -> shape_at (mem w') x = shape_at (mem w) x).
Proof.
  intros He Hok Ha.
  destruct (proj2 Hok a Ha) as (_ & (c & Hc & _) & _).
  destruct (count_of_Some _ _ _ Hc) as (o & Ho & _).
  unfold dtor_derived. rewrite (bind_Ok _ _ _ _ _ (get_obj_Ok _ _ _ Ho)).
  unfold bind at 1. unfold emit.
  destruct (dtor_members_diag bld Hsafe univ a (rev (members o)) (add_log (EvDtor a) w))
    as (w1 & Hr & Hmo & Hok1 & Hset & Hnil & Hshape); try assumption.
  { simpl. rewrite rev_involutive. now apply members_at_obj. }
  unfold bind at 1. rewrite members_dispatch, Hr.
  destruct (proj2 Hok1 a Ha) as (_ & (c1 & Hc1 & _) & _).
  destruct (count_of_Some _ _ _ Hc1) as (o1 & Ho1 & _).
  rewrite (bind_Ok _ _ _ _ _ (get_obj_Ok _ _ _ Ho1)).
  destruct Hmo as (He1 & Hb1 & Ha1 & Hl1). simpl in *.
  eexists. exists (set_vptr KObject o1). split; [reflexivity|]. simpl.
  split; [congruence|]. split; [exact Hb1|]. split; [exact Ha1|]. split; [exact Hl1|].
  split; [now apply refs_ok_revptr|].
  split.
  { intros x Hx cx Hcx. destruct (Hset x Hx cx Hcx) as (c2 & Hc2 & Hrest).
    exists c2. split; [|exact Hrest]. rewrite count_of_insert.
    destruct (decide (x = a)) as [-> | _]; [|exact Hc2].
    rewrite (count_of_obj _ _ _ Ho1) in Hc2. exact Hc2. }
  split; [apply lookup_insert_eq|]. split; [reflexivity|].
  split.
  { exists (sizeof_ o), (vptr o). split; [now apply shape_at_obj|].
    pose proof (Hshape a) as Hsa. rewrite (shape_at_obj _ _ _ Ho1) in Hsa.
    simpl in Hsa. rewrite (shape_at_obj _ _ _ Ho) in Hsa. now injection Hsa. }
  intros x Hx. rewrite shape_at_insert. destruct (decide (x = a)); [contradiction|].
  apply Hshape.
Qed.

(** One iteration of the first pass: the count is deferred, the
    destructors run, the check of [~_Object] passes, and the vptr is put
    back. *)
Lemma visit_pass1 univ a n w :
  _exiting w = false -> refs_ok (mem w) univ -> In a univ ->
  shape_at (mem w) a = Some (KGel, n) ->
  exists w',
    (forall fuel e, a < e ->
       scan bld (S fuel) true e a w = scan bld fuel true e (a + n) w') /\
    _exiting w' = false /\ brk w' = brk w /\ allocs w' = allocs w /\
    log w' = log w ++ [EvDestroy1 a; EvDtor a] /\
    refs_ok (mem w') univ /\
    (forall x, shape_at (mem w') x = shape_at (mem w) x).
Proof.
  intros He Hok Ha Hsh.
  destruct (shape_at_Some _ _ _ _ Hsh) as (o & Ho & Hv & Hn).
  destruct (proj2 Hok a Ha) as (_ & (c & Hc & Hwf & _) & _).
  rewrite (count_of_obj _ _ _ Ho) in Hc. injection Hc as <-.
  destruct (defer_count _ Hwf) as [Hdef Hrefs].
  set (o1 := set_count (Z.lor (count_ o) PendingDestroy) o).
  set (w1 := with_count a o (Z.lor (count_ o) PendingDestroy) w).
  assert (Ho1 : mem w1 !! a = Some (CObj o1)) by apply mem_with_count.
  assert (Hok1 : refs_ok (mem w1) univ).
  { apply (refs_ok_same_refs (mem w) _ univ Hok).
    - intros x _. unfold w1, with_count. simpl. rewrite members_at_insert.
      destruct (decide (x = a)) as [-> | _]; [|reflexivity].
      now rewrite (members_at_obj _ _ _ Ho).
    - intros x cx Hx Hcx. unfold w1, with_count. simpl. rewrite count_of_insert.
      destruct (decide (x = a)) as [-> | _].
      + rewrite (count_of_obj _ _ _ Ho) in Hcx. injection Hcx as <-.
        eexists. split; [reflexivity|]. simpl. split; [now right | exact Hrefs].
      + destruct (proj2 Hok x Hx) as (_ & (c' & Hc' & Hwf' & _) & _).
        rewrite Hcx in Hc'. injection Hc' as <-. exists cx. now repeat split. }
  destruct (dtor_derived_diag univ a (add_log (EvDestroy1 a) w1))
    as (w2 & o2 & Hd & He2 & Hb2 & Ha2 & Hl2 & Hok2 & Hset2 & Ho2 & Hv2 & Hsz2 & Hsh2);
    try assumption.
  destruct (Hset2 a Ha (count_ o1)) as (c2 & Hc2 & _ & Hdef2 & _).
  { exact (count_of_obj _ _ _ Ho1). }
  rewrite (count_of_obj _ _ _ Ho2) in Hc2. injection Hc2 as <-.
  assert (Hchk : dtor__Object bld a w2 = Ok tt w2).
  { rewrite (dtor__Object_spec bld a o2 w2 Ho2), Hsafe, He2.
    now rewrite (deferred_check _ (Hdef2 Hdef)). }
  assert (Hsize : sizeof_ o2 = n).
  { destruct Hsz2 as (n' & k' & Hs & ->).
    change (shape_at (mem w1) a = Some (k', n')) in Hs.
    rewrite (shape_at_obj _ _ _ Ho1) in Hs. injection Hs as _ <-. exact Hn. }
  set (w3 := set_mem (insert a (CObj (set_vptr (vptr o1) o2))) w2).
  exists w3. split.
  { intros fuel e Hlt. cbn [scan]. destruct (Z.ltb_spec a e); [|lia].
    rewrite Hsafe. unfold bind at 1. unfold exiting. rewrite He.
    unfold bind at 1. rewrite (_DeferDestroy_spec a o w Ho). fold w1.
    unfold bind at 1. rewrite (get_obj_Ok _ _ _ Ho1).
    unfold bind at 1. unfold _Destroy1.
    unfold bind at 1. rewrite (get_obj_Ok _ _ _ Ho1).
    unfold bind at 1. unfold emit.
    replace (vptr o1) with KGel by (simpl; now rewrite Hv).
    unfold bind at 1. unfold destructor. unfold bind at 1. rewrite Hd.
    rewrite Hchk. unfold ret at 1.
    unfold bind at 1. rewrite (get_obj_Ok _ _ _ Ho2).
    unfold bind at 1. unfold put_obj.
    replace (sizeof_ o1) with n by (simpl; now rewrite Hn).
    unfold w3. now replace (vptr o1) with KGel by (simpl; now rewrite Hv). }
  unfold w3. simpl.
  split; [exact He2|]. split; [now rewrite Hb2|]. split; [now rewrite Ha2|].
  split; [rewrite Hl2; simpl; now rewrite <- app_assoc|].
  split; [now apply refs_ok_revptr|].
  intros x. rewrite shape_at_insert. destruct (decide (x = a)) as [-> | Hne].
  - simpl. rewrite Hsh, Hsize. now rewrite Hv.
  - rewrite (Hsh2 x Hne). simpl. unfold with_count. simpl.
    rewrite shape_at_insert. destruct (decide (x = a)); [contradiction | reflexivity].
Qed.

End Visit.
(** ** One iteration of the other passes *)

Lemma checked_or_quiet bld w : checked bld w \/ quiet bld w.
Proof.
  unfold checked, quiet. destruct (MEMORY_SAFE bld), (_exiting w); auto.
Qed.

Section Passes.

Variable bld : build.

Lemma Ptr_dtor_quiet t w : quiet bld w -> Ptr_dtor bld t w = Ok tt w.
Proof.
  intros Hq. unfold Ptr_dtor, bind, exiting.
  destruct (_exiting w) eqn:He; simpl; [reflexivity|].
  destruct Hq as [Hu | Hx]; [|congruence].
  destruct (t =? 0); simpl; [reflexivity|]. now apply _PtrDec_unsafe.
Qed.

Lemma quiet_mem_only w w' : mem_only w w' -> quiet bld w -> quiet bld w'.
Proof. intros (He & _) [H | H]; [now left | right; congruence]. Qed.

Lemma dtor_members_quiet a rest : forall w o,
  quiet bld w -> mem w !! a = Some (CObj o) ->
  exists w' o',
    dtor_members bld a rest w = Ok tt w' /\ mem_only w w' /\
    mem w' !! a = Some (CObj o') /\ vptr o' = vptr o /\ sizeof_ o' = sizeof_ o /\
    (forall x, x <> a -> mem w' !! x = mem w !! x).
Proof.
  induction rest as [|t rest IH]; intros w o Hq Ho.
  - exists w, o. split; [reflexivity|]. split; [apply mem_only_refl|]. now repeat split.
  - cbn [dtor_members]. rewrite (bind_Ok _ _ _ _ _ (Ptr_dtor_quiet t w Hq)).
    rewrite (bind_Ok _ _ _ _ _ (get_obj_Ok _ _ _ Ho)).
    unfold bind at 1. unfold put_obj.
    set (w1 := set_mem (insert a (CObj (set_body (Gel (rev rest)) o))) w).
    destruct (IH w1 (set_body (Gel (rev rest)) o)) as (w' & o' & Hr & Hmo & Ho' & Hv & Hs & Hfr).
    + exact (quiet_mem_only w w1 (mem_only_set_mem _ w) Hq).
    + apply lookup_insert_eq.
    + exists w', o'. split; [exact Hr|].
      split; [eapply mem_only_trans; [apply mem_only_set_mem | exact Hmo]|].
      split; [exact Ho'|]. split; [exact Hv|]. split; [exact Hs|].
      intros x Hx. rewrite (Hfr x Hx). unfold w1. simpl.
      now rewrite lookup_insert_ne by congruence.
Qed.

Lemma dtor__Object_quiet a o w :
  quiet bld w -> mem w !! a = Some (CObj o) -> dtor__Object bld a w = Ok tt w.
Proof.
  intros Hq Ho. rewrite (dtor__Object_spec bld a o w Ho).
  destruct Hq as [-> | ->]; [reflexivity|]. now destruct (MEMORY_SAFE bld).
Qed.

(** One iteration of a single pass: [_Destroy1] runs the destructors,
    which touch the object itself only. *)
Lemma visit_single a n w :
  quiet bld w -> shape_at (mem w) a = Some (KGel, n) ->
  exists w',
    (forall fuel pass1 e, a < e ->
       scan bld (S fuel) pass1 e a w = scan bld fuel pass1 e (a + n) w') /\
    _exiting w' = _exiting w /\ brk w' = brk w /\ allocs w' = allocs w /\
    log w' = log w ++ [EvDestroy1 a; EvDtor a] /\
    (forall x, x <> a -> mem w' !! x = mem w !! x).
Proof.
  intros Hq Hsh. destruct (shape_at_Some _ _ _ _ Hsh) as (o & Ho & Hv & Hn).
  set (w0 := add_log (EvDtor a) (add_log (EvDestroy1 a) w)).
  assert (Hq0 : quiet bld w0) by (destruct Hq; [now left | now right]).
  destruct (dtor_members_quiet a (rev (members o)) w0 o Hq0 Ho)
    as (w1 & o1 & Hr & Hmo & Ho1 & Hv1 & Hs1 & Hfr).
  set (w2 := set_mem (insert a (CObj (set_vptr KObject o1))) w1).
  assert (Hq2 : quiet bld w2).
  { apply (quiet_mem_only w1); [apply mem_only_set_mem|]. exact (quiet_mem_only _ _ Hmo Hq0). }
  assert (Hd1 : _Destroy1 bld a w = Ok n w2).
  { unfold _Destroy1. rewrite (bind_Ok _ _ _ _ _ (get_obj_Ok _ _ _ Ho)).
    unfold bind at 1. unfold emit. rewrite Hv.
    unfold bind at 1. unfold destructor. unfold bind at 1. unfold dtor_derived.
    assert (Ho' : mem (add_log (EvDestroy1 a) w) !! a = Some (CObj o)) by exact Ho.
    rewrite (bind_Ok _ _ _ _ _ (get_obj_Ok _ _ _ Ho')).
    unfold bind at 1. unfold emit. fold w0.
    unfold bind at 1. rewrite members_dispatch, Hr.
    rewrite (bind_Ok _ _ _ _ _ (get_obj_Ok _ _ _ Ho1)).
    unfold put_obj. fold w2.
    rewrite (dtor__Object_quiet a (set_vptr KObject o1) w2 Hq2) by apply lookup_insert_eq.
    unfold ret. now rewrite Hn. }
  destruct Hmo as (He1 & Hb1 & Ha1 & Hl1).
  exists w2. split.
  { intros fuel pass1 e Hlt. cbn [scan]. destruct (Z.ltb_spec a e); [|lia].
    destruct (MEMORY_SAFE bld) eqn:Hs.
    - destruct Hq as [? | Hx]; [congruence|].
      unfold bind at 1. unfold exiting. rewrite Hx.
      unfold bind at 1. now rewrite Hd1.
    - unfold bind at 1. now rewrite Hd1. }
  unfold w2. simpl. split; [exact He1|]. split; [exact Hb1|]. split; [exact Ha1|].
  split; [rewrite Hl1; simpl; now rewrite <- app_assoc|].
  intros x Hx. rewrite lookup_insert_ne by congruence. rewrite (Hfr x Hx). reflexivity.
Qed.

(** One iteration of the second pass. *)
Lemma visit_pass2 a n w fuel e :
  checked bld w -> a < e ->
  shape_at (mem w) a = Some (KGel, n) -> count_of (mem w) a = Some PendingDestroy ->
  scan bld (S fuel) false e a w = scan bld fuel false e (a + n) (add_log (EvDestroy2 a) w).
Proof.
  intros [Hs He] Hlt Hsh Hc.
  destruct (shape_at_Some _ _ _ _ Hsh) as (o & Ho & Hv & Hn).
  rewrite (count_of_obj _ _ _ Ho) in Hc. injection Hc as Hc.
  cbn [scan]. destruct (Z.ltb_spec a e); [|lia]. rewrite Hs.
  unfold bind at 1. unfold exiting. rewrite He. simpl.
  unfold bind at 1. unfold _CheckDeferredDestroy.
  rewrite (bind_Ok _ _ _ _ _ (get_obj_Ok _ _ _ Ho)).
  unfold bind at 1. unfold exiting. rewrite He, Hc, Z.eqb_refl. simpl.
  unfold bind at 1. unfold _Destroy2.
  rewrite (bind_Ok _ _ _ _ _ (get_obj_Ok _ _ _ Ho)).
  unfold bind at 1. unfold emit. rewrite Hv. unfold ret. now rewrite Hn.
Qed.

Lemma visit_pass2_fatal a c w fuel e :
  checked bld w -> a < e ->
  count_of (mem w) a = Some c -> c <> PendingDestroy ->
  scan bld (S fuel) false e a w
  = Fatal "outstanding reference to destroyed pool-allocated object" w.
Proof.
  intros [Hs He] Hlt Hc Hne.
  destruct (count_of_Some _ _ _ Hc) as (o & Ho & Hco).
  cbn [scan]. destruct (Z.ltb_spec a e); [|lia]. rewrite Hs.
  unfold bind at 1. unfold exiting. rewrite He. simpl.
  unfold bind at 1. unfold _CheckDeferredDestroy.
  rewrite (bind_Ok _ _ _ _ _ (get_obj_Ok _ _ _ Ho)).
  unfold bind at 1. unfold exiting. rewrite He, Hco. simpl.
  destruct (Z.eqb_spec c PendingDestroy); [contradiction | reflexivity].
Qed.

Lemma scan_done fuel pass1 e p w : e <= p -> scan bld fuel pass1 e p w = Ok tt w.
Proof.
  intros Hle. destruct fuel; simpl; destruct (Z.ltb_spec p e); try lia; reflexivity.
Qed.

End Passes.
(** ** Chains of objects *)

Lemma chain_le m p e L : chain m p e L -> p <= e.
Proof.
  revert p. induction L as [|a rest IH]; intros p H; simpl in H.
  - lia.
  - destruct H as (_ & n & _ & Hn & Hrest). specialize (IH _ Hrest). lia.
Qed.

Lemma chain_bounds m p e L : chain m p e L -> forall x, In x L -> p <= x < e.
Proof.
  revert p. induction L as [|a rest IH]; intros p H x Hx; [contradiction|].
  simpl in H. destruct H as (-> & n & _ & Hn & Hrest).
  pose proof (chain_le _ _ _ _ Hrest).
  destruct Hx as [<- | Hx]; [lia|]. specialize (IH _ Hrest x Hx). lia.
Qed.

Lemma chain_ext m m' p e L :
  (forall x, In x L -> shape_at m' x = shape_at m x) -> chain m p e L -> chain m' p e L.
Proof.
  revert p. induction L as [|a rest IH]; intros p Hsame H; [exact H|].
  simpl in *. destruct H as (-> & n & Hsh & Hn & Hrest).
  split; [reflexivity|]. exists n. split; [now rewrite Hsame by now left|].
  split; [exact Hn|]. apply IH; [|exact Hrest]. intros x Hx. apply Hsame. now right.
Qed.

Lemma chain_NoDup m p e L : chain m p e L -> List.NoDup L.
Proof.
  revert p. induction L as [|a rest IH]; intros p H; [constructor|].
  simpl in H. destruct H as (-> & n & _ & Hn & Hrest). constructor.
  - intros Hin. pose proof (chain_bounds _ _ _ _ Hrest p Hin). lia.
  - exact (IH _ Hrest).
Qed.

Lemma logged_nil w : logged [] w = w.
Proof. apply world_eq; try reflexivity. simpl. apply app_nil_r. Qed.

Lemma logged_logged l1 l2 w : logged l2 (logged l1 w) = logged (l1 ++ l2) w.
Proof. apply world_eq; try reflexivity. simpl. now rewrite app_assoc. Qed.

Lemma add_log_logged e w : add_log e w = logged [e] w.
Proof. reflexivity. Qed.

(** ** A pass over the objects of one block *)

Section Scans.

Variable bld : build.

Lemma scan_pass1 univ e L : forall p w fuel,
  checked bld w -> refs_ok (mem w) univ -> (forall a, In a L -> In a univ) ->
  chain (mem w) p e L -> (Z.to_nat (e - p) <= fuel)%nat ->
  exists w', scan bld fuel true e p w = Ok tt w' /\
    _exiting w' = false /\ brk w' = brk w /\ allocs w' = allocs w /\
    log w' = log w ++ visits1 L /\
    refs_ok (mem w') univ /\
    (forall x, shape_at (mem w') x = shape_at (mem w) x).
Proof.
  induction L as [|a rest IH]; intros p w fuel [Hs He] Hok Hin Hch Hfuel.
  - simpl in Hch. subst p. exists w. rewrite scan_done by lia.
    simpl. rewrite app_nil_r.
    split; [reflexivity|]. split; [exact He|]. do 3 (split; [reflexivity|]).
    split; [exact Hok | reflexivity].
  - simpl in Hch. destruct Hch as (-> & n & Hsh & Hn & Hrest).
    pose proof (chain_le _ _ _ _ Hrest) as Hle.
    destruct fuel as [|fuel]; [lia|].
    destruct (visit_pass1 bld Hs univ p n w He Hok (Hin p (or_introl eq_refl)) Hsh)
      as (w1 & Hstep & He1 & Hb1 & Ha1 & Hl1 & Hok1 & Hsh1).
    rewrite Hstep by lia.
    destruct (IH (p + n) w1 fuel) as (w' & Hr & He' & Hb' & Ha' & Hl' & Hok' & Hsh').
    + now split.
    + exact Hok1.
    + intros x Hx. apply Hin. now right.
    + apply (chain_ext (mem w)); [|exact Hrest]. intros x _. apply Hsh1.
    + lia.
    + exists w'. split; [exact Hr|]. split; [exact He'|].
      split; [congruence|]. split; [congruence|].
      split; [rewrite Hl', Hl1; simpl; now rewrite <- app_assoc|].
      split; [exact Hok'|]. intros x. now rewrite Hsh', Hsh1.
Qed.

Lemma scan_single e L : forall p w fuel pass1,
  quiet bld w -> chain (mem w) p e L -> (Z.to_nat (e - p) <= fuel)%nat ->
  exists w', scan bld fuel pass1 e p w = Ok tt w' /\
    _exiting w' = _exiting w /\ brk w' = brk w /\ allocs w' = allocs w /\
    log w' = log w ++ visits1 L /\
    (forall x, ~ In x L -> mem w' !! x = mem w !! x).
Proof.
  induction L as [|a rest IH]; intros p w fuel pass1 Hq Hch Hfuel.
  - simpl in Hch. subst p. exists w. rewrite scan_done by lia.
    simpl. rewrite app_nil_r. now repeat split.
  - simpl in Hch. destruct Hch as (-> & n & Hsh & Hn & Hrest).
    pose proof (chain_le _ _ _ _ Hrest) as Hle.
    destruct fuel as [|fuel]; [lia|].
    destruct (visit_single bld p n w Hq Hsh) as (w1 & Hstep & He1 & Hb1 & Ha1 & Hl1 & Hfr1).
    rewrite Hstep by lia.
    destruct (IH (p + n) w1 fuel pass1) as (w' & Hr & He' & Hb' & Ha' & Hl' & Hfr').
    + destruct Hq as [? | ?]; [now left | right; congruence].
    + apply (chain_ext (mem w)); [|exact Hrest]. intros x Hx.
      pose proof (chain_bounds _ _ _ _ Hrest x Hx).
      unfold shape_at. rewrite Hfr1 by lia. reflexivity.
    + lia.
    + exists w'. split; [exact Hr|]. split; [congruence|].
      split; [congruence|]. split; [congruence|].
      split; [rewrite Hl', Hl1; simpl; now rewrite <- app_assoc|].
      intros x Hx. rewrite Hfr' by (intros ?; apply Hx; now right).
      apply Hfr1. intros ->. apply Hx. now left.
Qed.

Lemma checked_logged l w : checked bld w -> checked bld (logged l w).
Proof. intros [? ?]. now split. Qed.

End Scans.
(** ** The passes over the blocks *)

Lemma operator_delete_spec a n w :
  allocs w !! a = Some n -> operator_delete a w = Ok tt (released a n w).
Proof. intros H. unfold operator_delete. now rewrite H. Qed.

Lemma released_below a n w x : x < a -> mem (released a n w) !! x = mem w !! x.
Proof.
  intros Hx. simpl. apply filter_region_lookup.
  unfold in_region. destruct (Z.leb_spec a x); [lia | reflexivity].
Qed.

Lemma released_allocs a n w x : x <> a -> allocs (released a n w) !! x = allocs w !! x.
Proof. intros Hx. simpl. now rewrite lookup_delete_ne by congruence. Qed.

Lemma blocks_wf_frame bld w w' top : forall Ls limit,
  blocks_wf bld w limit top Ls ->
  (forall x, x < limit -> shape_at (mem w') x = shape_at (mem w) x) ->
  (forall x, x < limit -> allocs w' !! x = allocs w !! x) ->
  blocks_wf bld w' limit top Ls.
Proof.
  induction top as [|b prev IH]; intros [|L Ls] limit H Hm Ha; try exact H.
  simpl in *. destruct H as (Hb & Hpos & Hlim & Hal & Hch & Hprev).
  split; [exact Hb|]. split; [exact Hpos|]. split; [exact Hlim|].
  split; [rewrite Ha by (unfold BlockSize in *; lia); exact Hal|].
  split.
  - apply (chain_ext (mem w)); [|exact Hch]. intros x Hx.
    pose proof (chain_bounds _ _ _ _ Hch x Hx). apply Hm. lia.
  - apply IH; [exact Hprev | |]; intros x Hx.
    + apply Hm. unfold BlockSize in *. lia.
    + apply Ha. unfold BlockSize in *. lia.
Qed.

Lemma blocks_wf_shape bld w w' top Ls limit :
  blocks_wf bld w limit top Ls ->
  (forall x, shape_at (mem w') x = shape_at (mem w) x) ->
  allocs w' = allocs w ->
  blocks_wf bld w' limit top Ls.
Proof.
  intros H Hm Ha. apply (blocks_wf_frame bld w); [exact H | |].
  - intros x _. apply Hm.
  - intros x _. now rewrite Ha.
Qed.

Lemma chain_shapes m e L : forall p,
  chain m p e L -> forall x, In x L -> exists n, shape_at m x = Some (KGel, n).
Proof.
  induction L as [|a rest IH]; intros p Hc x Hx; [contradiction|].
  simpl in Hc. destruct Hc as (-> & n & Hsh & _ & Hrest).
  destruct Hx as [<- | Hx]; [now exists n | exact (IH _ Hrest x Hx)].
Qed.

Lemma blocks_wf_objects bld w top : forall Ls limit,
  blocks_wf bld w limit top Ls ->
  forall x, In x (concat Ls) -> x < limit /\ exists n, shape_at (mem w) x = Some (KGel, n).
Proof.
  induction top as [|b prev IH]; intros [|L Ls] limit H x Hx; try contradiction.
  simpl in *. destruct H as (Hb & Hpos & Hlim & Hal & Hch & Hprev).
  apply in_app_or in Hx. destruct Hx as [Hx | Hx].
  - pose proof (chain_bounds _ _ _ _ Hch x Hx) as Hbd.
    split; [lia | exact (chain_shapes _ _ _ _ Hch x Hx)].
  - destruct (IH Ls (base b) Hprev x Hx) as [Hbd Hsh]. split; [|exact Hsh].
    unfold BlockSize in *. lia.
Qed.

Lemma visits1_app L1 L2 : visits1 (L1 ++ L2) = visits1 L1 ++ visits1 L2.
Proof. unfold visits1. apply flat_map_app. Qed.

Lemma check_block_ext ok ok' L :
  (forall x, In x L -> ok' x = ok x) -> check_block ok' L = check_block ok L.
Proof.
  induction L as [|a rest IH]; intros H; [reflexivity|]. simpl.
  rewrite (H a (or_introl eq_refl)), IH; [reflexivity|].
  intros x Hx. apply H. now right.
Qed.

Lemma check_sweep_ext ok ok' top : forall Ls,
  (forall x, In x (concat Ls) -> ok' x = ok x) ->
  check_sweep ok' top Ls = check_sweep ok top Ls.
Proof.
  induction top as [|b prev IH]; intros [|L Ls] H; try reflexivity. simpl in *.
  rewrite (check_block_ext ok ok' L) by (intros x Hx; apply H, in_or_app; now left).
  rewrite (IH Ls) by (intros x Hx; apply H, in_or_app; now right).
  reflexivity.
Qed.

Section Sweeps.

Variable bld : build.
Hypothesis Htarget : pool_target bld.

Lemma scan_pass2_spec e L : forall p w fuel,
  checked bld w -> chain (mem w) p e L -> (Z.to_nat (e - p) <= fuel)%nat ->
  scan bld fuel false e p w
  = let r := check_block (settled (mem w)) L in
    if r.2 then Ok tt (logged r.1 w)
    else Fatal "outstanding reference to destroyed pool-allocated object" (logged r.1 w).
Proof.
  induction L as [|a rest IH]; intros p w fuel Hc Hch Hfuel.
  - simpl in Hch. subst p. rewrite scan_done by lia. simpl. now rewrite logged_nil.
  - simpl in Hch. destruct Hch as (-> & n & Hsh & Hn & Hrest).
    pose proof (chain_le _ _ _ _ Hrest) as Hle.
    destruct fuel as [|fuel]; [lia|].
    destruct (shape_at_Some _ _ _ _ Hsh) as (o & Ho & _ & _).
    pose proof (count_of_obj _ _ _ Ho) as Hco.
    cbn [check_block].
    assert (Hst : settled (mem w) p = (count_ o =? PendingDestroy))
      by (unfold settled; now rewrite Hco).
    rewrite Hst.
    destruct (Z.eqb_spec (count_ o) PendingDestroy) as [Heq | Hne].
    + rewrite Heq in Hco.
      rewrite (visit_pass2 bld p n w fuel e Hc ltac:(lia) Hsh Hco).
      rewrite add_log_logged, (IH (p + n) (logged [EvDestroy2 p] w) fuel);
        [| now apply checked_logged | exact Hrest | lia].
      cbv zeta. rewrite !logged_logged. simpl.
      now destruct (check_block (settled (mem w)) rest).2.
    + rewrite (visit_pass2_fatal bld p (count_ o) w fuel e Hc ltac:(lia) Hco Hne).
      simpl. now rewrite logged_nil.
Qed.

Lemma Destroy_pass1 univ top : forall Ls limit w,
  checked bld w -> blocks_wf bld w limit top Ls ->
  refs_ok (mem w) univ -> (forall a, In a (concat Ls) -> In a univ) ->
  exists w', Destroy bld top true w = Ok tt w' /\
    _exiting w' = false /\ brk w' = brk w /\ allocs w' = allocs w /\
    log w' = log w ++ visits1 (concat Ls) /\
    refs_ok (mem w') univ /\
    (forall x, shape_at (mem w') x = shape_at (mem w) x).
Proof.
  induction top as [|b prev IH]; intros [|L Ls] limit w Hc Hwf Hok Hin; try contradiction.
  - exists w. simpl. rewrite app_nil_r. destruct Hc as [_ He].
    split; [reflexivity|]. split; [exact He|]. do 3 (split; [reflexivity|]).
    split; [exact Hok | reflexivity].
  - simpl in Hwf. destruct Hwf as (Hb & Hpos & Hlim & Hal & Hch & Hprev).
    destruct (scan_pass1 bld univ (base b + BlockSize) L (first_ b) w
                (Z.to_nat (base b + BlockSize - first_ b)) Hc Hok)
      as (w1 & Hs & He1 & Hb1 & Ha1 & Hl1 & Hok1 & Hsh1); [| exact Hch | lia |].
    { intros a Ha. apply Hin. simpl. apply in_or_app. now left. }
    destruct (IH Ls (base b) w1) as (w' & Hr & He' & Hb' & Ha' & Hl' & Hok' & Hsh').
    + split; [exact (proj1 Hc) | exact He1].
    + exact (blocks_wf_shape bld w w1 prev Ls (base b) Hprev Hsh1 Ha1).
    + exact Hok1.
    + intros a Ha. apply Hin. simpl. apply in_or_app. now right.
    + exists w'. split.
      { cbn [Destroy]. unfold bind at 1. rewrite Hs.
        unfold bind at 1. rewrite (proj1 Hc). unfold bind at 1. unfold exiting.
        rewrite He1. simpl. exact Hr. }
      split; [exact He'|]. split; [congruence|]. split; [congruence|].
      split; [simpl; rewrite visits1_app, Hl', Hl1; now rewrite <- app_assoc|].
      split; [exact Hok'|]. intros x. now rewrite Hsh', Hsh1.
Qed.

Lemma Destroy_single top : forall Ls limit w pass1,
  quiet bld w -> blocks_wf bld w limit top Ls ->
  exists w', Destroy bld top pass1 w = Ok tt w' /\
    _exiting w' = _exiting w /\
    log w' = log w ++ sweep visits1 top Ls.
Proof.
  induction top as [|b prev IH]; intros [|L Ls] limit w pass1 Hq Hwf; try contradiction.
  - exists w. simpl. rewrite app_nil_r. now repeat split.
  - simpl in Hwf. destruct Hwf as (Hb & Hpos & Hlim & Hal & Hch & Hprev).
    destruct (scan_single bld (base b + BlockSize) L (first_ b) w
                (Z.to_nat (base b + BlockSize - first_ b)) pass1 Hq Hch)
      as (w1 & Hs & He1 & Hb1 & Ha1 & Hl1 & Hfr1); [lia|].
    assert (Hal1 : allocs w1 !! base b = Some BlockSize) by now rewrite Ha1.
    set (w2 := released (base b) BlockSize w1).
    assert (Hdel : (if MEMORY_SAFE bld
                    then e <- exiting ;;
                         if e || negb pass1 then operator_delete (base b) else ret tt
                    else operator_delete (base b)) w1 = Ok tt w2).
    { destruct (MEMORY_SAFE bld) eqn:Hsafe.
      - destruct Hq as [? | Hx]; [congruence|].
        unfold bind, exiting. rewrite He1, Hx. simpl. now apply operator_delete_spec.
      - now apply operator_delete_spec. }
    destruct (IH Ls (base b) w2 pass1) as (w' & Hr & He' & Hl').
    + destruct Hq as [? | ?]; [now left | right; simpl; congruence].
    + apply (blocks_wf_frame bld w); [exact Hprev | |]; intros x Hx.
      * unfold shape_at, w2. rewrite released_below by lia.
        rewrite Hfr1; [reflexivity|]. intros Hin.
        pose proof (chain_bounds _ _ _ _ Hch x Hin). destruct Hb as [Hd _].
        unfold data_ in Hd. destruct Htarget. lia.
      * unfold w2. rewrite released_allocs by lia. now rewrite Ha1.
    + exists w'. split.
      { cbn [Destroy]. unfold bind at 1. rewrite Hs.
        unfold bind at 1. rewrite Hdel. exact Hr. }
      split; [rewrite He'; simpl; exact He1|].
      rewrite Hl'. simpl. rewrite Hl1, <- !app_assoc. reflexivity.
Qed.

Lemma Destroy_pass2 top : forall Ls limit w,
  checked bld w -> blocks_wf bld w limit top Ls ->
  exists w',
    Destroy bld top false w
    = (if (check_sweep (settled (mem w)) top Ls).2 then Ok tt w'
       else Fatal "outstanding reference to destroyed pool-allocated object" w') /\
    log w' = log w ++ (check_sweep (settled (mem w)) top Ls).1.
Proof.
  induction top as [|b prev IH]; intros [|L Ls] limit w Hc Hwf; try contradiction.
  - exists w. simpl. now rewrite app_nil_r.
  - simpl in Hwf. destruct Hwf as (Hb & Hpos & Hlim & Hal & Hch & Hprev).
    pose proof (scan_pass2_spec (base b + BlockSize) L (first_ b) w
                  (Z.to_nat (base b + BlockSize - first_ b)) Hc Hch ltac:(lia)) as Hs.
    cbn [check_sweep Destroy]. cbv zeta in Hs.
    destruct (check_block (settled (mem w)) L) as [l r] eqn:Hcb.
    cbn [fst snd] in Hs. cbn [fst snd].
    destruct r.
    + set (w1 := logged l w) in *. set (w2 := released (base b) BlockSize w1).
      assert (Hdel : (if MEMORY_SAFE bld
                      then e <- exiting ;;
                           if e || negb false then operator_delete (base b) else ret tt
                      else operator_delete (base b)) w1 = Ok tt w2).
      { destruct Hc as [-> He]. unfold bind, exiting. simpl. rewrite orb_true_r.
        now apply operator_delete_spec. }
      destruct (IH Ls (base b) w2) as (w' & Hr & Hl').
      * destruct Hc. now split.
      * apply (blocks_wf_frame bld w); [exact Hprev | |]; intros x Hx.
        -- unfold shape_at, w2. now rewrite released_below by lia.
        -- unfold w2. now rewrite released_allocs by lia.
      * assert (Hext : check_sweep (settled (mem w2)) prev Ls
                       = check_sweep (settled (mem w)) prev Ls).
        { apply check_sweep_ext. intros x Hx.
          destruct (blocks_wf_objects bld w prev Ls (base b) Hprev x Hx) as [Hbd _].
          unfold settled, count_of, w2. now rewrite released_below by lia. }
        rewrite Hext in Hr, Hl'.
        exists w'. split.
        { unfold bind at 1. rewrite Hs. unfold bind at 1. rewrite Hdel. exact Hr. }
        rewrite Hl'. unfold w2, w1. simpl. now rewrite <- !app_assoc.
    + exists (logged l w). split; [|reflexivity].
      unfold bind at 1. now rewrite Hs.
Qed.

End Sweeps.

(** ** Construction in a pool *)

Section Construction.

Variable bld : build.

Lemma _PtrInc_inv t w w' :
  _PtrInc bld t w = Ok tt w' ->
  (MEMORY_SAFE bld = false /\ w' = w) \/
  (MEMORY_SAFE bld = true /\
   exists ot, mem w !! t = Some (CObj ot) /\ w' = with_count t ot (count_ ot + 1) w).
Proof.
  unfold _PtrInc. destruct (MEMORY_SAFE bld); [|intros [= <-]; now left].
  intros H. right. split; [reflexivity|].
  unfold bind, get_obj in H. destruct (mem w !! t) as [[ot|]|] eqn:Hm; try discriminate.
  exists ot. split; [reflexivity|].
  unfold int_incr in H. destruct (count_ ot <? INT_MAX); [|discriminate].
  simpl in H. now injection H as <-.
Qed.

Lemma raised_nil w : raised [] w w.
Proof.
  split; [apply mem_only_refl|]. split; [reflexivity|]. split; [reflexivity|].
  intros x _. destruct (count_of (mem w) x); simpl; [|reflexivity].
  f_equal; unfold occ; simpl; lia.
Qed.

Lemma occ_cons x t l : occ x (t :: l) = (if decide (t = x) then 1 else 0) + occ x l.
Proof.
  unfold occ. simpl. destruct (Z.eq_dec t x), (decide (t = x)); try contradiction; lia.
Qed.

Lemma Ptr_Init_inv t w r w' :
  Ptr_Init bld t w = Ok r w' ->
  r = t /\
  ((MEMORY_SAFE bld = false \/ t = 0) /\ w' = w \/
   MEMORY_SAFE bld = true /\ t <> 0 /\
   exists ot, mem w !! t = Some (CObj ot) /\ w' = with_count t ot (count_ ot + 1) w).
Proof.
  unfold Ptr_Init. destruct (Z.eqb_spec t 0) as [-> | Ht].
  - intros [= <- <-]. split; [reflexivity|]. left. split; [now right | reflexivity].
  - unfold bind. destruct (_PtrInc bld t w) as [[] w1| | |] eqn:Hi; try discriminate.
    intros [= <- <-]. split; [reflexivity|].
    destruct (_PtrInc_inv t w w1 Hi) as [[Hu ->] | [Hs Hex]].
    + left. split; [now left | reflexivity].
    + right. now repeat split.
Qed.

Lemma raised_one t ot w :
  t <> 0 -> mem w !! t = Some (CObj ot) ->
  raised [t] w (with_count t ot (count_ ot + 1) w).
Proof.
  intros Ht Hm. split; [apply mem_only_set_mem|]. unfold with_count. simpl.
  split; [apply (shape_kept _ _ _ _ Hm); reflexivity|].
  split.
  - intros x. rewrite members_at_insert. destruct (decide (x = t)) as [-> | _]; [|reflexivity].
    now rewrite (members_at_obj _ _ _ Hm).
  - intros x Hx. rewrite count_of_insert, occ_cons.
    destruct (decide (x = t)) as [-> | Hne].
    + rewrite (count_of_obj _ _ _ Hm). simpl. destruct (decide (t = t)); [|contradiction].
      f_equal; unfold occ; simpl; lia.
    + destruct (decide (t = x)); [congruence|]. destruct (count_of (mem w) x); simpl; [|reflexivity].
      f_equal; unfold occ; simpl; lia.
Qed.

Lemma raised_null w : raised [0] w w.
Proof.
  split; [apply mem_only_refl|]. split; [reflexivity|]. split; [reflexivity|].
  intros x Hx. rewrite occ_cons. destruct (decide (0 = x)); [congruence|].
  destruct (count_of (mem w) x); simpl; [|reflexivity]. f_equal; unfold occ; simpl; lia.
Qed.

Lemma raised_cons t rest w w1 w' :
  raised [t] w w1 -> raised rest w1 w' -> raised (t :: rest) w w'.
Proof.
  intros (Hm1 & Hs1 & Hb1 & Hc1) (Hm2 & Hs2 & Hb2 & Hc2).
  split; [exact (mem_only_trans _ _ _ Hm1 Hm2)|].
  split; [intros x; now rewrite Hs2, Hs1|].
  split; [intros x; now rewrite Hb2, Hb1|].
  intros x Hx. rewrite (Hc2 x Hx), (Hc1 x Hx). rewrite !occ_cons.
  destruct (count_of (mem w) x); simpl; [|reflexivity].
  f_equal; unfold occ; simpl; lia.
Qed.

Lemma init_members_safe ptrs : forall w w',
  MEMORY_SAFE bld = true ->
  init_members bld ptrs w = Ok tt w' -> raised ptrs w w'.
Proof.
  induction ptrs as [|t rest IH]; intros w w' Hs H; simpl in H.
  - injection H as <-. apply raised_nil.
  - unfold bind at 1 in H. destruct (Ptr_Init bld t w) as [r w1| | |] eqn:Hp; try discriminate.
    destruct (Ptr_Init_inv t w r w1 Hp) as [_ [[[Hu | ->] ->] | (_ & Ht & ot & Hot & ->)]].
    + congruence.
    + exact (raised_cons 0 rest w w w' (raised_null w) (IH _ _ Hs H)).
    + exact (raised_cons t rest w _ w' (raised_one t ot w Ht Hot) (IH _ _ Hs H)).
Qed.

Lemma init_members_unsafe ptrs : forall w w',
  MEMORY_SAFE bld = false ->
  init_members bld ptrs w = Ok tt w' -> w' = w.
Proof.
  induction ptrs as [|t rest IH]; intros w w' Hs H; simpl in H.
  - now injection H as <-.
  - unfold bind at 1 in H. destruct (Ptr_Init bld t w) as [r w1| | |] eqn:Hp; try discriminate.
    destruct (Ptr_Init_inv t w r w1 Hp) as [_ [[_ ->] | (Hs' & _)]]; [|congruence].
    exact (IH _ _ Hs H).
Qed.

(** The state in which [construct] leaves the store: the new object is at
    [a], and nothing else changed its class, its size or its members. *)
Lemma construct_inv a n ptrs w w' :
  construct bld a n ptrs w = Ok tt w' ->
  let obj := {| vptr := KGel; count_ := 0; sizeof_ := n; obody := Gel ptrs |} in
  let w1 := set_mem (insert a (CObj obj)) w in
  _exiting w' = _exiting w /\ brk w' = brk w /\ allocs w' = allocs w /\
  log w' = log w ++ [EvNew a] /\
  (forall x, shape_at (mem w') x = shape_at (mem w1) x) /\
  (forall x, members_at (mem w') x = members_at (mem w1) x) /\
  (MEMORY_SAFE bld = true ->
   forall x, x <> 0 ->
     count_of (mem w') x = (fun c => c + occ x ptrs) <$> count_of (mem w1) x).
Proof.
  intros H obj w1. unfold construct in H. unfold bind at 1 in H. unfold put_obj in H.
  fold obj in H. fold w1 in H. unfold bind at 1 in H.
  destruct (init_members bld ptrs w1) as [[] w2| | |] eqn:Hi; try discriminate.
  unfold emit in H. injection H as <-. simpl.
  destruct (MEMORY_SAFE bld) eqn:Hs.
  - destruct (init_members_safe ptrs w1 w2 Hs Hi) as ((He & Hb & Ha & Hl) & Hsh & Hmb & Hc).
    split; [exact He|]. split; [exact Hb|]. split; [exact Ha|].
    split; [now rewrite Hl|]. split; [exact Hsh|]. split; [exact Hmb|].
    intros _. exact Hc.
  - rewrite (init_members_unsafe ptrs w1 w2 Hs Hi). simpl.
    repeat split; try reflexivity. discriminate.
Qed.

End Construction.
(** ** Counts that cover the members, as objects are made *)

Lemma occ_not_In t l : ~ In t l -> occ t l = 0.
Proof.
  intros H. unfold occ. now rewrite (proj1 (count_occ_not_In Z.eq_dec l t) H).
Qed.

(** No member points outside a universe that is closed. *)
Lemma incoming_closed m U a : forall V,
  (forall x, In x V -> forall t, In t (members_at m x) -> t = 0 \/ In t U) ->
  ~ In a U -> a <> 0 -> incoming m V a = 0.
Proof.
  induction V as [|x V IH]; intros Hcl Ha Ha0; simpl; [reflexivity|].
  rewrite IH; try assumption.
  - rewrite occ_not_In; [reflexivity|].
    intros Hin. destruct (Hcl x (or_introl eq_refl) a Hin); contradiction.
  - intros y Hy. apply Hcl. now right.
Qed.

(** Counts may rise above what the members account for; a count that
    rose is one without the sentinel's bits. *)
Lemma refs_ok_raise m m' U (k : Z -> Z) :
  refs_ok m U ->
  (forall x, In x U -> members_at m' x = members_at m x) ->
  (forall x, In x U -> count_of m' x = (fun c => c + k x) <$> count_of m x) ->
  (forall x, In x U -> 0 <= k x) ->
  (forall x c, In x U -> 0 < k x -> count_of m' x = Some c -> c < 2 ^ 28) ->
  List.NoDup U /\
  forall x, In x U ->
    x <> 0 /\
    (exists c, count_of m' x = Some c /\ count_wf c /\ incoming m' U x + k x <= refs c) /\
    forall t, In t (members_at m' x) -> t = 0 \/ In t U.
Proof.
  intros [Hnd H] Hmb Hc Hk Hb. split; [exact Hnd|].
  intros x Hx. destruct (H x Hx) as (Hx0 & (c & Hc0 & Hwf & Hin) & Hcl).
  split; [exact Hx0|]. split.
  - exists (c + k x). pose proof (Hc x Hx) as Hcx. rewrite Hc0 in Hcx. simpl in Hcx.
    split; [exact Hcx|]. rewrite (incoming_same m m' U x Hmb).
    pose proof (Hk x Hx) as Hk0.
    destruct (Z.eq_dec (k x) 0) as [Hz | Hnz].
    + rewrite Hz, !Z.add_0_r. now split.
    + assert (Hlt : c + k x < 2 ^ 28) by (apply (Hb x _ Hx); [lia | exact Hcx]).
      pose proof PendingDestroy_eq as HP.
      destruct Hwf as [Hp | Hd]; [|unfold deferred in Hd; lia].
      unfold plain in Hp. split; [left; unfold plain; lia|].
      unfold refs in *.
      destruct (Z.ltb_spec c PendingDestroy); [|lia].
      destruct (Z.ltb_spec (c + k x) PendingDestroy); lia.
  - rewrite (Hmb x Hx). exact Hcl.
Qed.

Lemma refs_ok_raised m m' U k :
  refs_ok m U ->
  (forall x, In x U -> members_at m' x = members_at m x) ->
  (forall x, In x U -> count_of m' x = (fun c => c + k x) <$> count_of m x) ->
  (forall x, In x U -> 0 <= k x) ->
  (forall x c, In x U -> 0 < k x -> count_of m' x = Some c -> c < 2 ^ 28) ->
  refs_ok m' U.
Proof.
  intros H Hmb Hc Hk Hb.
  destruct (refs_ok_raise m m' U k H Hmb Hc Hk Hb) as [Hnd H'].
  split; [exact Hnd|]. intros x Hx.
  destruct (H' x Hx) as (Hx0 & (c & Hc0 & Hwf & Hin) & Hcl).
  split; [exact Hx0|]. split; [|exact Hcl].
  exists c. split; [exact Hc0|]. split; [exact Hwf|].
  pose proof (Hk x Hx). lia.
Qed.

(** A new object with count zero joins the universe: its members are
    already paid for by the counts of their targets. *)
Lemma refs_ok_extend m U a ptrs :
  List.NoDup U -> ~ In a U -> a <> 0 ->
  count_of m a = Some 0 -> members_at m a = ptrs ->
  (forall t, In t ptrs -> t = 0 \/ In t U) ->
  (forall x, In x U ->
     x <> 0 /\
     (exists c, count_of m x = Some c /\ count_wf c /\ incoming m U x + occ x ptrs <= refs c) /\
     forall t, In t (members_at m x) -> t = 0 \/ In t U) ->
  refs_ok m (a :: U).
Proof.
  intros Hnd Ha Ha0 Hc Hmb Hp H. split; [now constructor|].
  intros x [<- | Hx].
  - split; [exact Ha0|]. split.
    + exists 0. split; [exact Hc|]. split; [left; unfold plain; lia|].
      simpl. rewrite Hmb. rewrite occ_not_In.
      * rewrite (incoming_closed m U a U); try assumption; [reflexivity|].
        intros y Hy. exact (proj2 (proj2 (H y Hy))).
      * intros Hin. destruct (Hp a Hin); contradiction.
    + rewrite Hmb. intros t Ht. destruct (Hp t Ht); [now left | right; now right].
  - destruct (H x Hx) as (Hx0 & (c & Hc0 & Hwf & Hin) & Hcl).
    split; [exact Hx0|]. split.
    + exists c. split; [exact Hc0|]. split; [exact Hwf|]. simpl. rewrite Hmb. lia.
    + intros t Ht. destruct (Hcl t Ht); [now left | right; now right].
Qed.

(** Whether the store holds an object at an address decides all that
    [refs_ok] reads there. *)
Lemma refs_ok_elsewhere m a c U :
  ~ In a U -> refs_ok m U -> refs_ok (<[a := c]> m) U.
Proof.
  intros Ha [Hnd H].
  assert (Hm : forall x, In x U -> members_at (<[a := c]> m) x = members_at m x).
  { intros x Hx. unfold members_at. rewrite lookup_insert_ne; [reflexivity|].
    intros ->. contradiction. }
  split; [exact Hnd|]. intros x Hx.
  destruct (H x Hx) as (Hx0 & (c0 & Hc0 & Hwf & Hin) & Hcl).
  split; [exact Hx0|]. split.
  - exists c0. split.
    + unfold count_of. rewrite lookup_insert_ne; [exact Hc0|]. intros ->. contradiction.
    + split; [exact Hwf|]. now rewrite (incoming_same m _ U x Hm).
  - rewrite (Hm x Hx). exact Hcl.
Qed.
(** ** The invariant of a pool *)

Section Building.

Variable bld : build.
Hypothesis Htarget : pool_target bld.
Variable univ0 : list Z.

Lemma NewBlock_wf pool w addrs Ls :
  pool_wf bld univ0 pool w addrs Ls ->
  pool_wf bld univ0 {| top_ := fresh_block w :: top_ pool |} (allocated BlockSize w)
    addrs ([] :: Ls).
Proof.
  intros (Hne & Hb & Hc & Hbrk & Hu & Hr).
  assert (HBS : BlockSize = 8192) by reflexivity.
  unfold pool_wf. simpl. split; [discriminate|]. split.
  - destruct (fresh_block_ok bld Htarget w) as [Hok _].
    split; [exact Hok|]. split; [exact Hbrk|]. split; [lia|].
    split; [apply lookup_insert_eq|]. split; [reflexivity|].
    apply (blocks_wf_frame bld w); [exact Hb | reflexivity |].
    intros x Hx. simpl. apply lookup_insert_ne. lia.
  - split; [exact Hc|]. split; [lia|]. split; [|exact Hr].
    intros a Ha. destruct (Hu a Ha) as [Hlt Hout]. split; [lia|].
    intros b [<- | Hin]; [simpl; lia | now apply Hout].
Qed.

Lemma Pool_ctor_wf w0 pool w :
  heap_ok bld univ0 w0 -> Pool_ctor w0 = Ok pool w ->
  pool_wf bld univ0 pool w [] [[]].
Proof.
  intros (Hbrk & Hu & Hr) H. unfold Pool_ctor in H. rewrite NewBlock_spec in H.
  injection H as <- <-.
  assert (HBS : BlockSize = 8192) by reflexivity.
  unfold pool_wf. simpl. split; [discriminate|]. split.
  - destruct (fresh_block_ok bld Htarget w0) as [Hok _].
    split; [exact Hok|]. split; [exact Hbrk|]. split; [lia|].
    split; [apply lookup_insert_eq|]. split; reflexivity.
  - split; [reflexivity|]. split; [lia|]. split; [|exact Hr].
    intros a Ha. pose proof (Hu a Ha). split; [lia|].
    intros b [<- | []]. simpl. lia.
Qed.

Lemma construct_wf b prev w addrs L Ls n ptrs w' :
  pool_wf bld univ0 {| top_ := b :: prev |} w addrs (L :: Ls) ->
  0 < n -> n <= free_bytes bld b ->
  (forall t, In t ptrs -> t = 0 \/ In t addrs \/ In t univ0) ->
  construct bld (first_ b - n) n ptrs w = Ok tt w' ->
  (forall t c, In t ptrs -> count_of (mem w') t = Some c -> c < 2 ^ 28) ->
  pool_wf bld univ0 {| top_ := bumped n b :: prev |} w'
    (addrs ++ [first_ b - n]) ((first_ b - n :: L) :: Ls).
Proof.
  intros (_ & Hb & Hc & Hbrk & Hu & Hr) Hn Hfree Hp Hcon Hbound.
  set (a := first_ b - n) in *.
  simpl in Hb. destruct Hb as (Hok & Hbase & Hlim & Hal & Hch & Hprev).
  destruct Hok as [Hok1 Hok2]. unfold free_bytes in Hfree. unfold data_ in *.
  destruct Htarget as [Ht1 Ht2].
  assert (Ha1 : base b < a) by (unfold a; lia).
  assert (Ha2 : a < first_ b) by (unfold a; lia).
  (* the new address is not in use *)
  assert (HaL : ~ In a L).
  { intros Hin. pose proof (chain_bounds _ _ _ _ Hch a Hin). lia. }
  assert (HaLs : ~ In a (concat Ls)).
  { intros Hin. destruct (blocks_wf_objects bld w prev Ls (base b) Hprev a Hin). lia. }
  assert (Ha0 : ~ In a univ0).
  { intros Hin. destruct (Hu a Hin) as [_ Hout].
    apply (Hout b (or_introl eq_refl)). lia. }
  assert (HaU : ~ In a (rev addrs ++ univ0)).
  { rewrite <- Hc. simpl. rewrite !in_app_iff. tauto. }
  destruct (construct_inv bld a n ptrs w w' Hcon)
    as (He & Hbk & Hall & Hlog & Hsh & Hmb & Hcnt).
  simpl in Hsh, Hmb, Hcnt.
  assert (Hsh' : forall x, x <> a -> shape_at (mem w') x = shape_at (mem w) x).
  { intros x Hx. rewrite Hsh, shape_at_insert. now destruct (decide (x = a)). }
  unfold pool_wf. simpl. split; [discriminate|]. split.
  - split; [unfold block_ok, data_; simpl; fold a; lia|].
    split; [exact Hbase|]. split; [lia|]. split; [now rewrite Hall|].
    split.
    + split; [reflexivity|]. exists n. split.
      * rewrite Hsh, shape_at_insert. now destruct (decide (a = a)).
      * split; [exact Hn|]. match goal with |- chain _ ?p _ _ => replace p with (first_ b) by (unfold a; lia) end.
        apply (chain_ext (mem w)); [|exact Hch].
        intros x Hx. apply Hsh'. intros ->. contradiction.
    + apply (blocks_wf_frame bld w); [exact Hprev | |].
      * intros x Hx. apply Hsh'. lia.
      * intros x _. now rewrite Hall.
  - split; [simpl in Hc; rewrite Hc; now rewrite rev_unit|].
    split; [lia|]. split.
    + intros x Hx. destruct (Hu x Hx) as [Hlt Hout]. split; [lia|].
      intros b' [<- | Hin]; [apply (Hout b); now left | apply Hout; now right].
    + intros Hs. rewrite rev_unit. simpl.
      specialize (Hr Hs). specialize (Hcnt Hs).
      set (obj := {| vptr := KGel; count_ := 0; sizeof_ := n; obody := Gel ptrs |}) in *.
      assert (Hr1 : refs_ok (<[a := CObj obj]> (mem w)) (rev addrs ++ univ0))
        by now apply refs_ok_elsewhere.
      assert (Hp' : forall t, In t ptrs -> t = 0 \/ In t (rev addrs ++ univ0)).
      { intros t Ht. rewrite in_app_iff, <- in_rev. destruct (Hp t Ht); tauto. }
      assert (Hapos : a <> 0) by lia.
      destruct (refs_ok_raise _ (mem w') (rev addrs ++ univ0) (fun x => occ x ptrs) Hr1)
        as [Hnd Hall'].
      * intros x Hx. apply Hmb.
      * intros x Hx. apply Hcnt. exact (proj1 (proj2 Hr1 x Hx)).
      * intros x _. apply occ_nonneg.
      * intros x c Hx Hocc Hcx. apply (Hbound x c); [|exact Hcx].
        destruct (in_dec Z.eq_dec x ptrs) as [Hi | Hni]; [exact Hi|].
        rewrite (occ_not_In x ptrs Hni) in Hocc. lia.
      * apply (refs_ok_extend (mem w') _ a ptrs); try assumption.
        -- rewrite (Hcnt a Hapos), count_of_insert. destruct (decide (a = a)); [|contradiction].
           simpl. f_equal. rewrite occ_not_In; [reflexivity|].
           intros Hin. destruct (Hp' a Hin); contradiction.
        -- rewrite Hmb, members_at_insert. now destruct (decide (a = a)).
Qed.

(** A request that does not escape is served from the top block, or from
    a block made for it. *)
Lemma Alloc_in_block n b prev w :
  block_ok bld b -> 0 <= n ->
  ~ escaped n w (Alloc bld 3 n {| top_ := b :: prev |} w) ->
  n <= free_bytes bld b /\
  Alloc bld 3 n {| top_ := b :: prev |} w
  = Ok (first_ b - n, {| top_ := bumped n b :: prev |}) w
  \/
  free_bytes bld b < n /\ n <= capacity bld /\
  Alloc bld 3 n {| top_ := b :: prev |} w
  = Ok (first_ (fresh_block w) - n,
        {| top_ := bumped n (fresh_block w) :: b :: prev |}) (allocated BlockSize w).
Proof.
  intros Hok Hn Hesc.
  rewrite (Alloc_escaped_iff bld Htarget 0 n b prev w Hok Hn) in Hesc.
  destruct (Z_le_gt_dec n (free_bytes bld b)) as [Hle | Hgt].
  - left. split; [exact Hle|]. now apply Alloc_fits.
  - right. assert (Hthr : free_bytes bld b < Threshold) by lia.
    assert (Hcap : n <= capacity bld) by lia.
    split; [lia|]. split; [exact Hcap|].
    rewrite (Alloc_retry bld Htarget 2 n b prev w Hok) by lia.
    destruct (fresh_block_ok bld Htarget w) as [Hok' Hfree'].
    apply (Alloc_fits bld Htarget 1 n (fresh_block w) (b :: prev)); [exact Hok' | lia].
Qed.

Lemma pool_new_inv n ptrs pool w a pool' w' :
  pool_new bld n ptrs pool w = Ok (a, pool') w' ->
  exists wa, Alloc bld 3 n pool w = Ok (a, pool') wa /\ construct bld a n ptrs wa = Ok tt w'.
Proof.
  unfold pool_new. unfold bind at 1.
  destruct (Alloc bld 3 n pool w) as [[a0 p0] wa| | |]; try discriminate.
  unfold bind at 1. simpl.
  destruct (construct bld a0 n ptrs wa) as [[] w2| | |] eqn:Hc; try discriminate.
  intros [= <- <- <-]. now exists wa.
Qed.

Lemma pool_new_wf pool w addrs Ls n ptrs a pool' w' :
  pool_wf bld univ0 pool w addrs Ls ->
  0 < n ->
  (forall t, In t ptrs -> t = 0 \/ In t addrs \/ In t univ0) ->
  pool_new bld n ptrs pool w = Ok (a, pool') w' ->
  ~ escaped n w (Alloc bld 3 n pool w) ->
  (forall t c, In t ptrs -> count_of (mem w') t = Some c -> c < 2 ^ 28) ->
  exists Ls', pool_wf bld univ0 pool' w' (addrs ++ [a]) Ls'.
Proof.
  intros Hwf Hn Hp Hnew Hesc Hbound.
  destruct (pool_new_inv _ _ _ _ _ _ _ Hnew) as (wa & Hal & Hcon).
  destruct pool as [top]. destruct top as [|b prev]; [now destruct Hwf|].
  destruct Ls as [|L Ls]; [destruct Hwf as (_ & [] & _)|].
  assert (Hok : block_ok bld b) by exact (proj1 (proj1 (proj2 Hwf))).
  destruct (Alloc_in_block n b prev w Hok ltac:(lia) Hesc) as [[Hle Heq] | (Hgt & Hcap & Heq)];
    rewrite Heq in Hal; injection Hal as <- <- <-.
  - exists ((first_ b - n :: L) :: Ls).
    now apply (construct_wf b prev w addrs L Ls n ptrs w').
  - exists ((first_ (fresh_block w) - n :: []) :: L :: Ls).
    apply (construct_wf (fresh_block w) (b :: prev) (allocated BlockSize w) addrs [] (L :: Ls)
             n ptrs w'); try assumption.
    + exact (NewBlock_wf _ _ _ _ Hwf).
    + rewrite (proj2 (fresh_block_ok bld Htarget w)). exact Hcap.
Qed.

(** A further handle on an object of the pool or of its surroundings. *)
Lemma Ptr_Init_wf pool w addrs Ls t w' :
  pool_wf bld univ0 pool w addrs Ls ->
  In t addrs \/ In t univ0 ->
  Ptr_Init bld t w = Ok t w' ->
  (forall c, count_of (mem w') t = Some c -> c < 2 ^ 28) ->
  pool_wf bld univ0 pool w' addrs Ls.
Proof.
  intros Hwf Ht Hi Hbound.
  destruct (Ptr_Init_inv bld t w t w' Hi) as [_ [[_ ->] | (Hs & Ht0 & ot & Hot & ->)]];
    [exact Hwf|].
  destruct Hwf as (Hne & Hb & Hc & Hbrk & Hu & Hr).
  unfold pool_wf, with_count. simpl.
  split; [exact Hne|]. split.
  - apply (blocks_wf_shape bld w); [exact Hb | | reflexivity].
    simpl. apply (shape_kept _ _ _ _ Hot); reflexivity.
  - split; [exact Hc|]. split; [exact Hbrk|]. split; [exact Hu|].
    intros _. specialize (Hr Hs).
    apply (refs_ok_raised (mem w) _ _ (fun x => if decide (x = t) then 1 else 0) Hr).
    + intros x _. rewrite members_at_insert. destruct (decide (x = t)) as [-> | _]; [|reflexivity].
      now rewrite (members_at_obj _ _ _ Hot).
    + intros x _. rewrite count_of_insert. destruct (decide (x = t)) as [-> | _].
      * now rewrite (count_of_obj _ _ _ Hot).
      * destruct (count_of (mem w) x); simpl; [|reflexivity]. f_equal; lia.
    + intros x _. destruct (decide (x = t)); lia.
    + intros x c _ Hk Hcx. destruct (decide (x = t)) as [-> | _]; [|lia].
      now apply Hbound.
Qed.

Lemma now_exiting_wf pool w addrs Ls :
  pool_wf bld univ0 pool w addrs Ls -> pool_wf bld univ0 pool (now_exiting w) addrs Ls.
Proof.
  intros (Hne & Hb & Hc & Hbrk & Hu & Hr).
  split; [exact Hne|]. split.
  - apply (blocks_wf_shape bld w); [exact Hb | reflexivity | reflexivity].
  - split; [exact Hc|]. split; [exact Hbrk|]. split; [exact Hu | exact Hr].
Qed.

(** Every pool a program builds satisfies the invariant. *)
Lemma built_wf pool w addrs :
  built bld univ0 pool w addrs -> exists Ls, pool_wf bld univ0 pool w addrs Ls.
Proof.
  induction 1 as [w0 pool w Hh Hc | pool w addrs n ptrs a pool' w' _ [Ls IH] Hn Hp Hnew Hesc Hb
                 | pool w addrs t w' _ [Ls IH] Ht Hi Hb | pool w addrs _ [Ls IH]].
  - exists [[]]. now apply (Pool_ctor_wf w0).
  - now apply (pool_new_wf pool w addrs Ls n ptrs a pool' w').
  - exists Ls. now apply (Ptr_Init_wf pool w addrs Ls t w').
  - exists Ls. now apply now_exiting_wf.
Qed.

(** The objects of a pool lie at different addresses. *)
Lemma blocks_wf_NoDup w top : forall Ls limit,
  blocks_wf bld w limit top Ls -> List.NoDup (concat Ls).
Proof.
  induction top as [|b prev IH]; intros [|L Ls] limit H; simpl in H; try contradiction.
  - constructor.
  - destruct H as (Hok & Hbase & Hlim & Hal & Hch & Hprev). simpl.
    assert (Hd : forall x, In x L -> ~ In x (concat Ls)).
    { intros x Hx Hin. pose proof (chain_bounds _ _ _ _ Hch x Hx) as Hbx.
      destruct (blocks_wf_objects bld w prev Ls (base b) Hprev x Hin) as [Hlt _].
      destruct Hok as [Hok1 _]. unfold data_ in Hok1. destruct Htarget. lia. }
    pose proof (chain_NoDup _ _ _ _ Hch) as HL.
    pose proof (IH Ls (base b) Hprev) as HLs.
    clear - Hd HL HLs. induction L as [|x L IHL]; simpl; [exact HLs|].
    constructor.
    + rewrite in_app_iff. intros [Hin | Hin].
      * exact (proj1 (proj1 (List.NoDup_cons_iff x L) HL) Hin).
      * exact (Hd x (or_introl eq_refl) Hin).
    + apply IHL; [intros y Hy; apply Hd; now right|].
      exact (proj2 (proj1 (List.NoDup_cons_iff x L) HL)).
Qed.

End Building.
(** ** What the passes log *)

Lemma destroyed1_app l1 l2 : destroyed1 (l1 ++ l2) = destroyed1 l1 ++ destroyed1 l2.
Proof. unfold destroyed1. apply flat_map_app. Qed.

Lemma destroyed1_visits1 L : destroyed1 (visits1 L) = L.
Proof. induction L as [|a L IH]; simpl; [reflexivity|]. f_equal. exact IH. Qed.

Lemma destroyed1_check_block ok L : destroyed1 (check_block ok L).1 = [].
Proof.
  induction L as [|a L IH]; simpl; [reflexivity|].
  destruct (ok a); simpl; [exact IH | reflexivity].
Qed.

Lemma destroyed1_check_sweep ok top : forall Ls, destroyed1 (check_sweep ok top Ls).1 = [].
Proof.
  induction top as [|b prev IH]; intros [|L Ls]; simpl; try reflexivity.
  destruct (check_block ok L).2 eqn:Hc; simpl.
  - rewrite destroyed1_app, destroyed1_check_block. simpl. apply IH.
  - apply destroyed1_check_block.
Qed.

Lemma destroyed1_sweep bld w top : forall Ls limit,
  blocks_wf bld w limit top Ls -> destroyed1 (sweep visits1 top Ls) = concat Ls.
Proof.
  induction top as [|b prev IH]; intros [|L Ls] limit H; simpl in H; try contradiction.
  - reflexivity.
  - destruct H as (_ & _ & _ & _ & _ & Hprev). simpl.
    rewrite destroyed1_app, destroyed1_visits1. simpl. f_equal. exact (IH _ _ Hprev).
Qed.

(** *** The second pass, property by property *)









(** ** Teardown of a pool *)

Section Teardown.

Variable bld : build.
Hypothesis Htarget : pool_target bld.
Variable univ0 : list Z.

Lemma pool_wf_NoDup pool w addrs Ls :
  pool_wf bld univ0 pool w addrs Ls -> List.NoDup addrs.
Proof.
  intros (_ & Hb & Hc & _).
  pose proof (blocks_wf_NoDup bld Htarget w _ _ _ Hb) as H. rewrite Hc in H.
  apply NoDup_rev in H. now rewrite rev_involutive in H.
Qed.

(** With the checks on, the first pass enters every object, newest
    first, and releases nothing; the second pass follows. *)
Lemma Pool_dtor_checked pool w addrs Ls :
  checked bld w -> pool_wf bld univ0 pool w addrs Ls ->
  exists w1 w2,
    Destroy bld (top_ pool) true w = Ok tt w1 /\
    log w1 = log w ++ visits1 (rev addrs) /\ allocs w1 = allocs w /\
    blocks_wf bld w1 (brk w) (top_ pool) Ls /\
    Pool_dtor bld pool w
    = (if (check_sweep (settled (mem w1)) (top_ pool) Ls).2
       then Ok {| top_ := [] |} w2 else Fatal outstanding w2) /\
    log w2 = log w1 ++ (check_sweep (settled (mem w1)) (top_ pool) Ls).1.
Proof.
  intros Hchk (_ & Hb & Hc & _ & _ & Hr).
  destruct (Destroy_pass1 bld (rev addrs ++ univ0) (top_ pool) Ls (brk w) w Hchk Hb
              (Hr (proj1 Hchk)))
    as (w1 & Hd1 & He1 & Hbrk1 & Hal1 & Hlog1 & _ & Hsh1).
  { intros a Ha. rewrite Hc in Ha. apply in_or_app. now left. }
  assert (Hb1 : blocks_wf bld w1 (brk w) (top_ pool) Ls)
    by (apply (blocks_wf_shape bld w); assumption).
  assert (Hchk1 : checked bld w1) by (split; [exact (proj1 Hchk) | exact He1]).
  destruct (Destroy_pass2 bld (top_ pool) Ls (brk w) w1 Hchk1 Hb1) as (w2 & Hd2 & Hlog2).
  exists w1, w2. split; [exact Hd1|]. split; [now rewrite Hlog1, Hc|].
  split; [exact Hal1|]. split; [exact Hb1|]. split; [|exact Hlog2].
  unfold Pool_dtor. unfold bind at 1. rewrite Hd1.
  unfold bind at 1. rewrite (proj1 Hchk). unfold bind at 1. unfold exiting.
  rewrite He1. simpl. rewrite Hd2. unfold outstanding.
  now destruct (check_sweep (settled (mem w1)) (top_ pool) Ls).2.
Qed.

(** With the checks off there is one pass, which releases each block
    after its objects. *)
Lemma Pool_dtor_quiet pool w addrs Ls :
  quiet bld w -> pool_wf bld univ0 pool w addrs Ls ->
  exists w1,
    Destroy bld (top_ pool) true w = Ok tt w1 /\
    Pool_dtor bld pool w = Ok {| top_ := [] |} w1 /\
    log w1 = log w ++ sweep visits1 (top_ pool) Ls.
Proof.
  intros Hq (_ & Hb & _).
  destruct (Destroy_single bld Htarget (top_ pool) Ls (brk w) w true Hq Hb)
    as (w1 & Hd1 & He1 & Hlog1).
  exists w1. split; [exact Hd1|]. split; [|exact Hlog1].
  unfold Pool_dtor. unfold bind at 1. rewrite Hd1. unfold bind at 1.
  destruct Hq as [Hu | Hex].
  - now rewrite Hu.
  - destruct (MEMORY_SAFE bld); [|reflexivity].
    unfold bind at 1. unfold exiting. rewrite He1, Hex. reflexivity.
Qed.

(** In either mode the objects are entered newest first, each once. *)
Lemma teardown_newest_first pool w addrs Ls :
  pool_wf bld univ0 pool w addrs Ls ->
  exists w1 l,
    Destroy bld (top_ pool) true w = Ok tt w1 /\
    log w1 = log w ++ l /\ destroyed1 l = rev addrs /\
    exists l', events (Pool_dtor bld pool w) = Some (log w ++ l') /\
               destroyed1 l' = rev addrs.
Proof.
  intros Hwf. destruct (checked_or_quiet bld w) as [Hchk | Hq].
  - destruct (Pool_dtor_checked pool w addrs Ls Hchk Hwf)
      as (w1 & w2 & Hd1 & Hlog1 & _ & _ & Hp & Hlog2).
    exists w1, (visits1 (rev addrs)). split; [exact Hd1|]. split; [exact Hlog1|].
    split; [apply destroyed1_visits1|].
    exists (visits1 (rev addrs) ++ (check_sweep (settled (mem w1)) (top_ pool) Ls).1).
    split.
    + rewrite Hp. rewrite app_assoc, <- Hlog1, <- Hlog2.
      now destruct (check_sweep (settled (mem w1)) (top_ pool) Ls).2.
    + rewrite destroyed1_app, destroyed1_visits1, destroyed1_check_sweep. apply app_nil_r.
  - destruct (Pool_dtor_quiet pool w addrs Ls Hq Hwf) as (w1 & Hd1 & Hp & Hlog1).
    destruct Hwf as (_ & Hb & Hc & _).
    exists w1, (sweep visits1 (top_ pool) Ls). split; [exact Hd1|]. split; [exact Hlog1|].
    rewrite (destroyed1_sweep bld w _ _ _ Hb), Hc. split; [reflexivity|].
    exists (sweep visits1 (top_ pool) Ls). rewrite Hp. simpl. rewrite Hlog1.
    split; [reflexivity|]. now rewrite (destroyed1_sweep bld w _ _ _ Hb).
Qed.

End Teardown.
(** ** The claims about teardown *)

Lemma target64 (m e : bool) : pool_target {| MEMORY_SAFE := m; EXTRA_SAFE := e; sizeof_ptr := 8 |}.
Proof. unfold pool_target. simpl. lia. Qed.

Lemma not_escaped_same_log n w d p w' :
  log w' = log w -> ~ escaped n w (Ok (d, p) w').
Proof.
  intros Hl (l1 & l2 & H). rewrite Hl in H. exact (log_grows_not _ _ _ _ H).
Qed.

(** The pool of two objects is one that a program builds. *)
Lemma pair_built : built safe64 [] pair_pool (pair_world 1) [12264; 12240].
Proof.
  assert (B0 : built safe64 [] {| top_ := [fresh_block fresh_world] |}
                 (allocated BlockSize fresh_world) []).
  { apply (built_ctor safe64 [] fresh_world); [|reflexivity].
    split; [reflexivity|]. split; [intros a []|].
    intros _. split; [constructor | intros a []]. }
  assert (B1 : built safe64 [] single_pool single_world ([] ++ [12264])).
  { apply (built_new safe64 [] _ _ [] 24 [] 12264 single_pool single_world B0).
    - lia.
    - intros t [].
    - vm_compute. reflexivity.
    - assert (Ha : Alloc safe64 3 24 {| top_ := [fresh_block fresh_world] |}
                     (allocated BlockSize fresh_world)
                   = Ok (12264, single_pool) (allocated BlockSize fresh_world))
        by (vm_compute; reflexivity).
      rewrite Ha. now apply not_escaped_same_log.
    - intros t c []. }
  change [12264; 12240] with (([] ++ [12264]) ++ [12240]).
  apply (built_new safe64 [] _ _ _ 24 [12264] 12240 pair_pool (pair_world 1) B1).
  - lia.
  - intros t [<- | []]. right. left. now left.
  - vm_compute. reflexivity.
  - assert (Ha : Alloc safe64 3 24 single_pool single_world
                 = Ok (12240, pair_pool) single_world) by (vm_compute; reflexivity).
    rewrite Ha. now apply not_escaped_same_log.
  - intros t c [<- | []] Hc. vm_compute in Hc. injection Hc as <-. lia.
Qed.

(** C3, as worded: the first pass would enter the objects in the order
    of their allocation.  It does not: of two objects in a block it
    enters the second one first. *)
Lemma C3_phase1_reverse_order : ~ phase1_in_allocation_order safe64.
Proof.
  intros H.
  destruct (built_wf safe64 (target64 true false) [] _ _ _ pair_built) as [Ls Hwf].
  destruct (teardown_newest_first safe64 (target64 true false) [] _ _ _ _ Hwf)
    as (w1 & l & Hd & Hl & Hd1 & _).
  destruct (H [] pair_pool (pair_world 1) [12264; 12240] w1 pair_built Hd)
    as (l' & Hl' & Hd').
  rewrite Hl in Hl'. apply app_inv_head in Hl'. subst l'.
  rewrite Hd1 in Hd'. discriminate.
Qed.

(** C3, amended: in the teardown of a pool none of whose requests
    escaped, the first pass walks the blocks from the newest to the
    oldest and each block from [first_] to its end, object by object,
    and enters [_Destroy1] on every object exactly once, in the reverse
    of the order of allocation; no later step of the teardown enters
    [_Destroy1] again. *)
Theorem C3_phase1_newest_first bld univ0 pool w addrs :
  pool_target bld -> built bld univ0 pool w addrs ->
  List.NoDup addrs /\
  exists Ls,
    blocks_wf bld w (brk w) (top_ pool) Ls /\ concat Ls = rev addrs /\
    exists w1 l,
      Destroy bld (top_ pool) true w = Ok tt w1 /\
      log w1 = log w ++ l /\ destroyed1 l = concat Ls /\
      exists l', events (Pool_dtor bld pool w) = Some (log w ++ l') /\
                 destroyed1 l' = rev addrs.
Proof.
  intros Ht Hb. destruct (built_wf bld Ht univ0 pool w addrs Hb) as [Ls Hwf].
  split; [exact (pool_wf_NoDup bld Ht univ0 pool w addrs Ls Hwf)|].
  exists Ls. split; [exact (proj1 (proj2 Hwf))|].
  pose proof (proj1 (proj2 (proj2 Hwf))) as Hc. split; [exact Hc|].
  destruct (teardown_newest_first bld Ht univ0 pool w addrs Ls Hwf)
    as (w1 & l & Hd & Hl & Hd1 & Hex).
  exists w1, l. split; [exact Hd|]. split; [exact Hl|]. split; [now rewrite Hc | exact Hex].
Qed.

Lemma C3_phase1_newest_first_witness :
  List.NoDup [12264; 12240] /\
  exists Ls,
    blocks_wf safe64 (pair_world 1) (brk (pair_world 1)) (top_ pair_pool) Ls /\
    concat Ls = rev [12264; 12240] /\
    exists w1 l,
      Destroy safe64 (top_ pair_pool) true (pair_world 1) = Ok tt w1 /\
      log w1 = log (pair_world 1) ++ l /\ destroyed1 l = concat Ls /\
      exists l', events (Pool_dtor safe64 pair_pool (pair_world 1))
                 = Some (log (pair_world 1) ++ l') /\
                 destroyed1 l' = rev [12264; 12240].
Proof.
  apply (C3_phase1_newest_first safe64 [] pair_pool (pair_world 1) [12264; 12240]).
  - unfold pool_target. simpl. lia.
  - exact pair_built.
Defined.

(** The teardown of the pool of two objects, event by event. *)
Example pair_teardown :
  events (Pool_dtor safe64 pair_pool (pair_world 1))
  = Some [EvAlloc 4096 8192; EvNew 12264; EvNew 12240;
          EvDestroy1 12240; EvDtor 12240; EvDestroy1 12264; EvDtor 12264;
          EvDestroy2 12240; EvDestroy2 12264; EvFree 4096].
Proof. vm_compute. reflexivity. Qed.


Lemma visits1_no_Destroy2 a L : ~ In (EvDestroy2 a) (visits1 L).
Proof.
  induction L as [|x L IH]; simpl; [tauto|].
  intros [H | [H | H]]; [discriminate | discriminate | now apply IH].
Qed.





(** A handle from outside the pool that outlives it: the count of the
    first object settles one above the sentinel and the second pass ends
    the run, before the block is released. *)
Example pair_teardown_outstanding :
  Ptr_Init safe64 12264 (pair_world 1) = Ok 12264 (pair_world 2) /\
  exists w2, Pool_dtor safe64 pair_pool (pair_world 2) = Fatal outstanding w2 /\
    log w2 = [EvAlloc 4096 8192; EvNew 12264; EvNew 12240;
              EvDestroy1 12240; EvDtor 12240; EvDestroy1 12264; EvDtor 12264;
              EvDestroy2 12240] /\
    count_of (mem w2) 12264 = Some (PendingDestroy + 1) /\
    allocs w2 = allocs (pair_world 2).
Proof.
  split; [vm_compute; reflexivity|].
  eexists. split; [vm_compute; reflexivity|]. repeat split.
Qed.

(** * Further properties of the code *)

(** ** What the first pass does to the counts *)


Section Tracking.

Variable bld : build.
Hypothesis Hsafe : MEMORY_SAFE bld = true.






End Tracking.

(** ** The slack of the counts through the first pass *)








Section Group.

Variable bld : build.
Variables univ P : list Z.
Hypothesis HP : List.NoDup P.
Hypothesis HPu : forall x, In x P -> In x univ.



End Group.

(** ** Teardown and references from outside the pool *)



Lemma cycle_wf : pool_wf safe64 [] pair_pool cycle_world [12264; 12240] [[12240; 12264]].
Proof.
  split; [discriminate|]. split.
  - simpl. split; [unfold block_ok, data_, BlockSize; simpl; lia|].
    split; [lia|]. split; [unfold BlockSize; lia|]. split; [reflexivity|].
    split; [|exact I].
    split; [reflexivity|]. exists 24. split; [reflexivity|]. split; [lia|].
    split; [reflexivity|]. exists 24. split; [reflexivity|]. split; [lia|]. reflexivity.
  - split; [reflexivity|]. split; [simpl; lia|]. split; [intros a []|].
    intros _. split.
    + simpl. constructor; [simpl; intros [H | []]; discriminate|].
      constructor; [intros [] | constructor].
    + intros a [<- | [<- | []]]; (split; [discriminate|]); split.
      * exists 1. split; [reflexivity|]. split; [left; unfold plain; lia|].
        vm_compute. discriminate.
      * intros t [<- | []]. right. simpl. tauto.
      * exists 1. split; [reflexivity|]. split; [left; unfold plain; lia|].
        vm_compute. discriminate.
      * intros t [<- | []]. right. simpl. tauto.
Qed.


(** The teardown of the two objects that point to each other, and of
    the same two when a handle from outside holds the first. *)
Example cycle_teardown :
  events (Pool_dtor safe64 pair_pool cycle_world)
  = Some [EvDestroy1 12240; EvDtor 12240; EvDestroy1 12264; EvDtor 12264;
          EvDestroy2 12240; EvDestroy2 12264; EvFree 4096].
Proof. vm_compute. reflexivity. Qed.

(** ** The blocks that a teardown releases *)

Lemma freed_app l1 l2 : freed (l1 ++ l2) = freed l1 ++ freed l2.
Proof. unfold freed. apply flat_map_app. Qed.

Lemma freed_visits1 L : freed (visits1 L) = [].
Proof. induction L as [|a L IH]; simpl; [reflexivity | exact IH]. Qed.

Lemma freed_check_block ok L : freed (check_block ok L).1 = [].
Proof.
  induction L as [|a L IH]; simpl; [reflexivity|].
  destruct (ok a); simpl; [exact IH | reflexivity].
Qed.

Lemma freed_sweep bld w top : forall Ls limit,
  blocks_wf bld w limit top Ls -> freed (sweep visits1 top Ls) = map base top.
Proof.
  induction top as [|b prev IH]; intros [|L Ls] limit H; simpl in H; try contradiction.
  - reflexivity.
  - destruct H as (_ & _ & _ & _ & _ & Hprev). simpl.
    rewrite freed_app, freed_visits1. simpl. f_equal. exact (IH _ _ Hprev).
Qed.

Lemma freed_check_sweep bld w ok top : forall Ls limit,
  blocks_wf bld w limit top Ls -> (check_sweep ok top Ls).2 = true ->
  freed (check_sweep ok top Ls).1 = map base top.
Proof.
  induction top as [|b prev IH]; intros [|L Ls] limit H Hok; simpl in H; try contradiction.
  - reflexivity.
  - destruct H as (_ & _ & _ & _ & _ & Hprev). simpl in Hok |- *.
    destruct (check_block ok L).2 eqn:Hc; simpl in Hok |- *; [|discriminate].
    rewrite freed_app, freed_check_block. simpl. f_equal. exact (IH _ _ Hprev Hok).
Qed.

Lemma blocks_wf_bases bld w top : forall Ls limit,
  blocks_wf bld w limit top Ls ->
  List.NoDup (map base top) /\ forall x, In x (map base top) -> x < limit.
Proof.
  induction top as [|b prev IH]; intros [|L Ls] limit H; simpl in H; try contradiction.
  - split; [constructor | intros x []].
  - destruct H as (_ & _ & Hlim & _ & _ & Hprev).
    destruct (IH _ _ Hprev) as [Hnd Hlt].
    assert (HBS : BlockSize = 8192) by reflexivity.
    split.
    + simpl. constructor; [|exact Hnd]. intros Hin. specialize (Hlt _ Hin). lia.
    + intros x [<- | Hx]; [lia|]. specialize (Hlt _ Hx). lia.
Qed.

(** X2: When the process is exiting, and in a build without [MEMORY_SAFE],
    the teardown of a pool whose blocks hold its objects and nothing
    else, which is every pool none of whose requests escaped, is one
    pass that cannot fail: every object is entered once, newest first,
    every block is released once, right after its objects, and no count
    is looked at, whoever still refers to the objects.  A pool that
    served an escaping request is not covered: its block holds the
    [_Own<Object>] of the escaped storage, and its teardown is undefined
    in every build. *)
Theorem teardown_unchecked_single_pass bld pool w limit Ls :
  pool_target bld -> quiet bld w -> blocks_wf bld w limit (top_ pool) Ls ->
  exists w1,
    Pool_dtor bld pool w = Ok {| top_ := [] |} w1 /\
    log w1 = log w ++ sweep visits1 (top_ pool) Ls /\
    destroyed1 (sweep visits1 (top_ pool) Ls) = concat Ls /\
    freed (sweep visits1 (top_ pool) Ls) = map base (top_ pool) /\
    (forall a, ~ In (EvDestroy2 a) (sweep visits1 (top_ pool) Ls)).
Proof.
  intros Ht Hq Hb.
  destruct (Destroy_single bld Ht (top_ pool) Ls limit w true Hq Hb)
    as (w1 & Hd1 & He1 & Hlog1).
  exists w1. split.
  { unfold Pool_dtor. unfold bind at 1. rewrite Hd1. unfold bind at 1.
    destruct Hq as [Hu | Hex].
    - now rewrite Hu.
    - destruct (MEMORY_SAFE bld); [|reflexivity].
      unfold bind at 1. unfold exiting. rewrite He1, Hex. reflexivity. }
  split; [exact Hlog1|].
  split; [exact (destroyed1_sweep bld w _ _ _ Hb)|].
  split; [exact (freed_sweep bld w _ _ _ Hb)|].
  clear. revert Ls. induction (top_ pool) as [|b prev IH]; intros [|L Ls] a; simpl; try tauto.
  rewrite in_app_iff. intros [H | [H | H]]; [|discriminate|exact (IH Ls a H)].
  exact (visits1_no_Destroy2 a L H).
Qed.

Lemma teardown_unchecked_single_pass_witness :
  exists w1,
    Pool_dtor safe64 pair_pool (now_exiting (pair_world 5)) = Ok {| top_ := [] |} w1 /\
    log w1 = log (pair_world 5) ++
             [EvDestroy1 12240; EvDtor 12240; EvDestroy1 12264; EvDtor 12264; EvFree 4096].
Proof.
  destruct (teardown_unchecked_single_pass safe64 pair_pool (now_exiting (pair_world 5))
              12288 [[12240; 12264]]) as (w1 & Hp & Hl & _).
  - unfold pool_target. simpl. lia.
  - right. reflexivity.
  - simpl. split; [unfold block_ok, data_, BlockSize; simpl; lia|].
    split; [lia|]. split; [unfold BlockSize; lia|]. split; [reflexivity|].
    split; [|exact I].
    split; [reflexivity|]. exists 24. split; [reflexivity|]. split; [lia|].
    split; [reflexivity|]. exists 24. split; [reflexivity|]. split; [lia|]. reflexivity.
  - exists w1. split; [exact Hp | exact Hl].
Defined.

(** X3: A teardown that returns has released every block of the pool, each
    once and the newest first, in whichever mode it ran. *)
Theorem teardown_releases_each_block_once bld univ0 pool w addrs Ls p w2 :
  pool_target bld -> pool_wf bld univ0 pool w addrs Ls ->
  Pool_dtor bld pool w = Ok p w2 ->
  p = {| top_ := [] |} /\
  List.NoDup (map base (top_ pool)) /\
  exists l, log w2 = log w ++ l /\ freed l = map base (top_ pool).
Proof.
  intros Ht Hwf Hrun.
  pose proof (proj1 (proj2 Hwf)) as Hb.
  split; [|split; [exact (proj1 (blocks_wf_bases bld w _ _ _ Hb))|]].
  - unfold Pool_dtor, bind in Hrun.
    destruct (Destroy bld (top_ pool) true w) as [[] w1| | |]; try discriminate.
    destruct (MEMORY_SAFE bld); [|now injection Hrun as <-].
    unfold exiting in Hrun. destruct (negb (_exiting w1)).
    + destruct (Destroy bld (top_ pool) false w1) as [[] w3| | |]; try discriminate.
      now injection Hrun as <-.
    + now injection Hrun as <-.
  - destruct (checked_or_quiet bld w) as [Hchk | Hq].
    + destruct (Pool_dtor_checked bld univ0 pool w addrs Ls Hchk Hwf)
        as (w1 & w2' & Hd1 & Hlog1 & _ & Hb1 & Hp & Hlog2).
      rewrite Hp in Hrun.
      destruct (check_sweep (settled (mem w1)) (top_ pool) Ls).2 eqn:Hok; [|discriminate].
      injection Hrun as _ <-.
      exists (visits1 (rev addrs) ++ (check_sweep (settled (mem w1)) (top_ pool) Ls).1).
      split; [now rewrite Hlog2, Hlog1, <- app_assoc|].
      rewrite freed_app, freed_visits1. simpl.
      exact (freed_check_sweep bld w1 _ _ _ _ Hb1 Hok).
    + destruct (Pool_dtor_quiet bld Ht univ0 pool w addrs Ls Hq Hwf) as (w1 & _ & Hp & Hlog1).
      rewrite Hp in Hrun. injection Hrun as _ <-.
      exists (sweep visits1 (top_ pool) Ls). split; [exact Hlog1|].
      exact (freed_sweep bld w _ _ _ Hb).
Qed.

Lemma teardown_releases_each_block_once_witness :
  exists w2, Pool_dtor safe64 pair_pool cycle_world = Ok {| top_ := [] |} w2 /\
    exists l, log w2 = log cycle_world ++ l /\ freed l = [4096].
Proof.
  destruct (Pool_dtor safe64 pair_pool cycle_world) as [p w2| | |] eqn:Hrun;
    try (vm_compute in Hrun; discriminate).
  destruct (teardown_releases_each_block_once safe64 [] pair_pool cycle_world
              [12264; 12240] [[12240; 12264]] p w2) as (-> & _ & Hl).
  - unfold pool_target. simpl. lia.
  - exact cycle_wf.
  - exact Hrun.
  - exists w2. split; [reflexivity | exact Hl].
Defined.

(** ** Where the objects of a pool lie *)

Lemma chain_extent m e L : forall p,
  chain m p e L ->
  forall a, In a L -> exists n, shape_at m a = Some (KGel, n) /\ 0 < n /\ p <= a /\ a + n <= e.
Proof.
  induction L as [|x rest IH]; intros p H a Ha; [contradiction|].
  simpl in H. destruct H as (-> & n & Hsh & Hn & Hrest).
  pose proof (chain_le _ _ _ _ Hrest) as Hle.
  destruct Ha as [<- | Ha].
  - exists n. repeat split; try assumption; lia.
  - destruct (IH _ Hrest a Ha) as (n' & Hsh' & Hn' & Hlo & Hhi).
    exists n'. repeat split; try assumption; lia.
Qed.

Lemma chain_apart m e L : forall p,
  chain m p e L ->
  forall a1 a2 r1 r2, In a1 L -> In a2 L -> a1 <> a2 ->
    extent m a1 = Some r1 -> extent m a2 = Some r2 -> apart r1 r2.
Proof.
  induction L as [|x rest IH]; intros p H a1 a2 r1 r2 H1 H2 Hne E1 E2; [contradiction|].
  simpl in H. destruct H as (-> & n & Hsh & Hn & Hrest).
  assert (Hhead : forall a r, In a rest -> extent m a = Some r ->
            forall r0, extent m p = Some r0 -> r0.2 <= r.1).
  { intros a r Ha Ea r0 E0. unfold extent in Ea, E0. rewrite Hsh in E0. injection E0 as <-.
    destruct (shape_at m a) as [[k na]|]; [|discriminate]. injection Ea as <-. simpl.
    pose proof (chain_bounds _ _ _ _ Hrest a Ha). lia. }
  destruct H1 as [<- | H1], H2 as [<- | H2].
  - contradiction.
  - left. exact (Hhead a2 r2 H2 E2 r1 E1).
  - right. exact (Hhead a1 r1 H1 E1 r2 E2).
  - exact (IH _ Hrest a1 a2 r1 r2 H1 H2 Hne E1 E2).
Qed.

Section Extents.

Variable bld : build.
Hypothesis Htarget : pool_target bld.

Lemma blocks_extent w top : forall Ls limit,
  blocks_wf bld w limit top Ls ->
  forall a, In a (concat Ls) ->
    exists b n, In b top /\ shape_at (mem w) a = Some (KGel, n) /\ 0 < n /\
      data_ bld b <= a /\ a + n <= base b + BlockSize /\
      base b + BlockSize <= limit /\ allocs w !! base b = Some BlockSize.
Proof.
  induction top as [|b prev IH]; intros [|L Ls] limit H a Ha; try contradiction.
  simpl in H, Ha. destruct H as (Hok & Hpos & Hlim & Hal & Hch & Hprev).
  apply in_app_or in Ha. destruct Ha as [Ha | Ha].
  - destruct (chain_extent _ _ _ _ Hch a Ha) as (n & Hsh & Hn & Hlo & Hhi).
    exists b, n. destruct Hok as [Hd _].
    split; [now left|]. repeat split; try assumption; lia.
  - destruct (IH Ls _ Hprev a Ha) as (b' & n & Hin & Hsh & Hn & Hlo & Hhi & Hl & Hal').
    exists b', n. split; [now right|]. repeat split; try assumption.
    unfold BlockSize in *. lia.
Qed.

Lemma blocks_apart w top : forall Ls limit,
  blocks_wf bld w limit top Ls ->
  forall a1 a2 r1 r2, In a1 (concat Ls) -> In a2 (concat Ls) -> a1 <> a2 ->
    extent (mem w) a1 = Some r1 -> extent (mem w) a2 = Some r2 -> apart r1 r2.
Proof.
  induction top as [|b prev IH]; intros [|L Ls] limit H a1 a2 r1 r2 H1 H2 Hne E1 E2;
    try contradiction.
  simpl in H, H1, H2. destruct H as (Hok & Hpos & Hlim & Hal & Hch & Hprev).
  assert (Hcross : forall a r a' r', In a L -> In a' (concat Ls) ->
            extent (mem w) a = Some r -> extent (mem w) a' = Some r' -> r'.2 <= r.1).
  { intros a r a' r' Ha Ha' Ea Ea'.
    destruct (blocks_extent w prev Ls _ Hprev a' Ha') as (b' & n' & _ & Hsh' & _ & _ & Hhi & Hl & _).
    pose proof (chain_bounds _ _ _ _ Hch a Ha) as Hb.
    unfold extent in Ea, Ea'. rewrite Hsh' in Ea'. injection Ea' as <-.
    destruct (shape_at (mem w) a) as [[k n]|]; [|discriminate]. injection Ea as <-. simpl.
    destruct Hok as [Hd _]. unfold data_ in Hd. destruct Htarget. lia. }
  apply in_app_or in H1. apply in_app_or in H2.
  destruct H1 as [H1 | H1], H2 as [H2 | H2].
  - exact (chain_apart _ _ _ _ Hch a1 a2 r1 r2 H1 H2 Hne E1 E2).
  - right. exact (Hcross a1 r1 a2 r2 H1 H2 E1 E2).
  - left. exact (Hcross a2 r2 a1 r1 H2 H1 E2 E1).
  - exact (IH Ls _ Hprev a1 a2 r1 r2 H1 H2 Hne E1 E2).
Qed.

End Extents.

(** X4: The objects that a program allocates from a pool by requests
    none of which escaped never overlap: each lies in one block of the
    pool, above the block's header and within the block's allocation,
    and any two of them occupy ranges of bytes that have nothing in
    common.  An object whose request escaped has storage of its own,
    outside the blocks, and is not covered. *)
Theorem pool_objects_never_overlap bld univ0 pool w addrs :
  pool_target bld -> built bld univ0 pool w addrs ->
  (forall a, In a addrs ->
     exists b n, In b (top_ pool) /\ shape_at (mem w) a = Some (KGel, n) /\ 0 < n /\
       data_ bld b <= a /\ a + n <= base b + BlockSize /\
       allocs w !! base b = Some BlockSize) /\
  (forall a1 a2 r1 r2, In a1 addrs -> In a2 addrs -> a1 <> a2 ->
     extent (mem w) a1 = Some r1 -> extent (mem w) a2 = Some r2 -> apart r1 r2).
Proof.
  intros Ht Hb. destruct (built_wf bld Ht univ0 pool w addrs Hb) as [Ls Hwf].
  destruct Hwf as (_ & Hbl & Hc & _).
  split.
  - intros a Ha. rewrite in_rev, <- Hc in Ha.
    destruct (blocks_extent bld w _ _ _ Hbl a Ha) as (b & n & H1 & H2 & H3 & H4 & H5 & _ & H7).
    exists b, n. now repeat split.
  - intros a1 a2 r1 r2 H1 H2. rewrite in_rev, <- Hc in H1, H2.
    exact (blocks_apart bld Ht w _ _ _ Hbl a1 a2 r1 r2 H1 H2).
Qed.

Lemma pool_objects_never_overlap_witness :
  apart (12264, 12288) (12240, 12264).
Proof.
  apply (proj2 (pool_objects_never_overlap safe64 [] pair_pool (pair_world 1)
                  [12264; 12240] (target64 true false) pair_built) 12264 12240).
  - now left.
  - right. now left.
  - discriminate.
  - reflexivity.
  - reflexivity.
Defined.

(** ** Small requests *)

(** X5: A request of at most [Threshold] bytes never gets storage of its
    own: it is served from the current block, or from a block that
    [Alloc] makes for it when the current one has less room. *)
Theorem small_requests_stay_in_blocks bld n b prev w :
  pool_target bld -> block_ok bld b -> 0 <= n <= Threshold ->
  ~ escaped n w (Alloc bld 3 n {| top_ := b :: prev |} w) /\
  (n <= free_bytes bld b /\
   Alloc bld 3 n {| top_ := b :: prev |} w
   = Ok (first_ b - n, {| top_ := bumped n b :: prev |}) w
   \/
   free_bytes bld b < n /\
   Alloc bld 3 n {| top_ := b :: prev |} w
   = Ok (first_ (fresh_block w) - n,
         {| top_ := bumped n (fresh_block w) :: b :: prev |}) (allocated BlockSize w)).
Proof.
  intros Ht Hok Hn.
  assert (Hesc : ~ escaped n w (Alloc bld 3 n {| top_ := b :: prev |} w)).
  { rewrite (Alloc_escaped_iff bld Ht 0 n b prev w Hok) by lia.
    unfold pool_target in Ht. unfold capacity, Threshold, BlockSize in *.
    intros [H1 [H2 | H2]]; lia. }
  split; [exact Hesc|].
  destruct (Alloc_in_block bld Ht n b prev w Hok ltac:(lia) Hesc)
    as [[H1 H2] | (H1 & _ & H2)]; [left | right]; now split.
Qed.

Lemma small_requests_stay_in_blocks_witness :
  ~ escaped 256 (allocated BlockSize fresh_world)
      (Alloc safe64 3 256 {| top_ := [bumped 8000 (fresh_block fresh_world)] |}
         (allocated BlockSize fresh_world)).
Proof.
  apply (small_requests_stay_in_blocks safe64 256 (bumped 8000 (fresh_block fresh_world)) []).
  - unfold pool_target. simpl. lia.
  - unfold block_ok, data_, bumped, fresh_block, fresh_world, BlockSize. simpl. lia.
  - unfold Threshold. lia.
Defined.

(** ** Handles that come and go *)

Lemma set_count_same o : set_count (count_ o) o = o.
Proof. now destruct o. Qed.

Lemma with_count_same a o w :
  mem w !! a = Some (CObj o) -> with_count a o (count_ o) w = w.
Proof.
  intros Hm. apply world_eq; try reflexivity.
  unfold with_count. simpl. rewrite set_count_same. now apply insert_id.
Qed.

Lemma with_count_back a o c c' w :
  with_count a (set_count c o) c' (with_count a o c w) = with_count a o c' w.
Proof.
  apply world_eq; try reflexivity. unfold with_count. simpl.
  now rewrite insert_insert_eq.
Qed.

Lemma with_count_swap a b oa ob ca cb w :
  a <> b ->
  with_count a oa ca (with_count b ob cb w) = with_count b ob cb (with_count a oa ca w).
Proof.
  intros Hne. apply world_eq; try reflexivity. unfold with_count. simpl.
  now apply insert_insert_ne.
Qed.

Section Handles.

Variable bld : build.

Lemma Ptr_Init_live p o w :
  MEMORY_SAFE bld = true -> p <> 0 -> mem w !! p = Some (CObj o) -> count_ o < INT_MAX ->
  Ptr_Init bld p w = Ok p (with_count p o (count_ o + 1) w).
Proof.
  intros Hs Hp Hm Hc. unfold Ptr_Init. destruct (Z.eqb_spec p 0); [contradiction|].
  unfold bind. now rewrite (_PtrInc_spec bld p o w Hs Hm Hc).
Qed.

Lemma Ptr_dtor_live p o w :
  MEMORY_SAFE bld = true -> _exiting w = false -> p <> 0 ->
  mem w !! p = Some (CObj o) -> 0 < count_ o ->
  Ptr_dtor bld p w = Ok tt (with_count p o (count_ o - 1) w).
Proof. intros Hs He Hp Hm Hc. now apply Ptr_dtor_diag. Qed.

Lemma Ptr_assign_live p_ p o_ o w :
  MEMORY_SAFE bld = true -> p_ <> 0 -> p <> 0 -> p <> p_ ->
  mem w !! p_ = Some (CObj o_) -> mem w !! p = Some (CObj o) ->
  0 < count_ o_ -> count_ o < INT_MAX ->
  Ptr_assign bld p_ p w
  = Ok (p, p) (with_count p o (count_ o + 1) (with_count p_ o_ (count_ o_ - 1) w)).
Proof.
  intros Hs Hp_ Hp Hne Hm_ Hm Hc_ Hc. unfold Ptr_assign.
  destruct (Z.eqb_spec p p_); [contradiction|].
  destruct (Z.eqb_spec p_ 0); [contradiction|].
  destruct (Z.eqb_spec p 0); [contradiction|].
  unfold bind at 1.
  rewrite (_PtrDec_spec bld p_ o_ w Hs Hm_) by (unfold INT_MIN; lia).
  replace (EXTRA_SAFE bld && negb (0 <? count_ o_)) with false
    by (destruct (Z.ltb_spec 0 (count_ o_)); [now rewrite andb_false_r | lia]).
  unfold bind at 1.
  rewrite (_PtrInc_spec bld p o _ Hs); [reflexivity | | exact Hc].
  unfold with_count. simpl. now rewrite lookup_insert_ne by congruence.
Qed.

End Handles.

(** X6: In a build with [MEMORY_SAFE], while the process is not exiting, a
    [_Ptr] leaves no trace: making one and destroying it puts the store
    back as it was, and so does assigning it from one object to another
    and back.  In between, the assignment has taken one off the count of
    the old target and added one to the count of the new. *)
Theorem Ptr_handle_round_trip bld p_ p o_ o w :
  MEMORY_SAFE bld = true -> _exiting w = false ->
  p_ <> 0 -> p <> 0 -> p <> p_ ->
  mem w !! p_ = Some (CObj o_) -> mem w !! p = Some (CObj o) ->
  0 < count_ o_ <= INT_MAX -> 0 <= count_ o < INT_MAX ->
  (Ptr_Init bld p ;; Ptr_dtor bld p) w = Ok tt w /\
  exists w1,
    Ptr_assign bld p_ p w = Ok (p, p) w1 /\
    count_at p_ w1 = Some (count_ o_ - 1) /\ count_at p w1 = Some (count_ o + 1) /\
    (forall x, x <> p_ -> x <> p -> mem w1 !! x = mem w !! x) /\
    Ptr_assign bld p p_ w1 = Ok (p_, p_) w.
Proof.
  intros Hs He Hp_ Hp Hne Hm_ Hm Hc_ Hc. split.
  - unfold bind. rewrite (Ptr_Init_live bld p o w Hs Hp Hm) by lia.
    rewrite (Ptr_dtor_live bld p (set_count (count_ o + 1) o)); try assumption.
    + simpl. rewrite with_count_back. replace (count_ o + 1 - 1) with (count_ o) by lia.
      now rewrite with_count_same.
    + apply mem_with_count.
    + simpl. lia.
  - set (w0 := with_count p_ o_ (count_ o_ - 1) w).
    set (w1 := with_count p o (count_ o + 1) w0).
    exists w1. split; [apply Ptr_assign_live; (assumption || lia)|].
    split.
    { unfold count_at, w1, w0, with_count. simpl.
      rewrite lookup_insert_ne by congruence. now rewrite lookup_insert_eq. }
    split; [apply count_at_with_count|].
    split.
    { intros x Hx_ Hx. unfold w1, w0, with_count. simpl.
      now rewrite !lookup_insert_ne by congruence. }
    rewrite (Ptr_assign_live bld p p_ (set_count (count_ o + 1) o)
               (set_count (count_ o_ - 1) o_) w1); try assumption; try congruence.
    + f_equal. simpl. unfold w1, w0.
      rewrite with_count_back.
      rewrite (with_count_swap p p_) by congruence.
      rewrite with_count_back.
      replace (count_ o + 1 - 1) with (count_ o) by lia.
      replace (count_ o_ - 1 + 1) with (count_ o_) by lia.
      rewrite (with_count_same p o) by assumption.
      now apply with_count_same.
    + apply mem_with_count.
    + unfold w1, w0, with_count. simpl. rewrite lookup_insert_ne by congruence.
      apply lookup_insert_eq.
    + simpl. unfold INT_MAX in *. lia.
    + simpl. unfold INT_MAX in *. lia.
Qed.

Lemma Ptr_handle_round_trip_witness :
  (Ptr_Init safe64 12240 ;; Ptr_dtor safe64 12240) (pair_world 1) = Ok tt (pair_world 1) /\
  exists w1,
    Ptr_assign safe64 12264 12240 (pair_world 1) = Ok (12240, 12240) w1 /\
    count_at 12264 w1 = Some 0 /\ count_at 12240 w1 = Some 1 /\
    Ptr_assign safe64 12240 12264 w1 = Ok (12264, 12264) (pair_world 1).
Proof.
  destruct (Ptr_handle_round_trip safe64 12264 12240
              {| vptr := KGel; count_ := 1; sizeof_ := 24; obody := Gel [] |}
              {| vptr := KGel; count_ := 0; sizeof_ := 24; obody := Gel [12264] |}
              (pair_world 1)) as [H1 (w1 & H2 & H3 & H4 & _ & H5)];
    try reflexivity; try discriminate; try (simpl; unfold INT_MAX; lia).
  split; [exact H1|]. exists w1. now repeat split.
Defined.

(** ** The handles of [Object]: owned, or counted when it is a string *)

Section Dispatch.

Variable bld : build.




End Dispatch.



(** * Strings *)

Lemma obind_Val {A B} (m : outcome A) (k : A -> outcome B) a :
  m = Val a -> obind m k = k a.
Proof. now intros ->. Qed.

Lemma to_int_small z : 0 <= z <= INT_MAX -> to_int z = z.
Proof.
  intros H. unfold to_int, INT_MAX in *.
  rewrite Z.mod_small by lia. lia.
Qed.

Lemma as_int_Val z : INT_MIN <= z <= INT_MAX -> as_int z = Val z.
Proof.
  intros [H1 H2]. unfold as_int.
  destruct (Z.leb_spec INT_MIN z); [|lia]. destruct (Z.leb_spec z INT_MAX); [|lia]. reflexivity.
Qed.

Lemma as_int_Undef z : z < INT_MIN \/ INT_MAX < z -> as_int z = Undef.
Proof.
  intros H. unfold as_int.
  destruct (Z.leb_spec INT_MIN z); [|reflexivity].
  destruct (Z.leb_spec z INT_MAX); [lia | reflexivity].
Qed.

Lemma wcslen_text cs rest :
  Forall (fun c => c <> 0) cs -> wcslen (cs ++ 0 :: rest) = Val (Z.of_nat (length cs)).
Proof.
  induction 1 as [|c cs Hc _ IH]; [reflexivity|].
  cbn [app wcslen]. destruct (Z.eqb_spec c 0); [contradiction|].
  rewrite IH. cbn [obind length]. f_equal. lia.
Qed.

Lemma String_of_text cs rest :
  Forall (fun c => c <> 0) cs -> Z.of_nat (length cs) <= INT_MAX ->
  String_of (cs ++ 0 :: rest)
  = Val {| s_ := cs ++ 0 :: rest; length_ := Z.of_nat (length cs) |} /\
  text_of {| s_ := cs ++ 0 :: rest; length_ := Z.of_nat (length cs) |} cs.
Proof.
  intros Hnz Hlen. split.
  - unfold String_of. rewrite (wcslen_text cs rest Hnz). cbn [obind].
    now rewrite to_int_small by lia.
  - split; [exact Hnz|]. split; [now exists rest|]. now split.
Qed.

Lemma text_of_unique str cs1 cs2 : text_of str cs1 -> text_of str cs2 -> cs1 = cs2.
Proof.
  intros (Hn1 & [r1 H1] & _) (Hn2 & [r2 H2] & _). rewrite H1 in H2. clear H1.
  revert cs2 Hn2 H2. induction Hn1 as [|c cs Hc _ IH]; intros cs2 Hn2 H2.
  - destruct Hn2 as [|c2 cs2 Hc2 _]; [reflexivity|]. simpl in H2. injection H2 as H2 _.
    congruence.
  - destruct Hn2 as [|c2 cs2 Hc2 Hn2]; simpl in H2; injection H2 as H2 H3; [congruence|].
    subst c2. f_equal. now apply IH.
Qed.

Lemma Forall_take_drop (P : Z -> Prop) n k cs :
  Forall P cs -> Forall P (take n (drop k cs)).
Proof. intros H. apply Forall_take, Forall_drop, H. Qed.

Lemma Substring_slice str cs start len :
  text_of str cs ->
  0 <= start -> 0 <= len < INT_MAX -> start + len <= Z.of_nat (length cs) ->
  exists r, String_Substring str start len = Val r /\
    text_of r (take (Z.to_nat len) (drop (Z.to_nat start) cs)) /\ length_ r = len.
Proof.
  intros (Hnz & [rest Hs] & Hl & Hmax) H0 H1 H2.
  unfold String_Substring.
  destruct (Z.leb_spec 0 start); [|lia]. cbn [asserted obind].
  rewrite as_int_Val by (unfold INT_MIN; lia). cbn [obind]. rewrite Hl.
  destruct (Z.leb_spec (start + len) (Z.of_nat (length cs))); [|lia]. cbn [asserted obind].
  rewrite as_int_Val by (unfold INT_MIN, INT_MAX in *; lia). cbn [obind].
  destruct (Z.ltb_spec len 0); [lia|].
  rewrite Hs. rewrite drop_app_le by lia.
  unfold memcpy. rewrite length_app, length_drop.
  destruct (Z.leb_spec 0 len); [|lia].
  destruct (Z.leb_spec len (Z.of_nat (length cs - Z.to_nat start + length (0 :: rest))));
    [|simpl in *; lia].
  cbn [andb obind]. rewrite take_app_le by (rewrite length_drop; lia).
  set (sl := take (Z.to_nat len) (drop (Z.to_nat start) cs)).
  assert (Hsl : Z.of_nat (length sl) = len).
  { unfold sl. rewrite length_take, length_drop. lia. }
  destruct (String_of_text sl [] (Forall_take_drop _ _ _ _ Hnz)) as [Hr Ht]; [lia|].
  rewrite Hr. eexists. split; [reflexivity|]. split; [exact Ht | exact Hsl].
Qed.

(** X8: [Substring] within the string: the result holds the characters from
    [start_index] on, [length] of them; a range that starts before the
    string or ends after it is the fatal error. *)
Theorem Substring_is_the_slice str cs start len :
  text_of str cs ->
  (start < 0 -> String_Substring str start len = Abort "substring index out of bounds") /\
  (0 <= start -> Z.of_nat (length cs) < start + len <= INT_MAX ->
   String_Substring str start len = Abort "substring index out of bounds") /\
  (0 <= start -> 0 <= len < INT_MAX -> start + len <= Z.of_nat (length cs) ->
   exists r, String_Substring str start len = Val r /\
     text_of r (take (Z.to_nat len) (drop (Z.to_nat start) cs)) /\
     length_ r = len /\
     forall start' len', 0 <= start' -> 0 <= len' -> start' + len' <= len ->
       exists r1 r2,
         String_Substring r start' len' = Val r1 /\
         String_Substring str (start + start') len' = Val r2 /\
         exists cs', text_of r1 cs' /\ text_of r2 cs').
Proof.
  intros Htext. pose proof Substring_slice as Hslice.
  destruct Htext as (Hnz & [rest Hs] & Hl & Hmax). split; [|split].
  - intros Hneg. unfold String_Substring. destruct (Z.leb_spec 0 start); [lia | reflexivity].
  - intros H0 H1. unfold String_Substring.
    destruct (Z.leb_spec 0 start); [|lia]. cbn [asserted obind].
    rewrite as_int_Val by (unfold INT_MIN; lia). cbn [obind]. rewrite Hl.
    destruct (Z.leb_spec (start + len) (Z.of_nat (length cs))); [lia | reflexivity].
  - intros H0 H1 H2.
    assert (Htext : text_of str cs) by (split; [exact Hnz|]; split; [now exists rest | now split]).
    destruct (Hslice str cs start len Htext H0 H1 H2) as (r & Hr & Ht & Hlr).
    exists r. split; [exact Hr|]. split; [exact Ht|]. split; [exact Hlr|].
    intros start' len' H0' H1' H2'.
    assert (Hlen : Z.of_nat (length (take (Z.to_nat len) (drop (Z.to_nat start) cs))) = len)
      by (rewrite length_take, length_drop; lia).
    destruct (Hslice r _ start' len' Ht H0') as (r1 & Hr1 & Ht1 & _); [lia | lia |].
    destruct (Hslice str cs (start + start') len' Htext) as (r2 & Hr2 & Ht2 & _); try lia.
    exists r1, r2. split; [exact Hr1|]. split; [exact Hr2|].
    exists (take (Z.to_nat len') (drop (Z.to_nat (start + start')) cs)).
    split; [|exact Ht2].
    replace (take (Z.to_nat len') (drop (Z.to_nat (start + start')) cs))
      with (take (Z.to_nat len')
              (drop (Z.to_nat start') (take (Z.to_nat len) (drop (Z.to_nat start) cs))));
      [exact Ht1|].
    rewrite skipn_firstn_comm, take_take, drop_drop.
    f_equal; [lia | f_equal; lia].
Qed.

Lemma text_hello : text_of hello [104; 101; 108; 108; 111].
Proof.
  split; [repeat constructor; discriminate|]. split; [now exists []|].
  split; [reflexivity | unfold INT_MAX; simpl; lia].
Qed.

Lemma Substring_is_the_slice_witness :
  exists r, String_Substring hello 1 3 = Val r /\ text_of r [101; 108; 108] /\ length_ r = 3.
Proof.
  destruct (Substring_is_the_slice hello [104; 101; 108; 108; 111] 1 3 text_hello)
    as (_ & _ & H).
  destruct H as (r & Hr & Ht & Hl & _); [lia | unfold INT_MAX; lia | simpl; lia |].
  exists r. split; [exact Hr|]. split; [exact Ht | exact Hl].
Defined.

(** X9: [Substring] does not check that [length] is not negative: when the
    two checks pass, the allocation and the copy are made with a
    negative count, which is undefined. *)
Theorem Substring_negative_length_unchecked str cs start len :
  text_of str cs ->
  0 <= start <= INT_MAX -> INT_MIN <= len < 0 ->
  String_Substring str start len
  = if start + len <=? Z.of_nat (length cs) then Undef
    else Abort "substring index out of bounds".
Proof.
  intros (Hnz & _ & Hl & Hmax) H0 H1. unfold String_Substring.
  destruct (Z.leb_spec 0 start); [|lia]. cbn [asserted obind].
  rewrite as_int_Val by (unfold INT_MIN, INT_MAX in *; lia). cbn [obind]. rewrite Hl.
  destruct (Z.leb_spec (start + len) (Z.of_nat (length cs))); [|reflexivity].
  cbn [asserted obind].
  rewrite as_int_Val by (unfold INT_MIN, INT_MAX in *; lia). cbn [obind].
  destruct (Z.ltb_spec len 0); [reflexivity | lia].
Qed.

Lemma Substring_negative_length_unchecked_witness :
  String_Substring hello 2 (-1) = Undef.
Proof.
  apply (Substring_negative_length_unchecked hello [104; 101; 108; 108; 111] 2 (-1) text_hello).
  - unfold INT_MAX. lia.
  - unfold INT_MIN. lia.
Defined.

(** ** Searching a string *)

Lemma Forall_nz_app (a b : list Z) :
  Forall (fun c => c <> 0) (a ++ b) ->
  Forall (fun c => c <> 0) a /\ Forall (fun c => c <> 0) b.
Proof. apply Forall_app. Qed.

Lemma wcschr_found pre c post :
  Forall (fun x => x <> 0) pre -> ~ In c pre ->
  wcschr (pre ++ c :: post) c = Val (Some (Z.of_nat (length pre))).
Proof.
  induction 1 as [|x pre Hx _ IH]; intros Hni.
  - cbn [app wcschr]. now rewrite Z.eqb_refl.
  - cbn [app wcschr].
    destruct (Z.eqb_spec x c) as [-> | Hne]; [exfalso; apply Hni; now left|].
    destruct (Z.eqb_spec x 0); [contradiction|].
    rewrite IH by (intros Hin; apply Hni; now right).
    cbn [obind fmap option_fmap option_map length]. do 2 f_equal. lia.
Qed.

Lemma wcschr_absent cs rest c :
  Forall (fun x => x <> 0) cs -> ~ In c cs -> c <> 0 ->
  wcschr (cs ++ 0 :: rest) c = Val None.
Proof.
  induction 1 as [|x cs Hx _ IH]; intros Hni Hc.
  - cbn [app wcschr]. destruct (Z.eqb_spec 0 c); [congruence|].
    now rewrite Z.eqb_refl.
  - cbn [app wcschr].
    destruct (Z.eqb_spec x c) as [-> | Hne]; [exfalso; apply Hni; now left|].
    destruct (Z.eqb_spec x 0); [contradiction|].
    now rewrite IH by (try assumption; intros Hin; apply Hni; now right).
Qed.

Lemma wcsrchr_absent cs rest c :
  Forall (fun x => x <> 0) cs -> ~ In c cs -> c <> 0 ->
  wcsrchr (cs ++ 0 :: rest) c = Val None.
Proof.
  induction 1 as [|x cs Hx _ IH]; intros Hni Hc.
  - cbn [app wcsrchr]. rewrite Z.eqb_refl.
    destruct (Z.eqb_spec c 0); [congruence | reflexivity].
  - cbn [app wcsrchr]. destruct (Z.eqb_spec x 0); [contradiction|].
    rewrite IH by (try assumption; intros Hin; apply Hni; now right).
    cbn [obind]. destruct (Z.eqb_spec x c) as [-> | Hne]; [exfalso; apply Hni; now left|].
    reflexivity.
Qed.

Lemma wcsrchr_null cs rest :
  Forall (fun x => x <> 0) cs ->
  wcsrchr (cs ++ 0 :: rest) 0 = Val (Some (Z.of_nat (length cs))).
Proof.
  induction 1 as [|x cs Hx _ IH]; [reflexivity|].
  cbn [app wcsrchr]. destruct (Z.eqb_spec x 0); [contradiction|].
  rewrite IH. cbn [obind length]. do 2 f_equal. lia.
Qed.

Lemma wcsrchr_found pre c post rest :
  Forall (fun x => x <> 0) (pre ++ c :: post) -> ~ In c post ->
  wcsrchr ((pre ++ c :: post) ++ 0 :: rest) c = Val (Some (Z.of_nat (length pre))).
Proof.
  induction pre as [|x pre IH]; intros Hnz Hni.
  - cbn [app] in Hnz |- *. apply Forall_cons in Hnz. destruct Hnz as [Hc Hpost].
    cbn [wcsrchr]. destruct (Z.eqb_spec c 0); [contradiction|].
    rewrite (wcsrchr_absent post rest c Hpost Hni Hc). cbn [obind].
    now rewrite Z.eqb_refl.
  - simpl in Hnz. apply Forall_cons in Hnz. destruct Hnz as [Hx Hrest].
    cbn [app wcsrchr]. destruct (Z.eqb_spec x 0); [contradiction|].
    rewrite (IH Hrest Hni). cbn [obind length]. do 2 f_equal. lia.
Qed.

Lemma get_Item_text str cs i c :
  text_of str cs -> cs !! i = Some c -> String_get_Item str (Z.of_nat i) = Val c.
Proof.
  intros (_ & [rest Hs] & Hl & _) Hi. unfold String_get_Item.
  pose proof (lookup_lt_Some _ _ _ Hi) as Hlt. rewrite Hl.
  destruct (Z.leb_spec 0 (Z.of_nat i)); [|lia].
  destruct (Z.ltb_spec (Z.of_nat i) (Z.of_nat (length cs))); [|lia].
  cbn [andb asserted obind]. rewrite Nat2Z.id, Hs, lookup_app_l by lia. now rewrite Hi.
Qed.

(** X10: [IndexOf] gives the place of the first occurrence of a character,
    [LastIndexOf] of the last one, and [get_Item] finds the character
    there; both give -1 for a character that does not occur.  The null
    character is found at the end of every string: for it both give the
    length. *)
Theorem IndexOf_finds_first_and_last str cs c :
  text_of str cs ->
  (forall pre post, cs = pre ++ c :: post -> ~ In c pre ->
     String_IndexOf str c = Val (Z.of_nat (length pre)) /\
     String_get_Item str (Z.of_nat (length pre)) = Val c) /\
  (forall pre post, cs = pre ++ c :: post -> ~ In c post ->
     String_LastIndexOf str c = Val (Z.of_nat (length pre)) /\
     String_get_Item str (Z.of_nat (length pre)) = Val c) /\
  (c <> 0 -> ~ In c cs ->
   String_IndexOf str c = Val (-1) /\ String_LastIndexOf str c = Val (-1)) /\
  String_IndexOf str 0 = Val (Z.of_nat (length cs)) /\
  String_LastIndexOf str 0 = Val (Z.of_nat (length cs)).
Proof.
  intros Htext. pose proof Htext as (Hnz & [rest Hs] & Hl & Hmax).
  assert (Hget : forall pre post, cs = pre ++ c :: post ->
            String_get_Item str (Z.of_nat (length pre)) = Val c).
  { intros pre post ->. apply (get_Item_text str _ _ _ Htext).
    rewrite lookup_app_r by lia. now rewrite Nat.sub_diag. }
  assert (Hfit : forall pre post, cs = pre ++ c :: post ->
            to_int (Z.of_nat (length pre)) = Z.of_nat (length pre)).
  { intros pre post ->. apply to_int_small. rewrite length_app in Hmax. simpl in Hmax. lia. }
  split; [|split; [|split; [|split]]].
  - intros pre post Hcs Hni. split; [|exact (Hget pre post Hcs)].
    unfold String_IndexOf. rewrite Hs, Hcs, <- app_assoc. cbn [app].
    rewrite wcschr_found; [| | exact Hni].
    + cbn [obind]. now rewrite (Hfit pre post Hcs).
    + rewrite Hcs in Hnz. exact (proj1 (Forall_nz_app _ _ Hnz)).
  - intros pre post Hcs Hni. split; [|exact (Hget pre post Hcs)].
    unfold String_LastIndexOf. rewrite Hs, Hcs.
    rewrite wcsrchr_found; [| now rewrite <- Hcs | exact Hni].
    cbn [obind]. now rewrite (Hfit pre post Hcs).
  - intros Hc Hni. unfold String_IndexOf, String_LastIndexOf. rewrite Hs.
    now rewrite wcschr_absent, wcsrchr_absent.
  - unfold String_IndexOf. rewrite Hs.
    rewrite wcschr_found; [| exact Hnz |].
    + cbn [obind]. now rewrite to_int_small by lia.
    + intros Hin. exact (proj1 (List.Forall_forall _ _) Hnz 0 Hin eq_refl).
  - unfold String_LastIndexOf. rewrite Hs, wcsrchr_null by exact Hnz.
    cbn [obind]. now rewrite to_int_small by lia.
Qed.

Lemma IndexOf_finds_first_and_last_witness :
  String_IndexOf hello 108 = Val 2 /\ String_LastIndexOf hello 108 = Val 3 /\
  String_get_Item hello 2 = Val 108.
Proof.
  destruct (IndexOf_finds_first_and_last hello [104; 101; 108; 108; 111] 108 text_hello)
    as (H1 & H2 & _).
  destruct (H1 [104; 101] [108; 111] eq_refl) as [Hi Hg].
  { intros [H | [H | []]]; discriminate. }
  destruct (H2 [104; 101; 108] [111] eq_refl) as [Hl _].
  { intros [H | []]; discriminate. }
  now repeat split.
Defined.

(** ** Comparing strings *)

Lemma wcscmp_text a : forall b r1 r2,
  Forall (fun x => x <> 0) a -> Forall (fun x => x <> 0) b ->
  exists c, wcscmp (a ++ 0 :: r1) (b ++ 0 :: r2) = Val c /\
    (c = Eq <-> a = b) /\
    wcscmp (b ++ 0 :: r2) (a ++ 0 :: r1) = Val (CompOpp c).
Proof.
  induction a as [|x a IH]; intros b r1 r2 Ha Hb.
  - destruct b as [|y b].
    + exists Eq. cbn [app wcscmp]. rewrite Z.eqb_refl. now repeat split.
    + apply Forall_cons in Hb. destruct Hb as [Hy _].
      exists (0 ?= y). cbn [app wcscmp].
      destruct (Z.eqb_spec 0 y); [congruence|]. destruct (Z.eqb_spec y 0); [congruence|].
      split; [reflexivity|]. split.
      * split; [intros H; apply Z.compare_eq in H; congruence | discriminate].
      * now rewrite Z.compare_antisym.
  - apply Forall_cons in Ha. destruct Ha as [Hx Ha].
    destruct b as [|y b].
    + exists (x ?= 0). cbn [app wcscmp].
      destruct (Z.eqb_spec x 0); [congruence|]. destruct (Z.eqb_spec 0 x); [congruence|].
      split; [reflexivity|]. split.
      * split; [intros H; apply Z.compare_eq in H; congruence | discriminate].
      * now rewrite (Z.compare_antisym x 0).
    + apply Forall_cons in Hb. destruct Hb as [Hy Hb].
      cbn [app wcscmp]. destruct (Z.eqb_spec x y) as [-> | Hne].
      * rewrite Z.eqb_refl. destruct (Z.eqb_spec y 0); [contradiction|].
        destruct (IH b r1 r2 Ha Hb) as (c & Hc & Heq & Hop).
        exists c. split; [exact Hc|]. split; [|exact Hop].
        rewrite Heq. split; [now intros -> | now intros [= ->]].
      * destruct (Z.eqb_spec y x); [congruence|].
        exists (x ?= y). split; [reflexivity|]. split.
        -- split; [intros H; apply Z.compare_eq in H; congruence | intros [= H _]; congruence].
        -- now rewrite (Z.compare_antisym x y).
Qed.

Lemma wcsncmp_prefix p : forall a r1 r2,
  Forall (fun x => x <> 0) a -> Forall (fun x => x <> 0) p ->
  exists c, wcsncmp (a ++ 0 :: r1) (p ++ 0 :: r2) (length p) = Val c /\
    (c = Eq <-> p `prefix_of` a).
Proof.
  induction p as [|y p IH]; intros a r1 r2 Ha Hp.
  - exists Eq. split; [reflexivity|]. split; [intros _; apply prefix_nil | reflexivity].
  - apply Forall_cons in Hp. destruct Hp as [Hy Hp].
    destruct a as [|x a].
    + exists (0 ?= y). cbn [app wcsncmp length].
      destruct (Z.eqb_spec 0 y); [congruence|].
      split; [reflexivity|]. split.
      * intros H. apply Z.compare_eq in H. congruence.
      * intros [k Hk]. discriminate.
    + apply Forall_cons in Ha. destruct Ha as [Hx Ha].
      cbn [app wcsncmp length]. destruct (Z.eqb_spec x y) as [-> | Hne].
      * destruct (Z.eqb_spec y 0); [contradiction|].
        destruct (IH a r1 r2 Ha Hp) as (c & Hc & Heq).
        exists c. split; [exact Hc|]. rewrite Heq. split.
        -- intros H. now apply prefix_cons.
        -- intros H. now apply prefix_cons_inv_2 in H.
      * exists (x ?= y). split; [reflexivity|]. split.
        -- intros H. apply Z.compare_eq in H. congruence.
        -- intros H. apply prefix_cons_inv_1 in H. congruence.
Qed.

Lemma size_t_int bld z : 4 <= sizeof_ptr bld -> 0 <= z <= INT_MAX -> size_t bld z = z.
Proof.
  intros Hp Hz. unfold size_t. apply Z.mod_small. split; [lia|].
  apply Z.le_lt_trans with INT_MAX; [lia|].
  apply Z.lt_le_trans with (2 ^ 32); [unfold INT_MAX; lia|].
  apply Z.pow_le_mono_r; lia.
Qed.

Lemma StartsWith_prefix bld str cs s ps :
  4 <= sizeof_ptr bld -> text_of str cs -> text_of s ps ->
  exists b, String_StartsWith bld str s = Val b /\ (b = true <-> ps `prefix_of` cs).
Proof.
  intros Hp (Hnz & [r1 Hs1] & Hl1 & Hm1) (Hnp & [r2 Hs2] & Hl2 & Hm2).
  unfold String_StartsWith. rewrite Hl1, Hl2.
  destruct (Z.leb_spec (Z.of_nat (length ps)) (Z.of_nat (length cs))) as [Hle | Hgt].
  - rewrite size_t_int, Nat2Z.id, Hs1, Hs2 by lia.
    destruct (wcsncmp_prefix ps cs r1 r2 Hnz Hnp) as (cmp & Hc & Heq).
    rewrite Hc. cbn [obind]. eexists. split; [reflexivity|].
    rewrite <- Heq. destruct cmp; split; congruence.
  - exists false. split; [reflexivity|]. split; [discriminate|].
    intros H. apply prefix_length in H. lia.
Qed.

Lemma EndsWith_suffix str cs s ps :
  text_of str cs -> text_of s ps ->
  exists b, String_EndsWith str s = Val b /\ (b = true <-> ps `suffix_of` cs).
Proof.
  intros (Hnz & [r1 Hs1] & Hl1 & Hm1) (Hnp & [r2 Hs2] & Hl2 & Hm2).
  unfold String_EndsWith. rewrite Hl1, Hl2.
  destruct (Z.leb_spec (Z.of_nat (length ps)) (Z.of_nat (length cs))) as [Hle | Hgt].
  - rewrite Hs1, Hs2, drop_app_le by lia.
    destruct (wcscmp_text (drop (Z.to_nat (Z.of_nat (length cs) - Z.of_nat (length ps))) cs)
                ps r1 r2 (Forall_drop _ _ _ Hnz) Hnp) as (cmp & Hc & Heq & _).
    rewrite Hc. cbn [obind]. eexists. split; [reflexivity|].
    transitivity (cmp = Eq); [destruct cmp; split; congruence|].
    rewrite Heq. split.
    + intros <-. apply suffix_drop.
    + intros [k ->]. rewrite length_app.
      replace (Z.to_nat (Z.of_nat (length k + length ps) - Z.of_nat (length ps)))
        with (length k) by lia.
      now rewrite drop_app_length.
  - exists false. split; [reflexivity|]. split; [discriminate|].
    intros H. apply suffix_length in H. lia.
Qed.

(** X11: [StartsWith] tells whether the argument is a prefix of the string,
    [EndsWith] whether it is a suffix, [EndsWithChar] whether the
    string's last character is the given one; the last is false for the
    empty string. *)
Theorem StartsWith_EndsWith_decide bld str cs s ps c :
  4 <= sizeof_ptr bld -> text_of str cs -> text_of s ps ->
  (exists b, String_StartsWith bld str s = Val b /\ (b = true <-> ps `prefix_of` cs)) /\
  (exists b, String_EndsWith str s = Val b /\ (b = true <-> ps `suffix_of` cs)) /\
  (exists b, String_EndsWithChar str c = Val b /\ (b = true <-> last cs = Some c)).
Proof.
  intros Hp Hstr Hs. pose proof Hstr as (Hnz & [r1 Hs1] & Hl1 & Hm1).
  split; [|split].
  - exact (StartsWith_prefix bld str cs s ps Hp Hstr Hs).
  - exact (EndsWith_suffix str cs s ps Hstr Hs).
  - unfold String_EndsWithChar. rewrite Hl1.
    destruct (Z.ltb_spec 0 (Z.of_nat (length cs))) as [Hpos | Hz].
    + destruct (exists_last (l := cs)) as (pre & x & ->); [intros ->; simpl in Hpos; lia|].
      rewrite Hs1, length_app. simpl length.
      replace (Z.to_nat (Z.of_nat (length pre + 1) - 1)) with (length pre) by lia.
      rewrite <- app_assoc. rewrite lookup_app_r by lia. rewrite Nat.sub_diag. simpl.
      eexists. split; [reflexivity|]. rewrite last_snoc. rewrite Z.eqb_eq.
      split; [now intros -> | now intros [= ->]].
    + exists false. split; [reflexivity|]. split; [discriminate|].
      destruct cs; [discriminate | simpl in Hz; lia].
Qed.

Lemma StartsWith_EndsWith_decide_witness :
  String_StartsWith safe64 hello {| s_ := [104; 101; 0]; length_ := 2 |} = Val true /\
  String_EndsWith hello {| s_ := [104; 101; 0]; length_ := 2 |} = Val false /\
  String_EndsWithChar hello 111 = Val true.
Proof.
  assert (Hhe : text_of {| s_ := [104; 101; 0]; length_ := 2 |} [104; 101]).
  { split; [repeat constructor; discriminate|]. split; [now exists []|].
    split; [reflexivity | unfold INT_MAX; simpl; lia]. }
  destruct (StartsWith_EndsWith_decide safe64 hello [104; 101; 108; 108; 111]
              {| s_ := [104; 101; 0]; length_ := 2 |} [104; 101] 111)
    as ((b1 & H1 & _) & (b2 & H2 & _) & (b3 & H3 & _)); [simpl; lia | exact text_hello | exact Hhe |].
  rewrite H1, H2, H3. vm_compute in H1, H2, H3.
  injection H1 as <-. injection H2 as <-. injection H3 as <-. now repeat split.
Defined.

(** X12: [String::_Equals] holds of two strings exactly when they hold the
    same text, of a null pointer and a string never, and of two null
    pointers; [CompareOrdinal] gives zero for exactly the same pairs of
    strings, and the opposite sign when its arguments are exchanged. *)
Theorem Equals_is_equality_of_text a b ca cb :
  text_of a ca -> text_of b cb ->
  (exists e, String_Equals (Some a) (Some b) = Val e /\ (e = true <-> ca = cb)) /\
  String_Equals (Some a) None = Val false /\
  String_Equals None (Some b) = Val false /\
  String_Equals None None = Val true /\
  exists c, String_CompareOrdinal a b = Val c /\ (c = Eq <-> ca = cb) /\
    String_CompareOrdinal b a = Val (CompOpp c).
Proof.
  intros (Ha & [r1 Hs1] & _) (Hb & [r2 Hs2] & _).
  destruct (wcscmp_text ca cb r1 r2 Ha Hb) as (c & Hc & Heq & Hop).
  split; [|split; [reflexivity|]; split; [reflexivity|]; split; [reflexivity|]].
  - unfold String_Equals, String_Equals_chars. rewrite Hs1, Hs2, Hc. cbn [obind].
    eexists. split; [reflexivity|]. rewrite <- Heq. destruct c; split; congruence.
  - exists c. unfold String_CompareOrdinal. rewrite Hs1, Hs2.
    split; [exact Hc|]. split; [exact Heq | exact Hop].
Qed.

Lemma Equals_is_equality_of_text_witness :
  String_Equals (Some hello) (Some hello) = Val true /\
  String_CompareOrdinal hello {| s_ := [104; 101; 0]; length_ := 2 |} = Val Gt.
Proof.
  assert (Hhe : text_of {| s_ := [104; 101; 0]; length_ := 2 |} [104; 101]).
  { split; [repeat constructor; discriminate|]. split; [now exists []|].
    split; [reflexivity | unfold INT_MAX; simpl; lia]. }
  destruct (Equals_is_equality_of_text hello hello _ _ text_hello text_hello)
    as ((e & He & _) & _).
  destruct (Equals_is_equality_of_text hello _ _ _ text_hello Hhe)
    as (_ & _ & _ & _ & c & Hc & _).
  rewrite He, Hc. vm_compute in He, Hc. injection He as <-. injection Hc as <-. now split.
Defined.

(** ** Concatenation *)

Lemma memcpy_text cs rest :
  memcpy (cs ++ 0 :: rest) (Z.of_nat (length cs)) = Val cs.
Proof.
  unfold memcpy. rewrite length_app. simpl length.
  destruct (Z.leb_spec 0 (Z.of_nat (length cs))); [|lia].
  destruct (Z.leb_spec (Z.of_nat (length cs)) (Z.of_nat (length cs + S (length rest)))); [|lia].
  cbn [andb]. rewrite Nat2Z.id. now rewrite take_app_length.
Qed.

(** X13: [_Concat] of two strings holds the text of the first followed by the
    text of the second; a null operand is skipped, without a copy of the
    other one, and two null operands give the empty string.  The text can
    be taken apart again with [Substring], and the parts are a prefix and
    a suffix in the sense of [StartsWith] and [EndsWith]. *)
Theorem Concat_appends_texts bld a b ca cb :
  4 <= sizeof_ptr bld ->
  text_of a ca -> text_of b cb ->
  Z.of_nat (length ca) + Z.of_nat (length cb) < INT_MAX ->
  String_Concat None None = Val empty_string_ /\ text_of empty_string_ [] /\
  String_Concat (Some a) None = Val a /\
  String_Concat None (Some b) = Val b /\
  exists r, String_Concat (Some a) (Some b) = Val r /\ text_of r (ca ++ cb) /\
    (exists r1, String_Substring r 0 (length_ a) = Val r1 /\ text_of r1 ca) /\
    (exists r2, String_Substring r (length_ a) (length_ b) = Val r2 /\ text_of r2 cb) /\
    String_StartsWith bld r a = Val true /\
    String_EndsWith r b = Val true.
Proof.
  intros Hp Hta Htb Hlen.
  pose proof Hta as (Ha & [r1 Hs1] & Hl1 & Hm1). pose proof Htb as (Hb & [r2 Hs2] & Hl2 & Hm2).
  split; [reflexivity|]. split.
  { split; [constructor|]. split; [now exists []|]. split; [reflexivity | unfold INT_MAX; simpl; lia]. }
  split; [reflexivity|]. split; [reflexivity|].
  assert (Hnz : Forall (fun c => c <> 0) (ca ++ cb)) by (apply Forall_app; now split).
  assert (Hlab : Z.of_nat (length (ca ++ cb)) = Z.of_nat (length ca) + Z.of_nat (length cb))
    by (rewrite length_app; lia).
  destruct (String_of_text (ca ++ cb) [] Hnz) as [Hr Ht]; [lia|].
  set (r := {| s_ := (ca ++ cb) ++ [0]; length_ := Z.of_nat (length (ca ++ cb)) |}) in *.
  exists r. split.
  { unfold String_Concat. rewrite Hs1, Hs2, !wcslen_text by assumption. cbn [obind].
    rewrite !to_int_small by lia.
    rewrite as_int_Val by (unfold INT_MIN, INT_MAX in *; lia). cbn [obind].
    rewrite as_int_Val by (unfold INT_MIN, INT_MAX in *; lia). cbn [obind].
    destruct (Z.ltb_spec (Z.of_nat (length ca) + Z.of_nat (length cb) + 1) 0); [lia|].
    rewrite !memcpy_text. cbn [obind]. rewrite app_assoc. exact Hr. }
  split; [exact Ht|].
  pose proof (Substring_slice r (ca ++ cb) 0 (length_ a) Ht) as H1.
  pose proof (Substring_slice r (ca ++ cb) (length_ a) (length_ b) Ht) as H2.
  rewrite Hl1, Hl2 in *.
  destruct H1 as (x1 & Hx1 & Htx1 & _); [lia | unfold INT_MAX in *; lia | lia |].
  destruct H2 as (x2 & Hx2 & Htx2 & _); [lia | unfold INT_MAX in *; lia | lia |].
  rewrite !Nat2Z.id in *. change (Z.to_nat 0) with 0%nat in Htx1.
  rewrite drop_0, take_app_length in Htx1.
  rewrite drop_app_length in Htx2.
  rewrite firstn_all in Htx2.
  split; [now exists x1|]. split; [now exists x2|].
  destruct (StartsWith_prefix bld r (ca ++ cb) a ca Hp Ht Hta) as (b1 & Hb1 & Hi1).
  destruct (EndsWith_suffix r (ca ++ cb) b cb Ht Htb) as (b2 & Hb2 & Hi2).
  rewrite Hb1, Hb2. split; f_equal.
  - apply Hi1. now exists cb.
  - apply Hi2. now exists ca.
Qed.

Lemma Concat_appends_texts_witness :
  exists r, String_Concat (Some hello) (Some hello) = Val r /\
    text_of r [104; 101; 108; 108; 111; 104; 101; 108; 108; 111].
Proof.
  destruct (Concat_appends_texts safe64 hello hello _ _ ltac:(simpl; lia) text_hello text_hello)
    as (_ & _ & _ & _ & r & Hr & Ht & _); [unfold INT_MAX; simpl; lia|].
  exists r. split; [exact Hr | exact Ht].
Defined.

(** ** Hash codes and hexadecimal numbers *)

Lemma horner_grows b ds : forall i,
  1 <= b -> 0 <= i -> Forall (fun d => 0 <= d) ds -> i <= horner b i ds.
Proof.
  unfold horner. induction ds as [|d ds IH]; intros i Hb Hi Hd; [simpl; lia|].
  apply Forall_cons in Hd. destruct Hd as [Hd0 Hd]. simpl.
  specialize (IH (b * i + d) Hb ltac:(nia) Hd). nia.
Qed.

Lemma hash_loop_spec cs rest : forall h,
  0 <= h <= INT_MAX -> Forall (fun c => 0 < c) cs ->
  hash_loop h (cs ++ 0 :: rest)
  = if horner 17 h cs <=? INT_MAX then Val (horner 17 h cs) else Undef.
Proof.
  induction cs as [|c cs IH]; intros h Hh Hpos.
  - cbn [app hash_loop]. rewrite Z.eqb_refl. unfold horner. simpl.
    destruct (Z.leb_spec h INT_MAX); [reflexivity | lia].
  - apply Forall_cons in Hpos. destruct Hpos as [Hc Hpos].
    assert (Hnn : Forall (fun d => 0 <= d) cs)
      by (eapply Forall_impl; [exact Hpos | simpl; intros; lia]).
    cbn [app hash_loop]. destruct (Z.eqb_spec c 0); [lia|].
    change (horner 17 h (c :: cs)) with (horner 17 (17 * h + c) cs).
    pose proof (horner_grows 17 cs (17 * h + c) ltac:(lia) ltac:(lia) Hnn) as Hg.
    destruct (Z.le_gt_cases (h * 17) INT_MAX) as [Hm | Hm].
    + rewrite as_int_Val by (unfold INT_MIN; lia). cbn [obind].
      destruct (Z.le_gt_cases (h * 17 + c) INT_MAX) as [Hs | Hs].
      * rewrite as_int_Val by (unfold INT_MIN; lia). cbn [obind].
        rewrite IH by (try assumption; lia). now replace (h * 17 + c) with (17 * h + c) by lia.
      * rewrite as_int_Undef by lia. cbn [obind].
        destruct (Z.leb_spec (horner 17 (17 * h + c) cs) INT_MAX); [lia | reflexivity].
    + rewrite as_int_Undef by lia. cbn [obind].
      destruct (Z.leb_spec (horner 17 (17 * h + c) cs) INT_MAX); [lia | reflexivity].
Qed.

Lemma horner_long cs : forall h k,
  Forall (fun c => 0 < c) cs -> 0 <= k -> 17 ^ k <= 17 * h + 1 -> 0 <= h ->
  17 ^ (k + Z.of_nat (length cs)) <= 17 * horner 17 h cs + 1.
Proof.
  induction cs as [|c cs IH]; intros h k Hpos Hk Hh Hh0.
  - unfold horner. simpl. now rewrite Z.add_0_r.
  - apply Forall_cons in Hpos. destruct Hpos as [Hc Hpos].
    change (horner 17 h (c :: cs)) with (horner 17 (17 * h + c) cs).
    replace (k + Z.of_nat (length (c :: cs))) with ((k + 1) + Z.of_nat (length cs))
      by (simpl length; lia).
    apply IH; try assumption; try lia.
    rewrite Z.pow_add_r by lia. change (17 ^ 1) with 17. lia.
Qed.

(** X14: [GetHashCode] on a string of characters with positive codes: the
    hash is [17 * h + c] taken over the characters from zero, as long as
    that number is an [int]; when it is not, the multiplication or the
    addition overflows, which is undefined.  Every string of nine or more
    characters is in the second case. *)
Theorem GetHashCode_overflows_on_long_strings str cs :
  text_of str cs -> Forall (fun c => 0 < c) cs ->
  String_GetHashCode str
  = (if horner 17 0 cs <=? INT_MAX then Val (horner 17 0 cs) else Undef) /\
  (9 <= Z.of_nat (length cs) -> String_GetHashCode str = Undef).
Proof.
  intros (_ & [rest Hs] & _) Hpos.
  assert (Hspec : String_GetHashCode str
                  = if horner 17 0 cs <=? INT_MAX then Val (horner 17 0 cs) else Undef).
  { unfold String_GetHashCode. rewrite Hs.
    apply hash_loop_spec; [unfold INT_MAX; lia | exact Hpos]. }
  split; [exact Hspec|]. intros Hlong. rewrite Hspec.
  pose proof (horner_long cs 0 0 Hpos ltac:(lia) ltac:(simpl; lia) ltac:(lia)) as Hbig.
  assert (H9 : 17 ^ 9 <= 17 ^ (0 + Z.of_nat (length cs))) by (apply Z.pow_le_mono_r; lia).
  destruct (Z.leb_spec (horner 17 0 cs) INT_MAX) as [Hle | _]; [|reflexivity].
  exfalso. unfold INT_MAX in Hle.
  assert (17 ^ 9 = 118587876497) by reflexivity. lia.
Qed.

Lemma GetHashCode_overflows_on_long_strings_witness :
  String_GetHashCode hello = Val 9215556.
Proof.
  rewrite (proj1 (GetHashCode_overflows_on_long_strings hello _ text_hello
                    ltac:(repeat constructor))).
  reflexivity.
Defined.

Lemma hex_digit_range c d : hex_digit c = Some d -> 0 <= d <= 15 /\ c <> 0.
Proof.
  unfold hex_digit.
  destruct (Z.leb_spec 48 c), (Z.leb_spec c 57); cbn [andb]; try (intros [= <-]; lia);
  destruct (Z.leb_spec 97 c), (Z.leb_spec c 102); cbn [andb]; try (intros [= <-]; lia);
  destruct (Z.leb_spec 65 c), (Z.leb_spec c 70); cbn [andb]; try (intros [= <-]; lia);
  discriminate.
Qed.

Lemma ParseHex_step i c rest :
  c <> 0 ->
  ParseHex_loop i (c :: rest)
  = match hex_digit c with
    | Some d => obind (as_int (16 * i)) (fun m => obind (as_int (m + d)) (fun i' =>
                  ParseHex_loop i' rest))
    | None => Abort "bad hex digit"
    end.
Proof.
  intros Hc. cbn [ParseHex_loop]. destruct (Z.eqb_spec c 0); [contradiction|].
  unfold hex_digit.
  destruct ((48 <=? c) && (c <=? 57)); [reflexivity|].
  destruct ((97 <=? c) && (c <=? 102)); [cbn [obind]; now replace (10 + c - 97) with (c - 87) by lia|].
  destruct ((65 <=? c) && (c <=? 70)); [cbn [obind]; now replace (10 + c - 65) with (c - 55) by lia|].
  reflexivity.
Qed.

Lemma ParseHex_digits cs ds tail : forall i,
  0 <= i <= INT_MAX -> Forall2 (fun c d => hex_digit c = Some d) cs ds ->
  ParseHex_loop i (cs ++ tail)
  = if horner 16 i ds <=? INT_MAX then ParseHex_loop (horner 16 i ds) tail else Undef.
Proof.
  intros i Hi H. revert i Hi. induction H as [|c d cs ds Hd Htl IH]; intros i Hi.
  - unfold horner. simpl. destruct (Z.leb_spec i INT_MAX); [reflexivity | lia].
  - destruct (hex_digit_range c d Hd) as [Hr Hc].
    assert (Hnn : Forall (fun d => 0 <= d) ds).
    { clear - Htl. induction Htl as [|c' d' cs' ds' Hd' _ IH']; constructor; [|exact IH'].
      destruct (hex_digit_range c' d' Hd'). lia. }
    cbn [app]. rewrite (ParseHex_step i c _ Hc), Hd.
    change (horner 16 i (d :: ds)) with (horner 16 (16 * i + d) ds).
    pose proof (horner_grows 16 ds (16 * i + d) ltac:(lia) ltac:(lia) Hnn) as Hg.
    destruct (Z.le_gt_cases (16 * i) INT_MAX) as [Hm | Hm].
    + rewrite as_int_Val by (unfold INT_MIN; lia). cbn [obind].
      destruct (Z.le_gt_cases (16 * i + d) INT_MAX) as [Hs | Hs].
      * rewrite as_int_Val by (unfold INT_MIN; lia). cbn [obind].
        apply IH. lia.
      * rewrite as_int_Undef by lia. cbn [obind].
        destruct (Z.leb_spec (horner 16 (16 * i + d) ds) INT_MAX); [lia | reflexivity].
    + rewrite as_int_Undef by lia. cbn [obind].
      destruct (Z.leb_spec (horner 16 (16 * i + d) ds) INT_MAX); [lia | reflexivity].
Qed.

(** X15: [ParseHex] on a string that starts with hexadecimal digits, in
    either case, of value [v].  When the digits are all of the string the
    result is [v]; when another character follows them, a sign or the
    [x] of a prefix for example, it is the fatal error.  Both hold as
    long as [v] is an [int]: when it is not, the arithmetic has
    overflowed on the way, which is undefined. *)
Theorem ParseHex_reads_hexadecimal str cs ds :
  Forall2 (fun c d => hex_digit c = Some d) cs ds ->
  (text_of str cs ->
   Int_ParseHex str
   = if horner 16 0 ds <=? INT_MAX then Val (horner 16 0 ds) else Undef) /\
  (forall c more, text_of str (cs ++ c :: more) -> hex_digit c = None ->
   Int_ParseHex str
   = if horner 16 0 ds <=? INT_MAX then Abort "bad hex digit" else Undef).
Proof.
  intros Hds. split.
  - intros (_ & [rest Hs] & _). unfold Int_ParseHex. rewrite Hs.
    rewrite (ParseHex_digits cs ds (0 :: rest) 0 ltac:(unfold INT_MAX; lia) Hds).
    destruct (horner 16 0 ds <=? INT_MAX); [|reflexivity].
    cbn [ParseHex_loop]. now rewrite Z.eqb_refl.
  - intros c more (Hnz & [rest Hs] & _) Hc. unfold Int_ParseHex. rewrite Hs, <- app_assoc.
    rewrite (ParseHex_digits cs ds _ 0 ltac:(unfold INT_MAX; lia) Hds).
    destruct (horner 16 0 ds <=? INT_MAX); [|reflexivity].
    apply Forall_app in Hnz. destruct Hnz as [_ Hnz]. apply Forall_cons in Hnz.
    cbn [app]. rewrite ParseHex_step by tauto. now rewrite Hc.
Qed.

Lemma ParseHex_reads_hexadecimal_witness :
  Int_ParseHex {| s_ := [49; 102; 70; 0]; length_ := 3 |} = Val 511 /\
  Int_ParseHex {| s_ := [48; 120; 49; 0]; length_ := 3 |} = Abort "bad hex digit".
Proof.
  split.
  - apply (proj1 (ParseHex_reads_hexadecimal {| s_ := [49; 102; 70; 0]; length_ := 3 |}
                    [49; 102; 70] [1; 15; 15] ltac:(repeat constructor))).
    split; [repeat constructor; discriminate|]. split; [now exists []|].
    split; [reflexivity | unfold INT_MAX; simpl; lia].
  - apply (proj2 (ParseHex_reads_hexadecimal {| s_ := [48; 120; 49; 0]; length_ := 3 |}
                    [48] [0] ltac:(repeat constructor)) 120 [49]); [|reflexivity].
    split; [repeat constructor; discriminate|]. split; [now exists []|].
    split; [reflexivity | unfold INT_MAX; simpl; lia].
Defined.

(** * The string builder *)

Section BuilderFacts.

Variable bld : build.
Variable wsize : Z.
Hypothesis Hptr : 4 <= sizeof_ptr bld.
Hypothesis Hw : 1 <= wsize <= 4.

Lemma room_of a : 0 <= a < 2 ^ 30 -> size_t bld (a * wsize) / wsize = a.
Proof.
  intros Ha. unfold size_t. rewrite Z.mod_small.
  - apply Z.div_mul. lia.
  - split; [nia|]. apply Z.lt_le_trans with (2 ^ 32); [nia|].
    apply Z.pow_le_mono_r; lia.
Qed.

Lemma Int_Max_spec i j : Int_Max i j = Z.max i j.
Proof. unfold Int_Max. destruct (Z.ltb_spec j i); lia. Qed.

Lemma Extend_spec sb extra :
  builder_ok sb -> 0 <= extra -> len_ sb + extra < 2 ^ 29 ->
  exists sb', StringBuilder_Extend bld wsize sb extra = Val sb' /\
    cells sb' = cells sb /\ builder_ok sb' /\ len_ sb + extra <= alloc_len_ sb' /\
    alloc_len_ sb' = (if alloc_len_ sb <? len_ sb + extra
                      then Z.max (2 * (len_ sb + extra)) 64 else alloc_len_ sb).
Proof.
  intros (Hlen & Hroom & Hmin) Hex Hsmall. unfold StringBuilder_Extend.
  assert (Hl0 : 0 <= len_ sb) by (unfold len_; lia).
  rewrite as_int_Val by (unfold INT_MIN, INT_MAX; lia). cbn [obind].
  destruct (Z.ltb_spec (alloc_len_ sb) (len_ sb + extra)) as [Hgrow | Hfit].
  - rewrite as_int_Val by (unfold INT_MIN, INT_MAX; lia). cbn [obind].
    rewrite Int_Max_spec.
    set (a := Z.max (2 * (len_ sb + extra)) 64).
    assert (Ha : 0 <= a < 2 ^ 30) by (unfold a; lia).
    rewrite (room_of a Ha).
    eexists. split; [reflexivity|]. cbn [cells alloc_len_ room].
    assert (Hkeep : take (Z.to_nat a) (cells sb) = cells sb).
    { apply take_ge. unfold len_ in *. lia. }
    split; [exact Hkeep|]. split.
    + unfold builder_ok, len_. cbn [cells alloc_len_ room]. rewrite Hkeep.
      unfold len_ in *. split; [lia|]. split; [reflexivity | right; lia].
    + split; [lia | reflexivity].
  - exists sb. split; [reflexivity|]. split; [reflexivity|].
    split; [now repeat split|]. split; [lia | reflexivity].
Qed.

Lemma Append_n_spec sb start count got :
  builder_ok sb -> memcpy start count = Val got -> len_ sb + count < 2 ^ 29 ->
  exists sb', StringBuilder_Append_n bld wsize sb start count = Val sb' /\
    cells sb' = cells sb ++ got /\ builder_ok sb' /\
    alloc_len_ sb' = (if alloc_len_ sb <? len_ sb + count
                      then Z.max (2 * (len_ sb + count)) 64 else alloc_len_ sb).
Proof.
  intros Hok Hcp Hsmall.
  assert (Hcount : 0 <= count /\ Z.of_nat (length got) = count).
  { unfold memcpy in Hcp. destruct (Z.leb_spec 0 count); [|discriminate].
    destruct (Z.leb_spec count (Z.of_nat (length start))); [|discriminate].
    injection Hcp as <-. rewrite length_take. lia. }
  destruct Hcount as [Hc0 Hgot].
  destruct (Extend_spec sb count Hok Hc0 Hsmall) as (sb1 & He & Hcells & Hok1 & Hfit & Hal).
  unfold StringBuilder_Append_n. rewrite He. cbn [obind]. rewrite Hcp. cbn [obind].
  assert (Hlen1 : len_ sb1 = len_ sb) by (unfold len_; now rewrite Hcells).
  destruct Hok1 as (Hl1 & Hr1 & Hm1). rewrite Hr1, Hlen1.
  destruct (Z.leb_spec (len_ sb + count) (alloc_len_ sb1)); [|lia].
  assert (Hl0 : 0 <= len_ sb) by (unfold len_; lia).
  rewrite as_int_Val by (unfold INT_MIN, INT_MAX; lia). cbn [obind].
  eexists. split; [reflexivity|]. cbn [cells alloc_len_ room]. rewrite Hcells.
  split; [reflexivity|]. split; [|exact Hal].
  unfold builder_ok, len_. cbn [cells alloc_len_ room]. rewrite length_app.
  unfold len_ in *. split; [lia|]. split; [reflexivity | exact Hm1].
Qed.

Lemma Append_spec sb c :
  builder_ok sb -> len_ sb + 1 < 2 ^ 29 ->
  exists sb', StringBuilder_Append bld wsize sb c = Val sb' /\
    cells sb' = cells sb ++ [c] /\ builder_ok sb' /\
    alloc_len_ sb' = (if alloc_len_ sb <? len_ sb + 1
                      then Z.max (2 * (len_ sb + 1)) 64 else alloc_len_ sb).
Proof.
  intros Hok Hsmall.
  destruct (Extend_spec sb 1 Hok ltac:(lia) Hsmall) as (sb1 & He & Hcells & Hok1 & Hfit & Hal).
  unfold StringBuilder_Append. rewrite He. cbn [obind].
  assert (Hlen1 : len_ sb1 = len_ sb) by (unfold len_; now rewrite Hcells).
  destruct Hok1 as (Hl1 & Hr1 & Hm1). rewrite Hr1, Hlen1.
  destruct (Z.ltb_spec (len_ sb) (alloc_len_ sb1)); [|lia].
  assert (Hl0 : 0 <= len_ sb) by (unfold len_; lia).
  rewrite as_int_Val by (unfold INT_MIN, INT_MAX; lia). cbn [obind].
  eexists. split; [reflexivity|]. cbn [cells alloc_len_ room]. rewrite Hcells.
  split; [reflexivity|]. split; [|exact Hal].
  unfold builder_ok, len_. cbn [cells alloc_len_ room]. rewrite length_app. simpl length.
  unfold len_ in *. split; [lia|]. split; [reflexivity | exact Hm1].
Qed.

Lemma until_null_text cs rest :
  Forall (fun c => c <> 0) cs -> until_null (cs ++ 0 :: rest) = cs.
Proof.
  induction 1 as [|c cs Hc _ IH]; [reflexivity|].
  cbn [app until_null]. destruct (Z.eqb_spec c 0); [contradiction|]. now rewrite IH.
Qed.

Lemma until_null_split cs :
  In 0 cs -> exists rest, cs = until_null cs ++ 0 :: rest /\ Forall (fun c => c <> 0) (until_null cs).
Proof.
  induction cs as [|c cs IH]; intros Hin; [contradiction|].
  cbn [until_null]. destruct (Z.eqb_spec c 0) as [-> | Hc].
  - exists cs. split; [reflexivity | constructor].
  - destruct Hin as [-> | Hin]; [contradiction|].
    destruct (IH Hin) as (rest & Heq & Hnz). exists rest. split.
    + cbn [app]. now rewrite <- Heq.
    + now constructor.
Qed.

Lemma until_null_length cs : (length (until_null cs) <= length cs)%nat.
Proof.
  induction cs as [|c cs IH]; [reflexivity|].
  cbn [until_null]. destruct (c =? 0); simpl; lia.
Qed.

Lemma ToString_spec sb :
  builder_ok sb -> len_ sb + 1 < 2 ^ 29 ->
  exists s, StringBuilder_ToString bld wsize sb = Val (s, StringBuilder_Init) /\
    text_of s (until_null (cells sb)) /\ s_ s = cells sb ++ [0].
Proof.
  intros Hok Hsmall.
  destruct (Append_spec sb 0 Hok Hsmall) as (sb1 & Ha & Hcells & _).
  unfold StringBuilder_ToString. rewrite Ha. cbn [obind]. rewrite Hcells.
  destruct (until_null_split (cells sb ++ [0])) as (rest & Heq & Hnz);
    [apply in_or_app; right; now left|].
  assert (Hun : until_null (cells sb ++ [0]) = until_null (cells sb)).
  { clear. induction (cells sb) as [|c cs IH]; [reflexivity|].
    cbn [app until_null]. destruct (c =? 0); [reflexivity | now rewrite IH]. }
  rewrite Hun in Heq, Hnz.
  pose proof (until_null_length (cells sb)) as Hlen. unfold len_ in Hsmall.
  destruct (String_of_text (until_null (cells sb)) rest Hnz) as [Hr Ht];
    [unfold INT_MAX; lia|].
  rewrite <- Heq in Hr, Ht. rewrite Hr. cbn [obind].
  eexists. split; [reflexivity|]. split; [exact Ht | reflexivity].
Qed.

End BuilderFacts.

(** X16: As long as the text stays below [2^29] characters, [Append] keeps
    what the builder holds and adds the given cells after it, never
    writes outside the buffer, and reallocates only when the cells do not
    fit, then to twice the new length and no less than 64. *)
Theorem Append_adds_and_grows bld wsize sb start count got :
  4 <= sizeof_ptr bld -> 1 <= wsize <= 4 ->
  builder_ok sb -> memcpy start count = Val got -> len_ sb + count < 2 ^ 29 ->
  builder_ok StringBuilder_Init /\
  exists sb', StringBuilder_Append_n bld wsize sb start count = Val sb' /\
    cells sb' = cells sb ++ got /\ builder_ok sb' /\
    alloc_len_ sb' = (if alloc_len_ sb <? len_ sb + count
                      then Z.max (2 * (len_ sb + count)) 64 else alloc_len_ sb) /\
    forall c, len_ sb' + 1 < 2 ^ 29 ->
      exists sb2, StringBuilder_Append bld wsize sb' c = Val sb2 /\
        cells sb2 = cells sb ++ got ++ [c] /\ builder_ok sb2.
Proof.
  intros Hp Hw Hok Hcp Hsmall. split.
  { unfold builder_ok, len_. simpl. split; [lia|]. split; [reflexivity | now left]. }
  destruct (Append_n_spec bld wsize Hp Hw sb start count got Hok Hcp Hsmall)
    as (sb' & Hr & Hc & Hok' & Hal).
  exists sb'. split; [exact Hr|]. split; [exact Hc|]. split; [exact Hok'|].
  split; [exact Hal|]. intros c Hs'.
  destruct (Append_spec bld wsize Hp Hw sb' c Hok' Hs') as (sb2 & Hr2 & Hc2 & Hok2 & _).
  exists sb2. split; [exact Hr2|]. split; [|exact Hok2].
  rewrite Hc2, Hc. now rewrite <- app_assoc.
Qed.

Lemma Append_adds_and_grows_witness :
  exists sb', StringBuilder_Append_n safe64 4 StringBuilder_Init [104; 105; 0] 2 = Val sb' /\
    cells sb' = [104; 105] /\ alloc_len_ sb' = 64.
Proof.
  destruct (Append_adds_and_grows safe64 4 StringBuilder_Init [104; 105; 0] 2 [104; 105])
    as (Hinit & sb' & Hr & Hc & _ & Hal & _); try (simpl; lia); try reflexivity.
  - unfold builder_ok, len_. simpl. split; [lia|]. split; [reflexivity | now left].
  - exists sb'. split; [exact Hr|]. split; [exact Hc | exact Hal].
Defined.

(** X17: [ToString] gives a string that holds the builder's text up to the
    first null character in it, all of it when there is none, and leaves
    the builder empty. *)
Theorem ToString_ends_at_first_null bld wsize sb :
  4 <= sizeof_ptr bld -> 1 <= wsize <= 4 ->
  builder_ok sb -> len_ sb + 1 < 2 ^ 29 ->
  exists s, StringBuilder_ToString bld wsize sb = Val (s, StringBuilder_Init) /\
    text_of s (until_null (cells sb)) /\
    (Forall (fun c => c <> 0) (cells sb) -> text_of s (cells sb)) /\
    (forall pre post, cells sb = pre ++ 0 :: post -> Forall (fun c => c <> 0) pre ->
       text_of s pre).
Proof.
  intros Hp Hw Hok Hsmall.
  destruct (ToString_spec bld wsize Hp Hw sb Hok Hsmall) as (s & Hr & Ht & _).
  exists s. split; [exact Hr|]. split; [exact Ht|]. split.
  - intros Hnz.
    assert (Hall : until_null (cells sb) = cells sb).
    { clear - Hnz. induction Hnz as [|c cs Hc _ IH]; [reflexivity|].
      cbn [until_null]. destruct (Z.eqb_spec c 0); [contradiction|]. now rewrite IH. }
    rewrite Hall in Ht. exact Ht.
  - intros pre post Heq Hnz. rewrite Heq, until_null_text in Ht by exact Hnz. exact Ht.
Qed.

Lemma ToString_ends_at_first_null_witness :
  exists s, StringBuilder_ToString safe64 4
              {| cells := [104; 0; 105]; alloc_len_ := 64; room := 64 |}
            = Val (s, StringBuilder_Init) /\ text_of s [104].
Proof.
  destruct (ToString_ends_at_first_null safe64 4
              {| cells := [104; 0; 105]; alloc_len_ := 64; room := 64 |})
    as (s & Hr & _ & _ & Hcut); try (simpl; lia).
  - unfold builder_ok, len_. simpl. split; [lia|]. split; [reflexivity | right; lia].
  - unfold len_. simpl. lia.
  - exists s. split; [exact Hr|].
    apply (Hcut [104] [105] eq_refl). repeat constructor. discriminate.
Defined.

(** ** Format strings *)

Section FormatFacts.

Variable bld : build.
Variable wsize : Z.
Hypothesis Hptr : 4 <= sizeof_ptr bld.
Hypothesis Hw : 1 <= wsize <= 4.
Variables o1 o2 o3 : option StringObj.
Hypothesis Hargs : forall s, In (Some s) [o1; o2; o3] -> exists a, text_of s a.

Lemma loop_literal s t lit sb :
  Forall (fun c => c <> 0 /\ c <> 123) s ->
  AppendFormat_loop bld wsize o1 o2 o3 (s ++ t) lit sb
  = AppendFormat_loop bld wsize o1 o2 o3 t (lit ++ s) sb.
Proof.
  intros Hs. revert lit. induction Hs as [|c s [Hc0 Hc1] _ IH]; intros lit.
  - now rewrite app_nil_r.
  - cbn [app AppendFormat_loop].
    destruct (Z.eqb_spec c 0); [contradiction|]. destruct (Z.eqb_spec c 123); [contradiction|].
    rewrite IH. now rewrite <- app_assoc.
Qed.

Lemma memcpy_all lit : memcpy lit (Z.of_nat (length lit)) = Val lit.
Proof.
  unfold memcpy. destruct (Z.leb_spec 0 (Z.of_nat (length lit))); [|lia].
  rewrite Z.leb_refl. cbn [andb]. now rewrite Nat2Z.id, firstn_all.
Qed.

Lemma flush_spec sb lit :
  builder_ok sb -> len_ sb + Z.of_nat (length lit) < 2 ^ 29 ->
  exists sb', StringBuilder_Append_n bld wsize sb lit (to_int (Z.of_nat (length lit))) = Val sb' /\
    cells sb' = cells sb ++ lit /\ builder_ok sb'.
Proof.
  intros Hok Hsmall.
  rewrite to_int_small by (unfold len_, INT_MAX in *; lia).
  destruct (Append_n_spec bld wsize Hptr Hw sb lit _ lit Hok (memcpy_all lit) Hsmall)
    as (sb' & Hr & Hc & Hok' & _).
  now exists sb'.
Qed.

Lemma Append_String_spec sb s a :
  builder_ok sb -> text_of s a -> len_ sb + Z.of_nat (length a) < 2 ^ 29 ->
  exists sb', StringBuilder_Append_String bld wsize sb s = Val sb' /\
    cells sb' = cells sb ++ a /\ builder_ok sb'.
Proof.
  intros Hok (Hnz & [rest Hs] & Hl & Hmax) Hsmall.
  unfold StringBuilder_Append_String, StringBuilder_Append_chars.
  rewrite Hs, wcslen_text by exact Hnz. cbn [obind].
  rewrite to_int_small by lia.
  destruct (Append_n_spec bld wsize Hptr Hw sb (a ++ 0 :: rest) _ a Hok (memcpy_text a rest) Hsmall)
    as (sb' & Hr & Hc & Hok' & _).
  now exists sb'.
Qed.

Lemma fill_text i s a :
  nth_error [o1; o2; o3] i = Some (Some s) -> text_of s a -> fill [o1; o2; o3] (Arg i) = a.
Proof.
  intros Hi (Hnz & [rest Hs] & _). cbn [fill].
  rewrite (nth_error_nth _ _ _ Hi), Hs. now apply until_null_text.
Qed.

Lemma select_arg i s :
  nth_error [o1; o2; o3] i = Some (Some s) ->
  (if 48 + Z.of_nat i =? 48 then Val o1
   else if 48 + Z.of_nat i =? 49 then Val o2
   else if 48 + Z.of_nat i =? 50 then Val o3
   else Abort "bad format specifier") = Val (Some s).
Proof.
  clear Hargs. destruct i as [|[|[|i]]]; cbn [nth_error]; try (intros [= ->]; reflexivity).
  destruct i; discriminate.
Qed.

Lemma loop_pieces ps : forall t lit sb,
  Forall (piece_ok [o1; o2; o3]) ps -> builder_ok sb ->
  len_ sb + Z.of_nat (length lit) + Z.of_nat (length (filled [o1; o2; o3] ps)) < 2 ^ 29 ->
  exists lit' sb',
    AppendFormat_loop bld wsize o1 o2 o3 (rendered ps ++ t) lit sb
    = AppendFormat_loop bld wsize o1 o2 o3 t lit' sb' /\
    builder_ok sb' /\ cells sb' ++ lit' = cells sb ++ lit ++ filled [o1; o2; o3] ps.
Proof.
  induction ps as [|p ps IH]; intros t lit sb Hps Hok Hsmall.
  - exists lit, sb. split; [reflexivity|]. split; [exact Hok|].
    unfold filled. simpl. now rewrite app_nil_r.
  - inversion Hps as [|? ? Hp Hps']; subst.
    unfold rendered, filled in *. cbn [map concat] in *.
    rewrite length_app in Hsmall. rewrite <- app_assoc.
    destruct p as [s | i].
    + cbn [render fill] in *. rewrite loop_literal by exact Hp.
      destruct (IH t (lit ++ s) sb Hps' Hok) as (lit' & sb' & Hr & Hok' & Hc).
      { rewrite length_app. lia. }
      exists lit', sb'. split; [exact Hr|]. split; [exact Hok'|].
      rewrite Hc. now rewrite <- !app_assoc.
    + destruct Hp as [s Hi].
      assert (Hin : In (Some s) [o1; o2; o3]) by (eapply nth_error_In; exact Hi).
      destruct (Hargs s Hin) as [a Ha].
      rewrite (fill_text i s a Hi Ha) in *.
      destruct (flush_spec sb lit Hok) as (sb1 & Hr1 & Hc1 & Hok1); [lia|].
      assert (Hl1 : len_ sb1 = len_ sb + Z.of_nat (length lit)).
      { unfold len_. rewrite Hc1, length_app. lia. }
      destruct (Append_String_spec sb1 s a Hok1 Ha) as (sb2 & Hr2 & Hc2 & Hok2); [lia|].
      assert (Hl2 : len_ sb2 = len_ sb1 + Z.of_nat (length a)).
      { unfold len_. rewrite Hc2, length_app. lia. }
      destruct (IH t [] sb2 Hps' Hok2) as (lit' & sb' & Hr & Hok' & Hc).
      { simpl length. lia. }
      exists lit', sb'. split; [|split; [exact Hok'|]].
      * cbn [render app AppendFormat_loop]. cbn [Z.eqb Pos.eqb].
        rewrite Hr1. cbn [obind]. rewrite (select_arg i s Hi). cbn [obind].
        rewrite Hr2. cbn [obind asserted]. exact Hr.
      * rewrite Hc, Hc2, Hc1. cbn [app]. now rewrite <- !app_assoc.
Qed.

Lemma filled_no_null ps :
  Forall (piece_ok [o1; o2; o3]) ps -> Forall (fun c => c <> 0) (filled [o1; o2; o3] ps).
Proof.
  induction 1 as [|p ps Hp _ IH]; [constructor|].
  unfold filled in *. cbn [map concat]. apply Forall_app. split; [|exact IH].
  destruct p as [s | i].
  - cbn [fill]. eapply Forall_impl; [exact Hp|]. now intros c [Hc _].
  - destruct Hp as [s Hi].
    assert (Hin : In (Some s) [o1; o2; o3]) by (eapply nth_error_In; exact Hi).
    destruct (Hargs s Hin) as [a Ha]. rewrite (fill_text i s a Hi Ha). apply Ha.
Qed.

Lemma Format_spec str ps rest :
  s_ str = rendered ps ++ 0 :: rest ->
  Forall (piece_ok [o1; o2; o3]) ps ->
  Z.of_nat (length (filled [o1; o2; o3] ps)) + 1 < 2 ^ 29 ->
  exists r, String_Format bld wsize str o1 o2 o3 = Val r /\
    text_of r (filled [o1; o2; o3] ps).
Proof.
  intros Hs Hps Hsmall.
  assert (Hinit : builder_ok StringBuilder_Init).
  { unfold builder_ok, len_. simpl. split; [lia|]. split; [reflexivity | now left]. }
  destruct (loop_pieces ps (0 :: rest) [] StringBuilder_Init Hps Hinit)
    as (lit & sb & Hr & Hok & Hc).
  { unfold len_. simpl. lia. }
  cbn [StringBuilder_Init cells app] in Hc.
  assert (Hlen : len_ sb + Z.of_nat (length lit) = Z.of_nat (length (filled [o1; o2; o3] ps))).
  { rewrite <- Hc, length_app. unfold len_. lia. }
  destruct (flush_spec sb lit Hok) as (sb1 & Hr1 & Hc1 & Hok1); [lia|].
  rewrite Hc in Hc1.
  destruct (ToString_spec bld wsize Hptr Hw sb1 Hok1) as (r & Hts & Ht & _).
  { unfold len_. rewrite Hc1. lia. }
  exists r. split.
  - unfold String_Format, StringBuilder_AppendFormat. rewrite Hs, Hr.
    cbn [AppendFormat_loop]. rewrite Z.eqb_refl, Hr1. cbn [obind]. rewrite Hts. reflexivity.
  - rewrite Hc1 in Ht.
    replace (until_null (filled [o1; o2; o3] ps)) with (filled [o1; o2; o3] ps) in Ht; [exact Ht|].
    pose proof (filled_no_null ps Hps) as Hnz. clear - Hnz.
    induction Hnz as [|c cs Hc _ IH]; [reflexivity|].
    cbn [until_null]. destruct (Z.eqb_spec c 0); [contradiction|]. now rewrite <- IH.
Qed.

Lemma Format_stops str ps t :
  s_ str = rendered ps ++ t ->
  Forall (piece_ok [o1; o2; o3]) ps ->
  Z.of_nat (length (filled [o1; o2; o3] ps)) + 1 < 2 ^ 29 ->
  exists lit sb sb1,
    StringBuilder_AppendFormat bld wsize StringBuilder_Init str o1 o2 o3
    = AppendFormat_loop bld wsize o1 o2 o3 t lit sb /\
    StringBuilder_Append_n bld wsize sb lit (to_int (Z.of_nat (length lit))) = Val sb1.
Proof.
  intros Hs Hps Hsmall.
  assert (Hinit : builder_ok StringBuilder_Init).
  { unfold builder_ok, len_. simpl. split; [lia|]. split; [reflexivity | now left]. }
  destruct (loop_pieces ps t [] StringBuilder_Init Hps Hinit) as (lit & sb & Hr & Hok & Hc).
  { unfold len_. simpl. lia. }
  cbn [StringBuilder_Init cells app] in Hc.
  assert (Hlen : len_ sb + Z.of_nat (length lit) = Z.of_nat (length (filled [o1; o2; o3] ps))).
  { rewrite <- Hc, length_app. unfold len_. lia. }
  destruct (flush_spec sb lit Hok) as (sb1 & Hr1 & _); [lia|].
  exists lit, sb, sb1. split; [|exact Hr1].
  unfold StringBuilder_AppendFormat. now rewrite Hs.
Qed.

End FormatFacts.

(** X18: [String::Format] copies the literal text of the format string and
    puts the text of the argument in the place of each specifier that
    names it, provided the arguments named are not null and the result
    stays below [2^29] characters. *)
Theorem Format_fills_in_arguments bld wsize str o1 o2 o3 ps rest :
  4 <= sizeof_ptr bld -> 1 <= wsize <= 4 ->
  (forall s, In (Some s) [o1; o2; o3] -> exists a, text_of s a) ->
  s_ str = rendered ps ++ 0 :: rest ->
  Forall (piece_ok [o1; o2; o3]) ps ->
  Z.of_nat (length (filled [o1; o2; o3] ps)) + 1 < 2 ^ 29 ->
  exists r, String_Format bld wsize str o1 o2 o3 = Val r /\
    text_of r (filled [o1; o2; o3] ps).
Proof.
  intros Hp Hw Hargs Hs Hps Hsmall.
  exact (Format_spec bld wsize Hp Hw o1 o2 o3 Hargs str ps rest Hs Hps Hsmall).
Qed.

Lemma Format_fills_in_arguments_witness :
  exists r, String_Format safe64 4 {| s_ := [60; 123; 48; 125; 62; 0]; length_ := 5 |}
              (Some hello) None None = Val r /\
    text_of r [60; 104; 101; 108; 108; 111; 62].
Proof.
  apply (Format_fills_in_arguments safe64 4 {| s_ := [60; 123; 48; 125; 62; 0]; length_ := 5 |}
           (Some hello) None None [Lit [60]; Arg 0; Lit [62]] []).
  - simpl. lia.
  - lia.
  - intros s [[= <-] | [[=] | [[=] | []]]]. exists [104; 101; 108; 108; 111]. exact text_hello.
  - reflexivity.
  - repeat constructor; try discriminate. now exists hello.
  - simpl. lia.
Defined.

(** X19: After any well-formed beginning of the format string, an opening
    brace that is not followed by [0], [1] or [2], or a specifier that
    is not closed by a brace, is the fatal error [bad format specifier];
    a specifier that names a null argument is undefined behaviour. *)
Theorem Format_rejects_bad_specifiers bld wsize str o1 o2 o3 ps :
  4 <= sizeof_ptr bld -> 1 <= wsize <= 4 ->
  (forall s, In (Some s) [o1; o2; o3] -> exists a, text_of s a) ->
  Forall (piece_ok [o1; o2; o3]) ps ->
  Z.of_nat (length (filled [o1; o2; o3] ps)) + 1 < 2 ^ 29 ->
  (forall d rest, s_ str = rendered ps ++ 123 :: d :: rest ->
     d <> 48 -> d <> 49 -> d <> 50 ->
     String_Format bld wsize str o1 o2 o3 = Abort "bad format specifier") /\
  (forall i s a e rest, s_ str = rendered ps ++ 123 :: 48 + Z.of_nat i :: e :: rest ->
     nth_error [o1; o2; o3] i = Some (Some s) -> text_of s a ->
     Z.of_nat (length (filled [o1; o2; o3] ps)) + Z.of_nat (length a) < 2 ^ 29 ->
     e <> 125 ->
     String_Format bld wsize str o1 o2 o3 = Abort "bad format specifier") /\
  (forall i rest, s_ str = rendered ps ++ 123 :: 48 + Z.of_nat i :: rest ->
     nth_error [o1; o2; o3] i = Some None ->
     String_Format bld wsize str o1 o2 o3 = Undef).
Proof.
  intros Hp Hw Hargs Hps Hsmall. split; [|split].
  - intros d rest Hs H0 H1 H2.
    destruct (Format_stops bld wsize Hp Hw o1 o2 o3 Hargs str ps _ Hs Hps Hsmall)
      as (lit & sb & sb1 & Hr & Hf).
    unfold String_Format. rewrite Hr. cbn [AppendFormat_loop]. cbn [Z.eqb Pos.eqb].
    rewrite Hf. cbn [obind].
    destruct (Z.eqb_spec d 48); [contradiction|]. destruct (Z.eqb_spec d 49); [contradiction|].
    destruct (Z.eqb_spec d 50); [contradiction|]. reflexivity.
  - intros i s a e rest Hs Hi Ha Hfit He.
    destruct (loop_pieces bld wsize Hp Hw o1 o2 o3 Hargs ps (123 :: 48 + Z.of_nat i :: e :: rest)
                [] StringBuilder_Init Hps) as (lit & sb & Hr & Hok & Hc).
    { unfold builder_ok, len_. simpl. split; [lia|]. split; [reflexivity | now left]. }
    { unfold len_. simpl. lia. }
    cbn [StringBuilder_Init cells app] in Hc.
    assert (Hlen : len_ sb + Z.of_nat (length lit) = Z.of_nat (length (filled [o1; o2; o3] ps))).
    { rewrite <- Hc, length_app. unfold len_. lia. }
    destruct (flush_spec bld wsize Hp Hw sb lit Hok) as (sb1 & Hr1 & Hc1 & Hok1); [lia|].
    destruct (Append_String_spec bld wsize Hp Hw sb1 s a Hok1 Ha) as (sb2 & Hr2 & _).
    { unfold len_. rewrite Hc1, length_app. unfold len_ in Hlen. lia. }
    unfold String_Format, StringBuilder_AppendFormat. rewrite Hs, Hr.
    cbn [AppendFormat_loop]. cbn [Z.eqb Pos.eqb]. rewrite Hr1. cbn [obind].
    rewrite (select_arg o1 o2 o3 i s Hi). cbn [obind]. rewrite Hr2. cbn [obind].
    destruct (Z.eqb_spec e 125); [contradiction | reflexivity].
  - intros i rest Hs Hi.
    destruct (Format_stops bld wsize Hp Hw o1 o2 o3 Hargs str ps _ Hs Hps Hsmall)
      as (lit & sb & sb1 & Hr & Hf).
    unfold String_Format. rewrite Hr. cbn [AppendFormat_loop]. cbn [Z.eqb Pos.eqb].
    rewrite Hf. cbn [obind].
    destruct i as [|[|[|i]]]; cbn [nth_error] in Hi.
    + injection Hi as ->. reflexivity.
    + injection Hi as ->. reflexivity.
    + injection Hi as ->. reflexivity.
    + destruct i; discriminate.
Qed.

Lemma Format_rejects_bad_specifiers_witness :
  String_Format safe64 4 {| s_ := [60; 123; 120; 125; 0]; length_ := 4 |} (Some hello) None None
  = Abort "bad format specifier" /\
  String_Format safe64 4 {| s_ := [60; 123; 49; 125; 0]; length_ := 4 |} (Some hello) None None
  = Undef.
Proof.
  assert (Hargs : forall s, In (Some s) [Some hello; None; None] -> exists a, text_of s a).
  { intros s [[= <-] | [[=] | [[=] | []]]]. exists [104; 101; 108; 108; 111]. exact text_hello. }
  assert (Hps : Forall (piece_ok [Some hello; None; None]) [Lit [60]]).
  { repeat constructor; discriminate. }
  split.
  - destruct (Format_rejects_bad_specifiers safe64 4
                {| s_ := [60; 123; 120; 125; 0]; length_ := 4 |} (Some hello) None None [Lit [60]])
      as (H & _ & _); try (simpl; lia); try assumption.
    apply (H 120 [125; 0]); [reflexivity | discriminate..].
  - destruct (Format_rejects_bad_specifiers safe64 4
                {| s_ := [60; 123; 49; 125; 0]; length_ := 4 |} (Some hello) None None [Lit [60]])
      as (_ & _ & H); try (simpl; lia); try assumption.
    apply (H 1%nat [125; 0]); reflexivity.
Defined.


(** ** Paths *)

Section PathFacts.

Variable bld : build.
Variable wsize : Z.
Variable sep : Z.
Hypothesis Hptr : 4 <= sizeof_ptr bld.
Hypothesis Hw : 1 <= wsize <= 4.
Hypothesis Hsep : sep <> 0.

Lemma EndsWithChar_last str cs c :
  text_of str cs ->
  String_EndsWithChar str c = Val (bool_decide (last cs = Some c)).
Proof.
  intros (Hnz & [r1 Hs1] & Hl1 & Hm1). unfold String_EndsWithChar. rewrite Hl1.
  destruct (Z.ltb_spec 0 (Z.of_nat (length cs))) as [Hpos | Hz].
  - destruct (exists_last (l := cs)) as (pre & x & ->); [intros ->; simpl in Hpos; lia|].
    rewrite Hs1, length_app. simpl length.
    replace (Z.to_nat (Z.of_nat (length pre + 1) - 1)) with (length pre) by lia.
    rewrite <- app_assoc. rewrite lookup_app_r by lia. rewrite Nat.sub_diag. simpl.
    rewrite last_snoc. f_equal. destruct (Z.eqb_spec x c) as [-> | Hne].
    + now rewrite bool_decide_eq_true_2.
    + rewrite bool_decide_eq_false_2; [reflexivity | congruence].
  - destruct cs; [|simpl in Hz; lia]. reflexivity.
Qed.

Lemma Combine_spec p1 p2 a b :
  text_of p1 a -> text_of p2 b ->
  Z.of_nat (length a) + Z.of_nat (length b) + 2 < 2 ^ 29 ->
  exists r, Path_Combine bld wsize sep p1 p2 = Val r /\
    text_of r (if bool_decide (last a = Some sep) then a ++ b else a ++ sep :: b).
Proof.
  intros Ha Hb Hsmall. unfold Path_Combine.
  assert (Hinit : builder_ok StringBuilder_Init).
  { unfold builder_ok, len_. simpl. split; [lia|]. split; [reflexivity | now left]. }
  destruct (Append_String_spec bld wsize Hptr Hw StringBuilder_Init p1 a Hinit Ha)
    as (sb1 & Hr1 & Hc1 & Hok1); [unfold len_; simpl; lia|].
  cbn [StringBuilder_Init cells app] in Hc1.
  rewrite Hr1. cbn [obind]. rewrite (EndsWithChar_last p1 a sep Ha). cbn [obind].
  set (mid := if bool_decide (last a = Some sep) then a else a ++ [sep]).
  assert (Hmid : exists sb2,
            (if bool_decide (last a = Some sep) then Val sb1
             else StringBuilder_Append bld wsize sb1 sep) = Val sb2 /\
            cells sb2 = mid /\ builder_ok sb2).
  { unfold mid. destruct (bool_decide (last a = Some sep)).
    - exists sb1. split; [reflexivity|]. split; [exact Hc1 | exact Hok1].
    - destruct (Append_spec bld wsize Hptr Hw sb1 sep Hok1) as (sb2 & Hr2 & Hc2 & Hok2 & _).
      { unfold len_. rewrite Hc1. lia. }
      exists sb2. split; [exact Hr2|]. split; [now rewrite Hc2, Hc1 | exact Hok2]. }
  destruct Hmid as (sb2 & Hr2 & Hc2 & Hok2). rewrite Hr2. cbn [obind].
  assert (Hml : Z.of_nat (length mid) <= Z.of_nat (length a) + 1).
  { unfold mid. destruct (bool_decide (last a = Some sep)); [lia|].
    rewrite length_app. simpl. lia. }
  destruct (Append_String_spec bld wsize Hptr Hw sb2 p2 b Hok2 Hb) as (sb3 & Hr3 & Hc3 & Hok3).
  { unfold len_. rewrite Hc2. lia. }
  rewrite Hr3. cbn [obind].
  destruct (ToString_spec bld wsize Hptr Hw sb3 Hok3) as (r & Hts & Ht & _).
  { unfold len_. rewrite Hc3, Hc2, length_app. lia. }
  rewrite Hts. cbn [obind]. exists r. split; [reflexivity|].
  assert (Hnz : Forall (fun c => c <> 0) (cells sb3)).
  { rewrite Hc3, Hc2. apply Forall_app. split; [|apply Hb].
    unfold mid. destruct (bool_decide (last a = Some sep)); [apply Ha|].
    apply Forall_app. split; [apply Ha | now repeat constructor]. }
  assert (Hall : until_null (cells sb3) = cells sb3).
  { clear - Hnz. induction Hnz as [|c cs Hc _ IH]; [reflexivity|].
    cbn [until_null]. destruct (Z.eqb_spec c 0); [contradiction|]. now rewrite IH. }
  rewrite Hall, Hc3, Hc2 in Ht. unfold mid in Ht.
  destruct (bool_decide (last a = Some sep)); [exact Ht|].
  now rewrite <- app_assoc in Ht.
Qed.

Lemma LastIndexOf_found str pre c post :
  text_of str (pre ++ c :: post) -> ~ In c post ->
  String_LastIndexOf str c = Val (Z.of_nat (length pre)).
Proof.
  intros (Hnz & [rest Hs] & Hl & Hmax) Hni.
  unfold String_LastIndexOf. rewrite Hs, wcsrchr_found by assumption. cbn [obind].
  rewrite to_int_small; [reflexivity|]. rewrite length_app in Hmax. simpl in Hmax. lia.
Qed.

Lemma LastIndexOf_absent str cs c :
  text_of str cs -> c <> 0 -> ~ In c cs -> String_LastIndexOf str c = Val (-1).
Proof.
  intros (Hnz & [rest Hs] & Hl & Hmax) Hc Hni.
  unfold String_LastIndexOf. rewrite Hs. now rewrite wcsrchr_absent.
Qed.

Lemma Substring_prefix str pre post :
  text_of str (pre ++ post) -> Z.of_nat (length pre) < INT_MAX ->
  exists r, String_Substring str 0 (Z.of_nat (length pre)) = Val r /\ text_of r pre.
Proof.
  intros Ht Hlen.
  destruct (Substring_slice str (pre ++ post) 0 (Z.of_nat (length pre)) Ht) as (r & Hr & Htr & _);
    [lia | lia | rewrite length_app; lia|].
  exists r. split; [exact Hr|].
  rewrite Nat2Z.id in Htr. change (Z.to_nat 0) with 0%nat in Htr.
  now rewrite drop_0, take_app_length in Htr.
Qed.

Lemma GetDirectoryName_spec path d f :
  text_of path (d ++ sep :: f) -> ~ In sep f ->
  Z.of_nat (length (d ++ sep :: f)) < INT_MAX ->
  exists r, Path_GetDirectoryName sep path = Val r /\
    text_of r (if is_root d then d ++ [sep] else d).
Proof.
  intros Ht Hni Hlen. unfold Path_GetDirectoryName.
  rewrite (LastIndexOf_found path d sep f Ht Hni). cbn [obind].
  destruct (Z.eqb_spec (Z.of_nat (length d)) (-1)); [lia|].
  rewrite length_app in Hlen. simpl length in Hlen.
  assert (Hroot : (if Z.of_nat (length d) =? 0 then Val true
                   else if Z.of_nat (length d) =? 2
                        then obind (String_get_Item path 1) (fun c => Val (c =? 58))
                        else Val false) = Val (is_root d)).
  { destruct d as [|x [|y [|z d]]]; try reflexivity.
    - change (Z.of_nat (length [x; y]) =? 0) with false.
      change (Z.of_nat (length [x; y]) =? 2) with true. cbn iota.
      pose proof (get_Item_text path _ 1%nat y Ht eq_refl) as Hg.
      change (Z.of_nat 1) with 1 in Hg. now rewrite Hg.
    - cbn [is_root]. simpl length.
      destruct (Z.eqb_spec (Z.of_nat (S (S (S (length d))))) 0); [lia|].
      destruct (Z.eqb_spec (Z.of_nat (S (S (S (length d))))) 2); [lia | reflexivity]. }
  rewrite Hroot. cbn [obind]. destruct (is_root d).
  - rewrite as_int_Val by (unfold INT_MIN, INT_MAX in *; lia). cbn [obind].
    replace (Z.of_nat (length d) + 1) with (Z.of_nat (length (d ++ [sep])))
      by (rewrite length_app; simpl; lia).
    apply (Substring_prefix path (d ++ [sep]) f).
    + now rewrite <- app_assoc.
    + rewrite length_app. simpl. lia.
  - apply (Substring_prefix path d (sep :: f) Ht). lia.
Qed.

Lemma Extension_spec path pre post :
  text_of path (pre ++ 46 :: post) -> ~ In 46 post ->
  exists r, Path_GetExtension path = Val r /\ text_of r (46 :: post).
Proof.
  intros (Hnz & [rest Hs] & Hl & Hmax) Hni. unfold Path_GetExtension.
  rewrite Hs, wcsrchr_found by assumption. cbn [obind].
  rewrite Nat2Z.id, <- app_assoc, drop_app_length.
  apply Forall_nz_app in Hnz. destruct Hnz as [_ Hnz].
  unfold DynamicString_of, Duplicate.
  change ((46 :: post) ++ 0 :: rest) with ((46 :: post) ++ 0 :: rest).
  rewrite wcslen_text by exact Hnz. cbn [obind].
  replace (Z.to_nat (Z.of_nat (length (46 :: post)) + 1)) with (length ((46 :: post) ++ [0]))
    by (rewrite length_app; simpl; lia).
  replace ((46 :: post) ++ 0 :: rest) with (((46 :: post) ++ [0]) ++ rest)
    by (now rewrite <- app_assoc).
  rewrite take_app_length.
  destruct (String_of_text (46 :: post) [] Hnz) as [Hr Htr].
  { rewrite length_app in Hmax. lia. }
  rewrite Hr. eexists. split; [reflexivity | exact Htr].
Qed.

End PathFacts.

(** X20: [Path::Combine] gives the first path, a separator unless the first
    path ends with one, and the second path; after an empty first path
    the separator is added too. *)
Theorem Combine_joins_paths bld wsize sep p1 p2 a b :
  4 <= sizeof_ptr bld -> 1 <= wsize <= 4 -> sep <> 0 ->
  text_of p1 a -> text_of p2 b ->
  Z.of_nat (length a) + Z.of_nat (length b) + 2 < 2 ^ 29 ->
  exists r, Path_Combine bld wsize sep p1 p2 = Val r /\
    text_of r (if bool_decide (last a = Some sep) then a ++ b else a ++ sep :: b) /\
    (a = [] -> text_of r (sep :: b)).
Proof.
  intros Hp Hw Hsep Ha Hb Hsmall.
  destruct (Combine_spec bld wsize sep Hp Hw Hsep p1 p2 a b Ha Hb Hsmall) as (r & Hr & Ht).
  exists r. split; [exact Hr|]. split; [exact Ht|]. intros ->. exact Ht.
Qed.

Lemma Combine_joins_paths_witness :
  exists r, Path_Combine safe64 4 47 hello hello = Val r /\
    text_of r [104; 101; 108; 108; 111; 47; 104; 101; 108; 108; 111].
Proof.
  destruct (Combine_joins_paths safe64 4 47 hello hello _ _ ltac:(simpl; lia) ltac:(lia)
              ltac:(discriminate) text_hello text_hello) as (r & Hr & Ht & _);
    [simpl; lia|].
  exists r. split; [exact Hr | exact Ht].
Defined.

(** X21: [Path::GetDirectoryName] gives the path itself when it holds no
    separator, and else the part before the last separator; the
    separator is kept when nothing comes before it, or two characters of
    which the second is a colon. *)
Theorem GetDirectoryName_cuts_at_last_separator sep path cs :
  sep <> 0 -> text_of path cs -> Z.of_nat (length cs) < INT_MAX ->
  (~ In sep cs -> Path_GetDirectoryName sep path = Val path) /\
  (forall d f, cs = d ++ sep :: f -> ~ In sep f ->
     exists r, Path_GetDirectoryName sep path = Val r /\
       text_of r (if is_root d then d ++ [sep] else d)).
Proof.
  intros Hsep Ht Hlen. split.
  - intros Hni. unfold Path_GetDirectoryName.
    now rewrite (LastIndexOf_absent path cs sep Ht Hsep Hni).
  - intros d f -> Hni. exact (GetDirectoryName_spec sep path d f Ht Hni Hlen).
Qed.

Lemma GetDirectoryName_cuts_at_last_separator_witness :
  exists r, Path_GetDirectoryName 108 hello = Val r /\ text_of r [104; 101; 108].
Proof.
  destruct (GetDirectoryName_cuts_at_last_separator 108 hello _ ltac:(discriminate) text_hello)
    as (_ & H); [unfold INT_MAX; simpl; lia|].
  apply (H [104; 101; 108] [111] eq_refl).
  intros [H1 | []]. discriminate H1.
Defined.

(** X22: The directory name of a combined path is the first path again, with
    a separator at its end left out, when the second path holds no
    separator and the first is not the root or a drive. *)
Theorem GetDirectoryName_of_Combine bld wsize sep p1 p2 a b :
  4 <= sizeof_ptr bld -> 1 <= wsize <= 4 -> sep <> 0 ->
  text_of p1 a -> text_of p2 b ->
  Z.of_nat (length a) + Z.of_nat (length b) + 2 < 2 ^ 29 ->
  ~ In sep b ->
  exists r, Path_Combine bld wsize sep p1 p2 = Val r /\
    (last a <> Some sep -> is_root a = false ->
     exists d, Path_GetDirectoryName sep r = Val d /\ text_of d a) /\
    (forall a', a = a' ++ [sep] -> is_root a' = false ->
     exists d, Path_GetDirectoryName sep r = Val d /\ text_of d a') /\
    (a = [] -> exists d, Path_GetDirectoryName sep r = Val d /\ text_of d [sep]).
Proof.
  intros Hp Hw Hsep Ha Hb Hsmall Hni.
  destruct (Combine_spec bld wsize sep Hp Hw Hsep p1 p2 a b Ha Hb Hsmall) as (r & Hr & Ht).
  exists r. split; [exact Hr|].
  assert (Hint : 2 ^ 29 < INT_MAX) by (unfold INT_MAX; lia).
  split; [|split].
  - intros Hlast Hroot. rewrite bool_decide_eq_false_2 in Ht by exact Hlast.
    destruct (GetDirectoryName_spec sep r a b Ht Hni) as (d & Hd & Htd).
    { rewrite length_app. simpl length. lia. }
    rewrite Hroot in Htd. now exists d.
  - intros a' -> Hroot. rewrite bool_decide_eq_true_2 in Ht by apply last_snoc.
    rewrite <- app_assoc in Ht. cbn [app] in Ht. rewrite length_app in Hsmall. simpl in Hsmall.
    destruct (GetDirectoryName_spec sep r a' b Ht Hni) as (d & Hd & Htd).
    { rewrite length_app. simpl length. lia. }
    rewrite Hroot in Htd. now exists d.
  - intros ->. cbn [last app] in Ht. rewrite bool_decide_eq_false_2 in Ht by discriminate.
    destruct (GetDirectoryName_spec sep r [] b Ht Hni) as (d & Hd & Htd).
    { simpl length in *. lia. }
    now exists d.
Qed.

Lemma GetDirectoryName_of_Combine_witness :
  exists r d, Path_Combine safe64 4 47 hello hello = Val r /\
    Path_GetDirectoryName 47 r = Val d /\ text_of d [104; 101; 108; 108; 111].
Proof.
  destruct (GetDirectoryName_of_Combine safe64 4 47 hello hello _ _ ltac:(simpl; lia) ltac:(lia)
              ltac:(discriminate) text_hello text_hello) as (r & Hr & H & _).
  - simpl. lia.
  - simpl. intros [H | [H | [H | [H | [H | []]]]]]; discriminate H.
  - destruct H as (d & Hd & Htd); [discriminate | reflexivity|].
    exists r, d. split; [exact Hr|]. split; [exact Hd | exact Htd].
Defined.

(** X23: [GetFileNameWithoutExtension] gives the part of the path before its
    last dot and [GetExtension] the part from that dot on, wherever the
    dot is, also in a directory's name; without a dot the first gives
    the path itself and the second the empty string. *)
Theorem extension_starts_at_last_dot path cs :
  text_of path cs -> Z.of_nat (length cs) < INT_MAX ->
  (forall pre post, cs = pre ++ 46 :: post -> ~ In 46 post ->
     exists stem ext, Path_GetFileNameWithoutExtension path = Val stem /\
       Path_GetExtension path = Val ext /\
       text_of stem pre /\ text_of ext (46 :: post)) /\
  (~ In 46 cs ->
     Path_GetFileNameWithoutExtension path = Val path /\
     exists ext, Path_GetExtension path = Val ext /\ text_of ext []).
Proof.
  intros Ht Hlen. split.
  - intros pre post -> Hni.
    destruct (Extension_spec path pre post Ht Hni) as (ext & He & Hte).
    destruct (Substring_prefix path pre (46 :: post) Ht) as (stem & Hs & Hts).
    { rewrite length_app in Hlen. lia. }
    exists stem, ext. split; [|split; [exact He|]; split; [exact Hts | exact Hte]].
    unfold Path_GetFileNameWithoutExtension.
    rewrite (LastIndexOf_found path pre 46 post Ht Hni). cbn [obind].
    destruct (Z.leb_spec 0 (Z.of_nat (length pre))); [exact Hs | lia].
  - intros Hni. split.
    + unfold Path_GetFileNameWithoutExtension.
      now rewrite (LastIndexOf_absent path cs 46 Ht ltac:(discriminate) Hni).
    + destruct Ht as (Hnz & [rest Hs] & _). unfold Path_GetExtension.
      rewrite Hs, wcsrchr_absent by (try assumption; discriminate). cbn [obind].
      eexists. split; [reflexivity|].
      split; [constructor|]. split; [now exists []|].
      split; [reflexivity | unfold INT_MAX; simpl; lia].
Qed.

Lemma extension_starts_at_last_dot_witness :
  exists stem ext,
    Path_GetFileNameWithoutExtension {| s_ := [97; 46; 98; 47; 99; 0]; length_ := 5 |} = Val stem /\
    Path_GetExtension {| s_ := [97; 46; 98; 47; 99; 0]; length_ := 5 |} = Val ext /\
    text_of stem [97] /\ text_of ext [46; 98; 47; 99].
Proof.
  destruct (extension_starts_at_last_dot {| s_ := [97; 46; 98; 47; 99; 0]; length_ := 5 |}
              [97; 46; 98; 47; 99]) as (H & _).
  - split; [repeat constructor; discriminate|]. split; [now exists []|].
    split; [reflexivity | unfold INT_MAX; simpl; lia].
  - unfold INT_MAX. simpl. lia.
  - apply (H [97] [98; 47; 99] eq_refl).
    intros [H1 | [H1 | [H1 | []]]]; discriminate H1.
Defined.

(** ** Arrays *)









Lemma Copy_checked h source si dest di len s d :
  h !! source = Some s -> h !! dest = Some d ->
  element_type_ s = element_type_ d ->
  0 <= si -> INT_MIN <= si + len -> si + len <= alength_ s -> alength_ s <= INT_MAX ->
  0 <= di -> INT_MIN <= di + len -> di + len <= alength_ d -> alength_ d <= INT_MAX ->
  Array_Copy h source si dest di len
  = if copyable s then CopyableArray_Copy h source si dest di len
    else Abort "can't copy elements between owning arrays".
Proof.
  intros Hs Hd Hty Hsi Hsl Hsu Hsm Hdi Hdl Hdu Hdm. unfold Array_Copy. rewrite Hs, Hd, Hty.
  rewrite Z.eqb_refl. cbn [asserted obind].
  destruct (Z.leb_spec 0 si); [|lia]. cbn [asserted obind].
  rewrite as_int_Val by lia. cbn [obind].
  destruct (Z.leb_spec (si + len) (alength_ s)); [|lia]. cbn [asserted obind].
  destruct (Z.leb_spec 0 di); [|lia]. cbn [asserted obind].
  rewrite as_int_Val by lia. cbn [obind].
  destruct (Z.leb_spec (di + len) (alength_ d)); [|lia]. reflexivity.
Qed.

Lemma ptr_in_true a i : 0 <= i <= Z.of_nat (length (a_ a)) -> ptr_in a i = true.
Proof.
  intros H. unfold ptr_in.
  destruct (Z.leb_spec 0 i); [|lia]. destruct (Z.leb_spec i (Z.of_nat (length (a_ a)))); [|lia].
  reflexivity.
Qed.







(** X26: [Array::Copy] stops with a fatal error, before any cell is written,
    when the element types differ, when a range does not lie within its
    array, and when the source is an array that owns its elements. *)
Theorem Copy_refuses_bad_arguments h source dest s d si di len :
  h !! source = Some s -> h !! dest = Some d ->
  INT_MIN <= si + len <= INT_MAX -> INT_MIN <= di + len <= INT_MAX ->
  (element_type_ s <> element_type_ d ->
   Array_Copy h source si dest di len = Abort "can't copy between arrays of different types") /\
  (element_type_ s = element_type_ d ->
   si < 0 \/ alength_ s < si + len \/ di < 0 \/ alength_ d < di + len ->
   Array_Copy h source si dest di len = Abort "array copy index out of bounds") /\
  (element_type_ s = element_type_ d ->
   0 <= si -> si + len <= alength_ s -> 0 <= di -> di + len <= alength_ d ->
   copyable s = false ->
   Array_Copy h source si dest di len = Abort "can't copy elements between owning arrays").
Proof.
  intros Hs Hd Hrs Hrd. split; [|split].
  - intros Hne. unfold Array_Copy. rewrite Hs, Hd.
    destruct (Z.eqb_spec (element_type_ s) (element_type_ d)); [contradiction | reflexivity].
  - intros Hty Hbad. unfold Array_Copy. rewrite Hs, Hd, Hty, Z.eqb_refl.
    cbn [asserted obind].
    destruct (Z.leb_spec 0 si); [|reflexivity]. cbn [asserted obind].
    rewrite as_int_Val by lia. cbn [obind].
    destruct (Z.leb_spec (si + len) (alength_ s)); [|reflexivity]. cbn [asserted obind].
    destruct (Z.leb_spec 0 di); [|reflexivity]. cbn [asserted obind].
    rewrite as_int_Val by lia. cbn [obind].
    destruct (Z.leb_spec (di + len) (alength_ d)); [lia | reflexivity].
  - intros Hty Hsi Hsu Hdi Hdu Hc. unfold Array_Copy. rewrite Hs, Hd, Hty, Z.eqb_refl.
    cbn [asserted obind].
    destruct (Z.leb_spec 0 si); [|lia]. cbn [asserted obind].
    rewrite as_int_Val by lia. cbn [obind].
    destruct (Z.leb_spec (si + len) (alength_ s)); [|lia]. cbn [asserted obind].
    destruct (Z.leb_spec 0 di); [|lia]. cbn [asserted obind].
    rewrite as_int_Val by lia. cbn [obind].
    destruct (Z.leb_spec (di + len) (alength_ d)); [|lia]. cbn [asserted obind].
    now rewrite Hc.
Qed.

Lemma Copy_refuses_bad_arguments_witness :
  Array_Copy
    (<[1 := {| element_type_ := 7; alength_ := 3; a_ := [10; 20; 30]; copyable := true |}]> ∅)
    1 2 1 0 2
  = Abort "array copy index out of bounds".
Proof.
  destruct (Copy_refuses_bad_arguments
    (<[1 := {| element_type_ := 7; alength_ := 3; a_ := [10; 20; 30]; copyable := true |}]> ∅)
    1 1 {| element_type_ := 7; alength_ := 3; a_ := [10; 20; 30]; copyable := true |}
    {| element_type_ := 7; alength_ := 3; a_ := [10; 20; 30]; copyable := true |} 2 0 2
    ltac:(apply lookup_insert_eq) ltac:(apply lookup_insert_eq)
    ltac:(unfold INT_MIN, INT_MAX; lia) ltac:(unfold INT_MIN, INT_MAX; lia))
    as (_ & H & _).
  apply H; [reflexivity | simpl; lia].
Defined.

(** X27: A negative length passes the checks of [Array::Copy] whenever the
    start indexes are within their arrays: no error is raised and
    nothing is copied, as long as the source range does not start
    before the array; when it does, the behaviour is undefined. *)
Theorem Copy_accepts_negative_length h source dest s d si di len :
  h !! source = Some s -> h !! dest = Some d ->
  array_ok s -> array_ok d -> copyable s = true -> copyable d = true ->
  element_type_ s = element_type_ d ->
  len < 0 -> 0 <= si <= alength_ s -> 0 <= di <= alength_ d ->
  INT_MIN <= si + len -> INT_MIN <= di + len ->
  Array_Copy h source si dest di len = if 0 <=? si + len then Val h else Undef.
Proof.
  intros Hs Hd [Hls Hms] [Hld Hmd] Hcs Hcd Hty Hlen Hsi Hdi Hrs Hrd.
  rewrite (Copy_checked h source si dest di len s d) by (try assumption; lia).
  rewrite Hcs. unfold CopyableArray_Copy. rewrite Hs, Hd, Hcd.
  rewrite (ptr_in_true s si), (ptr_in_true d di) by lia.
  unfold ptr_in at 1. destruct (Z.leb_spec 0 (si + len)).
  - destruct (Z.leb_spec (si + len) (Z.of_nat (length (a_ s)))); [|lia]. cbn [andb].
    now replace (Z.to_nat len) with 0%nat by lia.
  - reflexivity.
Qed.

Lemma Copy_accepts_negative_length_witness :
  Array_Copy
    (<[1 := {| element_type_ := 7; alength_ := 3; a_ := [10; 20; 30]; copyable := true |}]> ∅)
    1 2 1 0 (-1)
  = Val (<[1 := {| element_type_ := 7; alength_ := 3; a_ := [10; 20; 30]; copyable := true |}]> ∅).
Proof.
  apply (Copy_accepts_negative_length
    (<[1 := {| element_type_ := 7; alength_ := 3; a_ := [10; 20; 30]; copyable := true |}]> ∅)
    1 1 {| element_type_ := 7; alength_ := 3; a_ := [10; 20; 30]; copyable := true |}
    {| element_type_ := 7; alength_ := 3; a_ := [10; 20; 30]; copyable := true |} 2 0 (-1)
    ltac:(apply lookup_insert_eq) ltac:(apply lookup_insert_eq)
    ltac:(split; [reflexivity | unfold INT_MAX; simpl; lia])
    ltac:(split; [reflexivity | unfold INT_MAX; simpl; lia])
    eq_refl eq_refl eq_refl ltac:(lia) ltac:(simpl; lia) ltac:(simpl; lia)
    ltac:(unfold INT_MIN; lia) ltac:(unfold INT_MIN; lia)).
Defined.

Lemma until_null_nz cs : Forall (fun c => c <> 0) (until_null cs).
Proof.
  induction cs as [|c cs IH]; [constructor|].
  cbn [until_null]. destruct (Z.eqb_spec c 0); [constructor | now constructor].
Qed.

Lemma wcsncpy_all l :
  wcsncpy l (length l)
  = Val (until_null l ++ replicate (length l - length (until_null l)) 0).
Proof.
  induction l as [|c l IH]; [reflexivity|].
  cbn [length wcsncpy until_null]. destruct (Z.eqb_spec c 0) as [-> | Hc].
  - reflexivity.
  - rewrite IH. reflexivity.
Qed.

(** X28: [String::New] makes a string of the characters of an array up to the
    first null character among them, or of all of them; an empty array
    is the fatal error of an index out of bounds. *)
Theorem String_New_reads_until_null bld a :
  4 <= sizeof_ptr bld -> array_ok a -> alength_ a < INT_MAX ->
  (alength_ a = 0 -> String_New bld a = Abort "array index out of bounds") /\
  (0 < alength_ a ->
   exists r, String_New bld a = Val r /\ text_of r (until_null (a_ a)) /\
     (Forall (fun c => c <> 0) (a_ a) -> text_of r (a_ a))).
Proof.
  intros Hp [Hl Hm] Hlt. split.
  - intros H0. unfold String_New, Array_Check. now rewrite H0.
  - intros Hpos. unfold String_New, Array_Check.
    destruct (Z.ltb_spec 0 (alength_ a)); [|lia]. cbn [Z.leb andb asserted obind].
    rewrite as_int_Val by (unfold INT_MIN, INT_MAX in *; lia). cbn [obind].
    rewrite size_t_int by (try assumption; lia). rewrite Hl, Nat2Z.id, wcsncpy_all.
    cbn [obind]. rewrite <- app_assoc.
    pose proof (until_null_length (a_ a)) as Hul.
    destruct (String_of_text (until_null (a_ a))
                (replicate (length (a_ a) - length (until_null (a_ a))) 0)
                (until_null_nz (a_ a))) as [Hr Ht]; [lia|].
    assert (Hshape : replicate (length (a_ a) - length (until_null (a_ a))) 0 ++ [0]
                     = 0 :: replicate (length (a_ a) - length (until_null (a_ a))) 0).
    { generalize (length (a_ a) - length (until_null (a_ a)))%nat. clear.
      induction n as [|n IH]; [reflexivity|]. cbn [replicate app]. now rewrite IH. }
    rewrite Hshape, Hr. eexists. split; [reflexivity|]. split; [exact Ht|].
    intros Hnz.
    assert (Hall : until_null (a_ a) = a_ a).
    { clear - Hnz. induction Hnz as [|c cs Hc _ IH]; [reflexivity|].
      cbn [until_null]. destruct (Z.eqb_spec c 0); [contradiction|]. now rewrite IH. }
    rewrite Hall in Ht. rewrite Hall. exact Ht.
Qed.

Lemma String_New_reads_until_null_witness :
  exists r, String_New safe64 {| element_type_ := 7; alength_ := 3; a_ := [104; 0; 105];
                                 copyable := true |} = Val r /\
    text_of r [104].
Proof.
  destruct (String_New_reads_until_null safe64
              {| element_type_ := 7; alength_ := 3; a_ := [104; 0; 105]; copyable := true |}
              ltac:(simpl; lia) ltac:(split; [reflexivity | unfold INT_MAX; simpl; lia])
              ltac:(unfold INT_MAX; simpl; lia)) as (_ & H).
  destruct H as (r & Hr & Ht & _); [simpl; lia|].
  exists r. split; [exact Hr | exact Ht].
Defined.

Lemma hash_loop_text cs : forall h r1 r2,
  hash_loop h (cs ++ 0 :: r1) = hash_loop h (cs ++ 0 :: r2).
Proof.
  induction cs as [|c cs IH]; intros h r1 r2; [reflexivity|].
  cbn [app hash_loop]. destruct (c =? 0); [reflexivity|].
  destruct (as_int (h * 17)) as [m | |]; cbn [obind]; try reflexivity.
  destruct (as_int (m + c)) as [h' | |]; cbn [obind]; try reflexivity.
  apply IH.
Qed.

(** X29: Strings that [_Equals] takes for equal have the same hash code,
    wherever their characters are stored. *)
Theorem equal_strings_hash_alike a b ca cb :
  text_of a ca -> text_of b cb ->
  String_Equals (Some a) (Some b) = Val true ->
  String_GetHashCode a = String_GetHashCode b.
Proof.
  intros (Ha & [r1 Hs1] & _) (Hb & [r2 Hs2] & _) Heq.
  destruct (wcscmp_text ca cb r1 r2 Ha Hb) as (c & Hc & Hiff & _).
  unfold String_Equals, String_Equals_chars in Heq. rewrite Hs1, Hs2, Hc in Heq.
  cbn [obind] in Heq.
  assert (Hsame : ca = cb) by (apply Hiff; destruct c; [reflexivity | discriminate..]).
  unfold String_GetHashCode. rewrite Hs1, Hs2, Hsame. apply hash_loop_text.
Qed.

Lemma equal_strings_hash_alike_witness :
  String_GetHashCode hello
  = String_GetHashCode {| s_ := [104; 101; 108; 108; 111; 0; 33]; length_ := 5 |}.
Proof.
  apply (equal_strings_hash_alike hello
           {| s_ := [104; 101; 108; 108; 111; 0; 33]; length_ := 5 |}
           [104; 101; 108; 108; 111] [104; 101; 108; 108; 111] text_hello).
  - split; [repeat constructor; discriminate|]. split; [now exists [33]|].
    split; [reflexivity | unfold INT_MAX; simpl; lia].
  - reflexivity.
Defined.
